(** * Dynamic-wave conduit flow (dwflow.c) and the expression evaluator
      (mathexpr.c) of EPA SWMM 5.1

    A shallow embedding of the two C modules and the properties their
    specification states about them.

    Numbers.  In [Dwflow] a C [double] is an exact rational ([Q]): the
    properties of the momentum step are algebraic (signs, bounds, monotonicity)
    and are stated for exact arithmetic; rounding, infinities and NaN are
    outside that model, but for the one test whose outcome the rounding
    decides: the sign test on a product in the under-relaxation
    ([productIsNegative]).  In [Mathexpr] a [double] is a binary64 float
    ([PrimFloat.float]), because the evaluator's guards are about IEEE special
    cases (the test [r1 != r1], a logarithm of a negative number).

    State.  [SWMM_Project *sp] is a record of arrays; a function that takes
    [sp] is a computation in the state-and-failure monad [M], where failure
    stands for an index outside its array (undefined in C). *)

From Stdlib Require Import ZArith QArith Qabs Lqa Lia List Bool String Ascii Floats.
Import ListNotations.

Module Dwflow.

Local Open Scope Q_scope.

(** ** Comparisons and macros on doubles *)

Definition Qltb (x y : Q) : bool := if Qlt_le_dec x y then true else false.
Definition Qleb (x y : Q) : bool := if Qlt_le_dec y x then false else true.
Definition Qgtb (x y : Q) : bool := Qltb y x.
Definition Qgeb (x y : Q) : bool := Qleb y x.
Definition Qeqb (x y : Q) : bool := if Qeq_dec x y then true else false.

Infix "<?" := Qltb (at level 70, no associativity) : Q_scope.
Infix "<=?" := Qleb (at level 70, no associativity) : Q_scope.
Infix ">?" := Qgtb (at level 70, no associativity) : Q_scope.
Infix ">=?" := Qgeb (at level 70, no associativity) : Q_scope.
Infix "=?" := Qeqb (at level 70, no associativity) : Q_scope.

(** Modelled from the spec: the macros [MIN], [MAX] and [SGN] of the absent
    headers.h ("min", "max" and "sign" in the spec); [fabs] is [Qabs]. *)
Definition MIN (x y : Q) : Q := if x <=? y then x else y.
Definition MAX (x y : Q) : Q := if x >=? y then x else y.
Definition SGN (x : Q) : Q := if x <? 0 then -(1) else 1.
Definition fabs (x : Q) : Q := Qabs x.

(** [static const double MAXVELOCITY = 50.] *)
Definition MAXVELOCITY : Q := 50.

(** ** Enumerations (enums.h is absent; the names are the ones dwflow.c uses) *)

Inductive FlowClass : Type :=
| DRY | UP_DRY | DN_DRY | SUBCRITICAL | SUPCRITICAL | UP_CRITICAL | DN_CRITICAL.

Inductive NodeType : Type := JUNCTION | OUTFALL | STORAGE | DIVIDER.

Inductive NormalFlowType : Type := SLOPE | FROUDE | BOTH.

Inductive InertialDampingType : Type := NO_DAMPING | PARTIAL_DAMPING | FULL_DAMPING.

Definition FlowClass_eqb (a b : FlowClass) : bool :=
  match a, b with
  | DRY, DRY | UP_DRY, UP_DRY | DN_DRY, DN_DRY | SUBCRITICAL, SUBCRITICAL
  | SUPCRITICAL, SUPCRITICAL | UP_CRITICAL, UP_CRITICAL | DN_CRITICAL, DN_CRITICAL => true
  | _, _ => false
  end.

Definition isOutfall (t : NodeType) : bool :=
  match t with OUTFALL => true | _ => false end.

(** ** Project records *)

Module TXsect.
(** Cross-section descriptor: the fields of [TXsect] that dwflow.c reads. *)
Record t : Type := mk {
  type : Z;
  culvertCode : Z;
  yFull : Q;
  aFull : Q
}.
End TXsect.

Module TNode.
(** Node record: the fields of [TNode] that dwflow.c reads. *)
Record t : Type := mk {
  type : NodeType;
  invertElev : Q;
  newDepth : Q
}.
End TNode.

Module TLink.
(** Link record: the fields of [TLink] that dwflow.c reads or writes. *)
Record t : Type := mk {
  node1 : nat;
  node2 : nat;
  subIndex : nat;
  xsect : TXsect.t;
  offset1 : Q;
  offset2 : Q;
  setting : Q;
  oldFlow : Q;
  qLimit : Q;
  cLossInlet : Q;
  cLossOutlet : Q;
  cLossAvg : Q;
  flowClass : FlowClass;
  froude : Q;
  newDepth : Q;
  newVolume : Q;
  newFlow : Q;
  dqdh : Q;
  surfArea1 : Q;
  surfArea2 : Q;
  inletControl : bool;
  normalFlow : bool
}.
Definition set_flowClass (v : FlowClass) (r : t) : t :=
  mk (node1 r) (node2 r) (subIndex r) (xsect r) (offset1 r) (offset2 r) (setting r) (oldFlow r) (qLimit r) (cLossInlet r) (cLossOutlet r) (cLossAvg r) v (froude r) (newDepth r) (newVolume r) (newFlow r) (dqdh r) (surfArea1 r) (surfArea2 r) (inletControl r) (normalFlow r).
Definition set_froude (v : Q) (r : t) : t :=
  mk (node1 r) (node2 r) (subIndex r) (xsect r) (offset1 r) (offset2 r) (setting r) (oldFlow r) (qLimit r) (cLossInlet r) (cLossOutlet r) (cLossAvg r) (flowClass r) v (newDepth r) (newVolume r) (newFlow r) (dqdh r) (surfArea1 r) (surfArea2 r) (inletControl r) (normalFlow r).
Definition set_newDepth (v : Q) (r : t) : t :=
  mk (node1 r) (node2 r) (subIndex r) (xsect r) (offset1 r) (offset2 r) (setting r) (oldFlow r) (qLimit r) (cLossInlet r) (cLossOutlet r) (cLossAvg r) (flowClass r) (froude r) v (newVolume r) (newFlow r) (dqdh r) (surfArea1 r) (surfArea2 r) (inletControl r) (normalFlow r).
Definition set_newVolume (v : Q) (r : t) : t :=
  mk (node1 r) (node2 r) (subIndex r) (xsect r) (offset1 r) (offset2 r) (setting r) (oldFlow r) (qLimit r) (cLossInlet r) (cLossOutlet r) (cLossAvg r) (flowClass r) (froude r) (newDepth r) v (newFlow r) (dqdh r) (surfArea1 r) (surfArea2 r) (inletControl r) (normalFlow r).
Definition set_newFlow (v : Q) (r : t) : t :=
  mk (node1 r) (node2 r) (subIndex r) (xsect r) (offset1 r) (offset2 r) (setting r) (oldFlow r) (qLimit r) (cLossInlet r) (cLossOutlet r) (cLossAvg r) (flowClass r) (froude r) (newDepth r) (newVolume r) v (dqdh r) (surfArea1 r) (surfArea2 r) (inletControl r) (normalFlow r).
Definition set_dqdh (v : Q) (r : t) : t :=
  mk (node1 r) (node2 r) (subIndex r) (xsect r) (offset1 r) (offset2 r) (setting r) (oldFlow r) (qLimit r) (cLossInlet r) (cLossOutlet r) (cLossAvg r) (flowClass r) (froude r) (newDepth r) (newVolume r) (newFlow r) v (surfArea1 r) (surfArea2 r) (inletControl r) (normalFlow r).
Definition set_surfArea1 (v : Q) (r : t) : t :=
  mk (node1 r) (node2 r) (subIndex r) (xsect r) (offset1 r) (offset2 r) (setting r) (oldFlow r) (qLimit r) (cLossInlet r) (cLossOutlet r) (cLossAvg r) (flowClass r) (froude r) (newDepth r) (newVolume r) (newFlow r) (dqdh r) v (surfArea2 r) (inletControl r) (normalFlow r).
Definition set_surfArea2 (v : Q) (r : t) : t :=
  mk (node1 r) (node2 r) (subIndex r) (xsect r) (offset1 r) (offset2 r) (setting r) (oldFlow r) (qLimit r) (cLossInlet r) (cLossOutlet r) (cLossAvg r) (flowClass r) (froude r) (newDepth r) (newVolume r) (newFlow r) (dqdh r) (surfArea1 r) v (inletControl r) (normalFlow r).
Definition set_inletControl (v : bool) (r : t) : t :=
  mk (node1 r) (node2 r) (subIndex r) (xsect r) (offset1 r) (offset2 r) (setting r) (oldFlow r) (qLimit r) (cLossInlet r) (cLossOutlet r) (cLossAvg r) (flowClass r) (froude r) (newDepth r) (newVolume r) (newFlow r) (dqdh r) (surfArea1 r) (surfArea2 r) v (normalFlow r).
Definition set_normalFlow (v : bool) (r : t) : t :=
  mk (node1 r) (node2 r) (subIndex r) (xsect r) (offset1 r) (offset2 r) (setting r) (oldFlow r) (qLimit r) (cLossInlet r) (cLossOutlet r) (cLossAvg r) (flowClass r) (froude r) (newDepth r) (newVolume r) (newFlow r) (dqdh r) (surfArea1 r) (surfArea2 r) (inletControl r) v.
End TLink.

Module TConduit.
(** Conduit record: the fields of [TConduit] that dwflow.c reads or writes. *)
Record t : Type := mk {
  barrels : Q;
  modLength : Q;
  roughFactor : Q;
  beta : Q;
  hasLosses : bool;
  q1 : Q;
  q2 : Q;
  a1 : Q;
  a2 : Q;
  fullState : Z
}.
Definition set_q1 (v : Q) (r : t) : t :=
  mk (barrels r) (modLength r) (roughFactor r) (beta r) (hasLosses r) v (q2 r) (a1 r) (a2 r) (fullState r).
Definition set_q2 (v : Q) (r : t) : t :=
  mk (barrels r) (modLength r) (roughFactor r) (beta r) (hasLosses r) (q1 r) v (a1 r) (a2 r) (fullState r).
Definition set_a1 (v : Q) (r : t) : t :=
  mk (barrels r) (modLength r) (roughFactor r) (beta r) (hasLosses r) (q1 r) (q2 r) v (a2 r) (fullState r).
Definition set_fullState (v : Z) (r : t) : t :=
  mk (barrels r) (modLength r) (roughFactor r) (beta r) (hasLosses r) (q1 r) (q2 r) (a1 r) (a2 r) v.
Definition set_roughFactor (v : Q) (r : t) : t :=
  mk (barrels r) (modLength r) v (beta r) (hasLosses r) (q1 r) (q2 r) (a1 r) (a2 r) (fullState r).
End TConduit.

Record SWMM_Project : Type := mkProject {
  Link : list TLink.t;
  Node : list TNode.t;
  Conduit : list TConduit.t;
  InertDamping : InertialDampingType;
  NormalFlowLtd : NormalFlowType
}.

Definition set_Link (v : list TLink.t) (sp : SWMM_Project) : SWMM_Project :=
  mkProject v (Node sp) (Conduit sp) (InertDamping sp) (NormalFlowLtd sp).
Definition set_Conduit (v : list TConduit.t) (sp : SWMM_Project) : SWMM_Project :=
  mkProject (Link sp) (Node sp) v (InertDamping sp) (NormalFlowLtd sp).

(** [a[i] = x]: the array with cell [i] replaced (unchanged when [i] is out of
    range; the monad below fails before that can happen). *)
Fixpoint upd {A : Type} (i : nat) (x : A) (a : list A) : list A :=
  match a, i with
  | [], _ => []
  | _ :: t, O => x :: t
  | h :: t, S i' => h :: upd i' x t
  end.

(** ** The state monad of functions that take [sp] *)

Definition M (A : Type) : Type := SWMM_Project -> option (A * SWMM_Project).

Definition ret {A : Type} (a : A) : M A := fun sp => Some (a, sp).

Definition bind {A B : Type} (m : M A) (f : A -> M B) : M B :=
  fun sp => match m sp with
            | Some (a, sp') => f a sp'
            | None => None
            end.

Notation "x <- m ;; k" := (bind m (fun x => k))
  (at level 61, m at next level, right associativity).
Notation "m ;;; k" := (bind m (fun _ => k))
  (at level 61, right associativity).

(** A read of the whole project, used for the global flags and for calls of
    helpers that receive [sp]. *)
Definition gets {A : Type} (f : SWMM_Project -> A) : M A :=
  fun sp => Some (f sp, sp).

(** [sp->Link[j]], [sp->Node[n]], [sp->Conduit[k]] as reads. *)
Definition getLink (j : nat) : M TLink.t :=
  fun sp => match nth_error (Link sp) j with
            | Some l => Some (l, sp)
            | None => None
            end.
Definition getNode (n : nat) : M TNode.t :=
  fun sp => match nth_error (Node sp) n with
            | Some x => Some (x, sp)
            | None => None
            end.
Definition getConduit (k : nat) : M TConduit.t :=
  fun sp => match nth_error (Conduit sp) k with
            | Some c => Some (c, sp)
            | None => None
            end.

(** [sp->Link[j].field = v] and [sp->Conduit[k].field = v] as writes. *)
Definition modLink (j : nat) (f : TLink.t -> TLink.t) : M unit :=
  fun sp => match nth_error (Link sp) j with
            | Some l => Some (tt, set_Link (upd j (f l) (Link sp)) sp)
            | None => None
            end.
Definition modConduit (k : nat) (f : TConduit.t -> TConduit.t) : M unit :=
  fun sp => match nth_error (Conduit sp) k with
            | Some c => Some (tt, set_Conduit (upd k (f c) (Conduit sp)) sp)
            | None => None
            end.

(** The project [sp] with [Link[j]] and [Conduit[k]] replaced: every state
    that a call of [dwflow_findConduitFlow] for link [j] goes through has
    this form. *)
Definition plug (sp : SWMM_Project) (j : nat) (l : TLink.t) (k : nat) (c : TConduit.t)
  : SWMM_Project :=
  set_Conduit (upd k c (Conduit sp)) (set_Link (upd j l (Link sp)) sp).

(** ** External collaborators

    The constants of the absent headers and the helpers that dwflow.c calls
    but does not define, with the signatures of their call sites.  Helpers
    that receive [sp] read the current project.  [culvert_getInflow] returns
    the capped flow and whether inlet control applied (the helper sets
    [inletControl] itself in C). *)
Record Externs : Type := mkExterns {
  FUDGE : Q;
  GRAVITY : Q;
  FORCE_MAIN : Z;
  link_getLength : SWMM_Project -> nat -> Q;
  link_getFroude : SWMM_Project -> nat -> Q -> Q -> Q;
  link_getYnorm : SWMM_Project -> nat -> Q -> Q;
  link_getYcrit : SWMM_Project -> nat -> Q -> Q;
  link_getLossRate : SWMM_Project -> nat -> Q -> Q -> Q;
  link_setFlapGate : SWMM_Project -> nat -> nat -> nat -> Q -> bool;
  link_getFullState : Q -> Q -> Q -> Z;
  forcemain_getFricSlope : SWMM_Project -> nat -> Q -> Q -> Q;
  culvert_getInflow : SWMM_Project -> nat -> Q -> Q -> Q * bool;
  xsect_getAofY : SWMM_Project -> TXsect.t -> Q -> Q;
  xsect_getWofY : SWMM_Project -> TXsect.t -> Q -> Q;
  xsect_getRofY : SWMM_Project -> TXsect.t -> Q -> Q;
  xsect_isOpen : Z -> bool;
  pow : Q -> Q -> Q
}.

(** ** The functions of dwflow.c *)

Section Solver.

Variable X : Externs.

(** [getWidth] (dwflow.c 551-563). *)
Definition getWidth (xsect : TXsect.t) (y : Q) : M Q :=
  let yNorm := y / TXsect.yFull xsect in
  let y := if (yNorm >? 96 # 100) && negb (xsect_isOpen X (TXsect.type xsect))
           then (96 # 100) * TXsect.yFull xsect else y in
  gets (fun sp => xsect_getWofY X sp xsect y).

(** [getArea] (dwflow.c 567-579). *)
Definition getArea (xsect : TXsect.t) (y : Q) : M Q :=
  let y := MIN y (TXsect.yFull xsect) in
  gets (fun sp => xsect_getAofY X sp xsect y).

(** [getHydRad] (dwflow.c 583-595). *)
Definition getHydRad (xsect : TXsect.t) (y : Q) : M Q :=
  let y := MIN y (TXsect.yFull xsect) in
  gets (fun sp => xsect_getRofY X sp xsect y).

(** The offset of a conduit end at node [nd] (dwflow.c 307-309):
    [if ( Node[n].type == OUTFALL ) z = MAX(0.0, (z - Node[n].newDepth))]. *)
Definition outfallOffset (nd : TNode.t) (z : Q) : Q :=
  if isOutfall (TNode.type nd) then MAX 0 (z - TNode.newDepth nd) else z.

(** [getFlowClass] (dwflow.c 278-394).  The out-parameters [*yC] and [*yN]
    come in with the caller's values and go out in the result, together with
    [*fasnh], which the function always assigns: the result is
    [(flowClass, yC, yN, fasnh)]. *)
Definition getFlowClass (j : nat) (q h1 h2 y1 y2 : Q) (yC yN : Q)
  : M (FlowClass * Q * Q * Q) :=
  l <- getLink j ;;
  let n1 := TLink.node1 l in
  let n2 := TLink.node2 l in
  let z1 := TLink.offset1 l in
  let z2 := TLink.offset2 l in
  nd1 <- getNode n1 ;;
  let z1 := outfallOffset nd1 z1 in
  nd2 <- getNode n2 ;;
  let z2 := outfallOffset nd2 z2 in
  let flowClass := SUBCRITICAL in
  let fasnh := 1 in
  if (y1 >? FUDGE X) && (y2 >? FUDGE X) then
    if q <? 0 then
      if z1 >? 0 then
        yN <- gets (fun sp => link_getYnorm X sp j (fabs q)) ;;
        yC <- gets (fun sp => link_getYcrit X sp j (fabs q)) ;;
        let ycMin := MIN yN yC in
        let flowClass := if y1 <? ycMin then UP_CRITICAL else flowClass in
        ret (flowClass, yC, yN, fasnh)
      else ret (flowClass, yC, yN, fasnh)
    else
      if z2 >? 0 then
        yN <- gets (fun sp => link_getYnorm X sp j (fabs q)) ;;
        yC <- gets (fun sp => link_getYcrit X sp j (fabs q)) ;;
        let ycMin := MIN yN yC in
        let ycMax := MAX yN yC in
        if y2 <? ycMin then ret (DN_CRITICAL, yC, yN, fasnh)
        else if y2 <? ycMax then
          let fasnh := if ycMax - ycMin <? FUDGE X then 0
                       else (ycMax - y2) / (ycMax - ycMin) in
          ret (flowClass, yC, yN, fasnh)
        else ret (flowClass, yC, yN, fasnh)
      else ret (flowClass, yC, yN, fasnh)
  else if (y1 <=? FUDGE X) && (y2 <=? FUDGE X) then ret (DRY, yC, yN, fasnh)
  else if y2 >? FUDGE X then
    if h2 <? TNode.invertElev nd1 + TLink.offset1 l then ret (UP_DRY, yC, yN, fasnh)
    else if z1 >? 0 then
      yN <- gets (fun sp => link_getYnorm X sp j (fabs q)) ;;
      yC <- gets (fun sp => link_getYcrit X sp j (fabs q)) ;;
      ret (UP_CRITICAL, yC, yN, fasnh)
    else ret (flowClass, yC, yN, fasnh)
  else
    if h1 <? TNode.invertElev nd2 + TLink.offset2 l then ret (DN_DRY, yC, yN, fasnh)
    else if z2 >? 0 then
      yN <- gets (fun sp => link_getYnorm X sp j (fabs q)) ;;
      yC <- gets (fun sp => link_getYcrit X sp j (fabs q)) ;;
      ret (DN_CRITICAL, yC, yN, fasnh)
    else ret (flowClass, yC, yN, fasnh).

(** The midpoint depth of [findSurfArea], floored at FUDGE. *)
Definition midDepth (flowDepth1 flowDepth2 : Q) : Q :=
  let flowDepthMid := (1 # 2) * (flowDepth1 + flowDepth2) in
  if flowDepthMid <? FUDGE X then FUDGE X else flowDepthMid.

(** [findSurfArea] (dwflow.c 398-525).  The in-out parameters [*h1 *h2 *y1
    *y2] are arguments and the result [(h1, h2, y1, y2)]. *)
Definition findSurfArea (j : nat) (q length h1 h2 y1 y2 : Q) : M (Q * Q * Q * Q) :=
  l <- getLink j ;;
  let xsect := TLink.xsect l in
  let n1 := TLink.node1 l in
  let n2 := TLink.node2 l in
  let flowDepth1 := y1 in
  let flowDepth2 := y2 in
  let normalDepth := (flowDepth1 + flowDepth2) / 2 in
  let criticalDepth := normalDepth in
  r <- getFlowClass j q h1 h2 y1 y2 criticalDepth normalDepth ;;
  let '(fc, criticalDepth, normalDepth, fasnh) := r in
  modLink j (TLink.set_flowClass fc) ;;;
  l <- getLink j ;;
  r <- match TLink.flowClass l with
       | SUBCRITICAL =>
           let flowDepthMid := midDepth flowDepth1 flowDepth2 in
           width1 <- getWidth xsect flowDepth1 ;;
           width2 <- getWidth xsect flowDepth2 ;;
           widthMid <- getWidth xsect flowDepthMid ;;
           let surfArea1 := (width1 + widthMid) * length / 4 in
           let surfArea2 := (widthMid + width2) * length / 4 * fasnh in
           ret (surfArea1, surfArea2, h1, h2, flowDepth1, flowDepth2)
       | UP_CRITICAL =>
           let flowDepth1 := criticalDepth in
           let flowDepth1 := if normalDepth <? criticalDepth then normalDepth else flowDepth1 in
           let flowDepth1 := MAX flowDepth1 (FUDGE X) in
           nd1 <- getNode n1 ;;
           let h1 := TNode.invertElev nd1 + TLink.offset1 l + flowDepth1 in
           let flowDepthMid := midDepth flowDepth1 flowDepth2 in
           width2 <- getWidth xsect flowDepth2 ;;
           widthMid <- getWidth xsect flowDepthMid ;;
           let surfArea2 := (widthMid + width2) * length * (1 # 2) in
           ret (0, surfArea2, h1, h2, flowDepth1, flowDepth2)
       | DN_CRITICAL =>
           let flowDepth2 := criticalDepth in
           let flowDepth2 := if normalDepth <? criticalDepth then normalDepth else flowDepth2 in
           let flowDepth2 := MAX flowDepth2 (FUDGE X) in
           nd2 <- getNode n2 ;;
           let h2 := TNode.invertElev nd2 + TLink.offset2 l + flowDepth2 in
           width1 <- getWidth xsect flowDepth1 ;;
           let flowDepthMid := midDepth flowDepth1 flowDepth2 in
           widthMid <- getWidth xsect flowDepthMid ;;
           let surfArea1 := (width1 + widthMid) * length * (1 # 2) in
           ret (surfArea1, 0, h1, h2, flowDepth1, flowDepth2)
       | UP_DRY =>
           let flowDepth1 := FUDGE X in
           let flowDepthMid := midDepth flowDepth1 flowDepth2 in
           width1 <- getWidth xsect flowDepth1 ;;
           width2 <- getWidth xsect flowDepth2 ;;
           widthMid <- getWidth xsect flowDepthMid ;;
           let surfArea2 := (widthMid + width2) * length / 4 in
           let surfArea1 := if TLink.offset1 l <=? 0
                            then (width1 + widthMid) * length / 4 else 0 in
           ret (surfArea1, surfArea2, h1, h2, flowDepth1, flowDepth2)
       | DN_DRY =>
           let flowDepth2 := FUDGE X in
           let flowDepthMid := midDepth flowDepth1 flowDepth2 in
           width1 <- getWidth xsect flowDepth1 ;;
           width2 <- getWidth xsect flowDepth2 ;;
           widthMid <- getWidth xsect flowDepthMid ;;
           let surfArea1 := (widthMid + width1) * length / 4 in
           let surfArea2 := if TLink.offset2 l <=? 0
                            then (width2 + widthMid) * length / 4 else 0 in
           ret (surfArea1, surfArea2, h1, h2, flowDepth1, flowDepth2)
       | DRY =>
           let surfArea1 := FUDGE X * length / 2 in
           let surfArea2 := surfArea1 in
           ret (surfArea1, surfArea2, h1, h2, flowDepth1, flowDepth2)
       | SUPCRITICAL =>
           ret (0, 0, h1, h2, flowDepth1, flowDepth2)
       end ;;
  let '(surfArea1, surfArea2, h1, h2, flowDepth1, flowDepth2) := r in
  modLink j (TLink.set_surfArea1 surfArea1) ;;;
  modLink j (TLink.set_surfArea2 surfArea2) ;;;
  ret (h1, h2, flowDepth1, flowDepth2).

(** [findLocalLosses] (dwflow.c 529-547). *)
Definition findLocalLosses (j : nat) (a1 a2 aMid q : Q) : M Q :=
  l <- getLink j ;;
  let losses := 0 in
  let q := fabs q in
  let losses := if a1 >? FUDGE X then losses + TLink.cLossInlet l * (q / a1) else losses in
  let losses := if a2 >? FUDGE X then losses + TLink.cLossOutlet l * (q / a2) else losses in
  let losses := if aMid >? FUDGE X then losses + TLink.cLossAvg l * (q / aMid) else losses in
  ret losses.

(** The two triggers of the normal-flow check as the specification words
    them: the water-surface slope trigger and the upstream Froude trigger
    ([f1] is the upstream Froude number). *)
Definition slopeTrigger (nfl : NormalFlowType) (hasOutfall : bool) (y1 y2 : Q) : bool :=
  (match nfl with SLOPE | BOTH => true | FROUDE => false end || hasOutfall)
  && (y1 <? y2).

Definition froudeTrigger (nfl : NormalFlowType) (hasOutfall : bool) (y1 y2 f1 : Q) : bool :=
  match nfl with FROUDE | BOTH => true | SLOPE => false end
  && negb hasOutfall && (y1 >? FUDGE X) && (y2 >? FUDGE X) && (f1 >=? 1).

(** [checkNormalFlow] (dwflow.c 599-648). *)
Definition checkNormalFlow (j : nat) (q y1 y2 a1 r1 : Q) : M Q :=
  l <- getLink j ;;
  let check := false in
  let k := TLink.subIndex l in
  let n1 := TLink.node1 l in
  let n2 := TLink.node2 l in
  nd1 <- getNode n1 ;;
  nd2 <- getNode n2 ;;
  let hasOutfall := isOutfall (TNode.type nd1) || isOutfall (TNode.type nd2) in
  nfl <- gets NormalFlowLtd ;;
  let check :=
    if match nfl with SLOPE | BOTH => true | FROUDE => false end || hasOutfall
    then (if y1 <? y2 then true else check)
    else check in
  check <- (if negb check
               && match nfl with FROUDE | BOTH => true | SLOPE => false end
               && negb hasOutfall
            then
              if (y1 >? FUDGE X) && (y2 >? FUDGE X) then
                f1 <- gets (fun sp => link_getFroude X sp j (q / a1) y1) ;;
                ret (if f1 >=? 1 then true else check)
              else ret check
            else ret check) ;;
  if check then
    c <- getConduit k ;;
    let qNorm := TConduit.beta c * a1 * pow X r1 (2 # 3) in
    if qNorm <? q then
      modLink j (TLink.set_normalFlow true) ;;;
      ret qNorm
    else ret q
  else ret q.

(** The local variables of [dwflow_findConduitFlow] that are live after its
    set-up part (dwflow.c 84-142). *)
Record Locals : Type := mkLocals {
  isClosed : bool;
  k : nat;
  barrels : Q;
  qOld : Q;
  qLast : Q;
  n1 : nat;
  n2 : nat;
  h1 : Q;
  h2 : Q;
  y1 : Q;
  y2 : Q;
  aOld : Q;
  length : Q;
  a1 : Q;
  a2 : Q;
  r1 : Q;
  yMid : Q;
  aMid : Q;
  rMid : Q;
  isFull : bool
}.

(** [dwflow_findConduitFlow], set-up (dwflow.c 84-142): heads, depths, the
    call of [findSurfArea], areas and hydraulic radii. *)
Definition conduitSetup (j : nat) : M Locals :=
  l <- getLink j ;;
  let xsect := TLink.xsect l in
  let isClosed := TLink.setting l =? 0 in
  let k := TLink.subIndex l in
  c <- getConduit k ;;
  let barrels := TConduit.barrels c in
  let qOld := TLink.oldFlow l / barrels in
  let qLast := TConduit.q1 c in
  let n1 := TLink.node1 l in
  let n2 := TLink.node2 l in
  nd1 <- getNode n1 ;;
  nd2 <- getNode n2 ;;
  let z1 := TNode.invertElev nd1 + TLink.offset1 l in
  let z2 := TNode.invertElev nd2 + TLink.offset2 l in
  let h1 := TNode.newDepth nd1 + TNode.invertElev nd1 in
  let h2 := TNode.newDepth nd2 + TNode.invertElev nd2 in
  let h1 := MAX h1 z1 in
  let h2 := MAX h2 z2 in
  let y1 := h1 - z1 in
  let y2 := h2 - z2 in
  let y1 := MAX y1 (FUDGE X) in
  let y2 := MAX y2 (FUDGE X) in
  let y1 := MIN y1 (TXsect.yFull xsect) in
  let y2 := MIN y2 (TXsect.yFull xsect) in
  let aOld := TConduit.a2 c in
  let aOld := MAX aOld (FUDGE X) in
  let length := TConduit.modLength c in
  r <- findSurfArea j qLast length h1 h2 y1 y2 ;;
  let '(h1, h2, y1, y2) := r in
  a1 <- getArea xsect y1 ;;
  a2 <- getArea xsect y2 ;;
  r1 <- getHydRad xsect y1 ;;
  let yMid := (1 # 2) * (y1 + y2) in
  aMid <- getArea xsect yMid ;;
  rMid <- getHydRad xsect yMid ;;
  let isFull := (y1 >=? TXsect.yFull xsect) && (y2 >=? TXsect.yFull xsect) in
  ret (mkLocals isClosed k barrels qOld qLast n1 n2 h1 h2 y1 y2 aOld length
                a1 a2 r1 yMid aMid rMid isFull).

(** The test of dwflow.c 145-149 on the link's flow class. *)
Definition isDryClass (fc : FlowClass) : bool :=
  match fc with DRY | UP_DRY | DN_DRY => true | _ => false end.

(** [dwflow_findConduitFlow], the zero-flow exit (dwflow.c 151-159). *)
Definition zeroFlow (j : nat) (dt : Q) (v : Locals) : M unit :=
  modConduit (k v) (TConduit.set_a1 ((1 # 2) * (a1 v + a2 v))) ;;;
  modConduit (k v) (TConduit.set_q1 0) ;;;
  modConduit (k v) (TConduit.set_q2 0) ;;;
  modLink j (TLink.set_dqdh (GRAVITY X * dt * aMid v / length v * barrels v)) ;;;
  modLink j (TLink.set_froude 0) ;;;
  l <- getLink j ;;
  modLink j (TLink.set_newDepth (MIN (yMid v) (TXsect.yFull (TLink.xsect l)))) ;;;
  c <- getConduit (k v) ;;
  len <- gets (fun sp => link_getLength X sp j) ;;
  modLink j (TLink.set_newVolume (TConduit.a1 c * len * barrels v)) ;;;
  modLink j (TLink.set_newFlow 0).

(** The call [culvert_getInflow(sp, j, q, h1)] (dwflow.c 232), which also
    raises the link's [inletControl] flag when the inlet cap applies. *)
Definition call_culvert_getInflow (j : nat) (q h1 : Q) : M Q :=
  r <- gets (fun sp => culvert_getInflow X sp j q h1) ;;
  (if snd r then modLink j (TLink.set_inletControl true) else ret tt) ;;;
  ret (fst r).

(** The test [x * y < 0.0] of dwflow.c 247.  The product of the two doubles
    is rounded to binary64 (to nearest, ties to even) before it is compared
    with 0.0: a product of magnitude at most 2^-1075, half the smallest
    positive double, is rounded to a zero, for which the test fails. *)
Definition HALF_MIN_SUBNORMAL : Q := 1 # (2 ^ 1075).

Definition productIsNegative (x y : Q) : bool := x * y <? - HALF_MIN_SUBNORMAL.

(** Under-relaxation (dwflow.c 244-248). *)
Definition underRelax (steps : Z) (omega qLast q : Q) : Q :=
  if (steps >? 0)%Z then
    let q := (1 - omega) * qLast + omega * q in
    if productIsNegative q qLast then (1 # 1000) * SGN q else q
  else q.

(** User-supplied flow limit (dwflow.c 251-254). *)
Definition userFlowLimit (qLimit q : Q) : Q :=
  if qLimit >? 0 then
    if fabs q >? qLimit then SGN q * qLimit else q
  else q.

(** No flow out of a dry node (dwflow.c 261-262). *)
Definition dryNodeChoke (depth1 depth2 q : Q) : Q :=
  let q := if (q >? FUDGE X) && (depth1 <=? FUDGE X) then FUDGE X else q in
  let q := if (q <? - FUDGE X) && (depth2 <=? FUDGE X) then - FUDGE X else q in
  q.

(** [dwflow_findConduitFlow], the momentum equation (dwflow.c 162-225):
    the Froude number, the terms dq1 to dq6, the new flow [q] that the
    equation gives, and the derivative [dqdh]. *)
Definition momentumEquation (j : nat) (dt : Q) (v : Locals) : M Q :=
  let vel := qLast v / aMid v in
  let vel := if fabs vel >? MAXVELOCITY then MAXVELOCITY * SGN (qLast v) else vel in
  fr <- gets (fun sp => link_getFroude X sp j vel (yMid v)) ;;
  modLink j (TLink.set_froude fr) ;;;
  l <- getLink j ;;
  (if FlowClass_eqb (TLink.flowClass l) SUBCRITICAL && (TLink.froude l >? 1)
   then modLink j (TLink.set_flowClass SUPCRITICAL) else ret tt) ;;;
  l <- getLink j ;;
  let xsect := TLink.xsect l in
  let sigma := if TLink.froude l <=? 1 # 2 then 1
               else if TLink.froude l >=? 1 then 0
               else 2 * (1 - TLink.froude l) in
  let rho := if negb (isFull v) && (qLast v >? 0) && (h1 v >=? h2 v) then sigma else 1 in
  let aWtd := a1 v + (aMid v - a1 v) * rho in
  let rWtd := r1 v + (rMid v - r1 v) * rho in
  damping <- gets InertDamping ;;
  let sigma := match damping with
               | NO_DAMPING => 1
               | FULL_DAMPING => 0
               | PARTIAL_DAMPING => sigma
               end in
  let sigma := if isFull v && negb (xsect_isOpen X (TXsect.type xsect)) then 0 else sigma in
  dq1 <- (if (TXsect.type xsect =? FORCE_MAIN X)%Z && isFull v
          then fs <- gets (fun sp => forcemain_getFricSlope X sp j (fabs vel) (rMid v)) ;;
               ret (dt * fs)
          else c <- getConduit (k v) ;;
               ret (dt * TConduit.roughFactor c / pow X rWtd (133333 # 100000) * fabs vel)) ;;
  let dq2 := dt * GRAVITY X * aWtd * (h2 v - h1 v) / length v in
  let dq3 := if sigma >? 0 then 2 * vel * (aMid v - aOld v) * sigma else 0 in
  let dq4 := if sigma >? 0 then dt * vel * vel * (a2 v - a1 v) / length v * sigma else 0 in
  c <- getConduit (k v) ;;
  dq5 <- (if TConduit.hasLosses c
          then ll <- findLocalLosses j (a1 v) (a2 v) (aMid v) (qLast v) ;;
               ret (ll / 2 / length v * dt)
          else ret 0) ;;
  lossRate <- gets (fun sp => link_getLossRate X sp j (qOld v) dt) ;;
  len <- gets (fun sp => link_getLength X sp j) ;;
  let dq6 := lossRate * (5 # 2) * dt * vel / len in
  let denom := 1 + dq1 + dq5 in
  let q := (qOld v - dq2 + dq3 + dq4 - dq6) / denom in
  modLink j (TLink.set_dqdh (1 / denom * GRAVITY X * dt * aWtd / length v * barrels v)) ;;;
  ret q.

(** [dwflow_findConduitFlow], the flow limitations (dwflow.c 227-240):
    the inlet control of a culvert, or else the normal-flow check. *)
Definition flowLimitation (j : nat) (v : Locals) (q : Q) : M Q :=
  modLink j (TLink.set_inletControl false) ;;;
  modLink j (TLink.set_normalFlow false) ;;;
  if q >? 0 then
    l <- getLink j ;;
    if (TXsect.culvertCode (TLink.xsect l) >? 0)%Z && negb (isFull v)
    then call_culvert_getInflow j q (h1 v)
    else
      if (y1 v <? TXsect.yFull (TLink.xsect l))
         && (FlowClass_eqb (TLink.flowClass l) SUBCRITICAL
             || FlowClass_eqb (TLink.flowClass l) SUPCRITICAL)
      then checkNormalFlow j q (y1 v) (y2 v) (a1 v) (r1 v)
      else ret q
  else ret q.

(** [dwflow_findConduitFlow], from the under-relaxation to the end (dwflow.c
    242-273): the flow is relaxed, limited, cut by a closed flap gate and by
    a dry node, and the results are saved. *)
Definition relaxAndSave (j : nat) (steps : Z) (omega : Q) (v : Locals) (q : Q) : M unit :=
  let q := underRelax steps omega (qLast v) q in
  l <- getLink j ;;
  let xsect := TLink.xsect l in
  let q := userFlowLimit (TLink.qLimit l) q in
  closed <- gets (fun sp => link_setFlapGate X sp j (n1 v) (n2 v) q) ;;
  let q := if closed then 0 else q in
  nd1 <- getNode (n1 v) ;;
  nd2 <- getNode (n2 v) ;;
  let q := dryNodeChoke (TNode.newDepth nd1) (TNode.newDepth nd2) q in
  modConduit (k v) (TConduit.set_a1 (aMid v)) ;;;
  modConduit (k v) (TConduit.set_q1 q) ;;;
  modConduit (k v) (TConduit.set_q2 q) ;;;
  modLink j (TLink.set_newDepth (MIN (yMid v) (TXsect.yFull xsect))) ;;;
  let aMid' := (a1 v + a2 v) / 2 in
  let aMid' := MIN aMid' (TXsect.aFull xsect) in
  modConduit (k v) (TConduit.set_fullState
                      (link_getFullState X (a1 v) (a2 v) (TXsect.aFull xsect))) ;;;
  len <- gets (fun sp => link_getLength X sp j) ;;
  modLink j (TLink.set_newVolume (aMid' * len * barrels v)) ;;;
  modLink j (TLink.set_newFlow (q * barrels v)).

(** [dwflow_findConduitFlow], the momentum step (dwflow.c 162-273). *)
Definition momentumFlow (j : nat) (steps : Z) (omega dt : Q) (v : Locals) : M unit :=
  q <- momentumEquation j dt v ;;
  q <- flowLimitation j v q ;;
  relaxAndSave j steps omega v q.

(** [dwflow_findConduitFlow] (dwflow.c 46-274). *)
Definition dwflow_findConduitFlow (j : nat) (steps : Z) (omega dt : Q) : M unit :=
  v <- conduitSetup j ;;
  l <- getLink j ;;
  if isDryClass (TLink.flowClass l) || isClosed v || (aMid v <=? FUDGE X)
  then zeroFlow j dt v
  else momentumFlow j steps omega dt v.

End Solver.

(** ** Vocabulary of the properties *)

(** A computation that only reads: whenever it returns, the project is the
    one it started from. *)
Definition readonly {A : Type} (m : M A) : Prop :=
  forall sp a sp', m sp = Some (a, sp') -> sp' = sp.

(** [b] lies between 0 and [a]: a flow limited without a change of sign. *)
Definition shrinks (b a : Q) : Prop := (0 <= b /\ b <= a) \/ (a <= b /\ b <= 0).

(** The inputs of a call for one link: the project with the roughness
    factor of every conduit and the outputs [dqdh], [inletControl] and
    [normalFlow] of every link blanked out. *)
Definition maskLink (l : TLink.t) : TLink.t :=
  TLink.set_dqdh 0 (TLink.set_inletControl false (TLink.set_normalFlow false l)).

Definition maskConduit (c : TConduit.t) : TConduit.t := TConduit.set_roughFactor 0 c.

Definition maskProject (sp : SWMM_Project) : SWMM_Project :=
  mkProject (map maskLink (Link sp)) (Node sp) (map maskConduit (Conduit sp))
            (InertDamping sp) (NormalFlowLtd sp).


(** The helpers read the inputs of a call only: called with the same
    arguments, they give the same result in two projects that differ in the
    roughness factors and in the link outputs blanked by [maskProject]. *)
Definition helpersReadInputs (X : Externs) : Prop :=
  (forall s s' j, maskProject s = maskProject s' ->
      link_getLength X s j = link_getLength X s' j)
  /\ (forall s s' j v y, maskProject s = maskProject s' ->
      link_getFroude X s j v y = link_getFroude X s' j v y)
  /\ (forall s s' j q, maskProject s = maskProject s' ->
      link_getYnorm X s j q = link_getYnorm X s' j q)
  /\ (forall s s' j q, maskProject s = maskProject s' ->
      link_getYcrit X s j q = link_getYcrit X s' j q)
  /\ (forall s s' j q dt, maskProject s = maskProject s' ->
      link_getLossRate X s j q dt = link_getLossRate X s' j q dt)
  /\ (forall s s' j n1 n2 q, maskProject s = maskProject s' ->
      link_setFlapGate X s j n1 n2 q = link_setFlapGate X s' j n1 n2 q)
  /\ (forall s s' j q h, maskProject s = maskProject s' ->
      fst (culvert_getInflow X s j q h) = fst (culvert_getInflow X s' j q h))
  /\ (forall s s' xs y, maskProject s = maskProject s' ->
      xsect_getAofY X s xs y = xsect_getAofY X s' xs y)
  /\ (forall s s' xs y, maskProject s = maskProject s' ->
      xsect_getWofY X s xs y = xsect_getWofY X s' xs y)
  /\ (forall s s' xs y, maskProject s = maskProject s' ->
      xsect_getRofY X s xs y = xsect_getRofY X s' xs y).

(** The flap gate looks at the direction of the flow, not at its size. *)
Definition flapGateByDirection (X : Externs) : Prop :=
  forall s j n1 n2 q q',
    (0 < q /\ 0 < q') \/ (q < 0 /\ q' < 0) ->
    link_setFlapGate X s j n1 n2 q = link_setFlapGate X s j n1 n2 q'.

(** The inlet control of a culvert caps the flow it is offered: the inflow
    is not negative and does not decrease with the flow offered. *)
Definition culvertInflowMonotone (X : Externs) : Prop :=
  forall s j h q q',
    0 < q' -> q' <= q ->
    0 <= fst (culvert_getInflow X s j q' h)
    /\ fst (culvert_getInflow X s j q' h) <= fst (culvert_getInflow X s j q h).

(** Two calls side by side: whenever [m] started in [s] and [m'] started in
    [s'] both return, from starting states related by [Pre], their results
    and final states are related by [Post]. *)
Definition rel {A B : Type} (Pre : SWMM_Project -> SWMM_Project -> Prop)
  (m : M A) (m' : M B) (Post : A -> SWMM_Project -> B -> SWMM_Project -> Prop) : Prop :=
  forall s s' a t b t',
    Pre s s' -> m s = Some (a, t) -> m' s' = Some (b, t') -> Post a t b t'.

Definition lossesNonneg (l : TLink.t) : Prop :=
  0 <= TLink.cLossInlet l /\ 0 <= TLink.cLossOutlet l /\ 0 <= TLink.cLossAvg l.

(** The inputs of a link: the record with its outputs set to fixed values. *)
Definition blankOutputs (l : TLink.t) : TLink.t :=
  TLink.set_flowClass SUBCRITICAL
    (TLink.set_froude 0
       (TLink.set_newDepth 0
          (TLink.set_newVolume 0
             (TLink.set_newFlow 0
                (TLink.set_dqdh 0
                   (TLink.set_surfArea1 0
                      (TLink.set_surfArea2 0
                         (TLink.set_inletControl false
                            (TLink.set_normalFlow false l))))))))).

(** The second project is the first one with a larger (non-negative)
    roughness factor in the conduit of link [j]: same inputs otherwise, and
    link [j] has the inputs of the record [l0]. *)
Definition rougher (j : nat) (l0 : TLink.t) (s s' : SWMM_Project) : Prop :=
  maskProject s = maskProject s'
  /\ (forall l, nth_error (Link s) j = Some l -> blankOutputs l = blankOutputs l0)
  /\ (forall c c', nth_error (Conduit s) (TLink.subIndex l0) = Some c ->
                  nth_error (Conduit s') (TLink.subIndex l0) = Some c' ->
      0 <= TConduit.roughFactor c /\ TConduit.roughFactor c <= TConduit.roughFactor c').

(** [rel] between such projects, with results related by [R]. *)
Definition relI {A B : Type} (j : nat) (l0 : TLink.t) (R : A -> B -> Prop)
  (m : M A) (m' : M B) : Prop :=
  rel (rougher j l0) m m' (fun a t b t' => R a b /\ rougher j l0 t t').

(** The flow stored in link [j] by the second call is not larger in
    magnitude than the one stored by the first. *)
Definition flowNotLarger (j : nat) (t t' : SWMM_Project) : Prop :=
  forall la lb, nth_error (Link t) j = Some la -> nth_error (Link t') j = Some lb ->
                Qabs (TLink.newFlow lb) <= Qabs (TLink.newFlow la).
End Dwflow.

(** * mathexpr.c: symbolic expressions

    The parser turns a formula into a binary tree and the tree into a
    postfix program; the evaluator runs a program on a stack of doubles.
    Here a C [double] is a binary64 float of the kernel, so that NaN and the
    signed zeros behave as in the code.  The functions of <math.h> and
    <stdlib.h> that are not IEEE operations are the fields of [Libm]. *)

Module Mathexpr.

Local Open Scope Z_scope.

Definition MAX_STACK_SIZE : nat := 1024.

Record Libm := mkLibm {
  cos : float -> float;
  sin : float -> float;
  tan : float -> float;
  log : float -> float;
  exp : float -> float;
  asin : float -> float;
  acos : float -> float;
  atan : float -> float;
  log10 : float -> float;
  atof : string -> float
}.

(** A node of the postfix program ([MathExpr] without its links: a program
    is the list of its nodes from the head, and the null program is [[]]). *)
Record MathExpr := mkExpr {
  opcode : Z;
  ivar : Z;
  fvalue : float
}.

(** [struct TreeNode]; [NULL] is the null pointer. *)
Inductive ExprTree : Type :=
| NULL : ExprTree
| TreeNode (op : Z) (iv : Z) (fv : float) (left' right' : ExprTree) : ExprTree.

(** The parser's shared state, [sp->MathexprShared]: the fields that
    mathexpr.c reads and writes. *)
Record TMathexprShared := mkShared {
  Err : Z;
  Bc : Z;
  PrevLex : Z;
  CurLex : Z;
  Len : Z;
  Pos : Z;
  S : string;
  Token : string;
  Ivar : Z;
  Fvalue : float
}.

Definition set_Err (v : Z) (m : TMathexprShared) : TMathexprShared :=
  mkShared v (Bc m) (PrevLex m) (CurLex m) (Len m) (Pos m) (S m) (Token m) (Ivar m) (Fvalue m).
Definition set_Bc (v : Z) (m : TMathexprShared) : TMathexprShared :=
  mkShared (Err m) v (PrevLex m) (CurLex m) (Len m) (Pos m) (S m) (Token m) (Ivar m) (Fvalue m).
Definition set_PrevLex (v : Z) (m : TMathexprShared) : TMathexprShared :=
  mkShared (Err m) (Bc m) v (CurLex m) (Len m) (Pos m) (S m) (Token m) (Ivar m) (Fvalue m).
Definition set_CurLex (v : Z) (m : TMathexprShared) : TMathexprShared :=
  mkShared (Err m) (Bc m) (PrevLex m) v (Len m) (Pos m) (S m) (Token m) (Ivar m) (Fvalue m).
Definition set_Pos (v : Z) (m : TMathexprShared) : TMathexprShared :=
  mkShared (Err m) (Bc m) (PrevLex m) (CurLex m) (Len m) v (S m) (Token m) (Ivar m) (Fvalue m).
Definition set_Token (v : string) (m : TMathexprShared) : TMathexprShared :=
  mkShared (Err m) (Bc m) (PrevLex m) (CurLex m) (Len m) (Pos m) (S m) v (Ivar m) (Fvalue m).
Definition set_Ivar (v : Z) (m : TMathexprShared) : TMathexprShared :=
  mkShared (Err m) (Bc m) (PrevLex m) (CurLex m) (Len m) (Pos m) (S m) (Token m) v (Fvalue m).
Definition set_Fvalue (v : float) (m : TMathexprShared) : TMathexprShared :=
  mkShared (Err m) (Bc m) (PrevLex m) (CurLex m) (Len m) (Pos m) (S m) (Token m) (Ivar m) v.

(** ** Characters and names *)

(** [s[i]]: the character at [i], and the terminating NUL at the end of the
    string (the parser reads no further). *)
Definition charAt (s : string) (i : Z) : ascii :=
  if i <? 0 then Ascii.zero
  else match String.get (Z.to_nat i) s with
       | Some c => c
       | None => Ascii.zero
       end.

Definition code (c : ascii) : Z := Z.of_nat (nat_of_ascii c).

Definition isDigit (c : ascii) : bool :=
  if (code "1" <=? code c) && (code c <=? code "9") then true
  else if code c =? code "0" then true
  else false.

Definition isLetter (c : ascii) : bool :=
  if (code "a" <=? code c) && (code c <=? code "z") then true
  else if (code "A" <=? code c) && (code c <=? code "Z") then true
  else if code c =? code "_" then true
  else false.

Definition toupper (c : ascii) : ascii :=
  if (code "a" <=? code c) && (code c <=? code "z")
  then ascii_of_nat (nat_of_ascii c - 32)
  else c.

(** [sametext]: the loop compares the characters at [i] and returns 1 when
    both strings end after them.  Two empty strings make the loop read past
    the terminators; the result there is taken as 0. *)
Fixpoint sametext (s1 s2 : string) : bool :=
  match s1, s2 with
  | String c1 t1, String c2 t2 =>
      if code (toupper c1) =? code (toupper c2) then
        match t1, t2 with
        | EmptyString, EmptyString => true
        | _, _ => sametext t1 t2
        end
      else false
  | _, _ => false
  end.

Definition MathFunc : list string :=
  ["COS"; "SIN"; "TAN"; "COT"; "ABS"; "SGN"; "SQRT"; "LOG"; "EXP"; "ASIN"; "ACOS"; "ATAN";
   "ACOT"; "SINH"; "COSH"; "TANH"; "COTH"; "LOG10"; "STEP"]%string.

(** ** The lexer *)

(** [getToken]; the loop runs at most [Len - Pos + 1] times, since it stops
    when [Pos] passes [Len]. *)
Fixpoint getToken_loop (n : nat) (m : TMathexprShared) : TMathexprShared :=
  match n with
  | O => m
  | Datatypes.S n' =>
      if (Pos m <=? Len m)
         && (isLetter (charAt (S m) (Pos m)) || isDigit (charAt (S m) (Pos m)))
      then getToken_loop n'
             (set_Pos (Pos m + 1)
                (set_Token (Token m ++ String (charAt (S m) (Pos m)) EmptyString) m))
      else m
  end.

Definition getToken (m : TMathexprShared) : TMathexprShared :=
  let m := set_Token EmptyString m in
  let m := getToken_loop (Z.to_nat (Len m - Pos m + 1)) m in
  set_Pos (Pos m - 1) m.

(** [getMathFunc]: the search through [MathFunc] from entry [i]. *)
Fixpoint getMathFunc_from (names : list string) (i : Z) (token : string) : Z :=
  match names with
  | [] => 0
  | name :: rest => if sametext name token then i + 10 else getMathFunc_from rest (i + 1) token
  end.

Definition getMathFunc (m : TMathexprShared) : Z := getMathFunc_from MathFunc 0 (Token m).

(** [getVariable], with the callback [getVariableIndex] (which may be null). *)
Definition getVariable (getVariableIndex : option (string -> Z)) (m : TMathexprShared)
  : Z * TMathexprShared :=
  match getVariableIndex with
  | None => (0, m)
  | Some f =>
      let m := set_Ivar (f (Token m)) m in
      if Ivar m >=? 0 then (8, m) else (0, m)
  end.

(** The loops of [getNumber] that copy digits: at most [Len - Pos] rounds. *)
Fixpoint digits_loop (n : nat) (sNumber : string) (m : TMathexprShared)
  : string * TMathexprShared :=
  match n with
  | O => (sNumber, m)
  | Datatypes.S n' =>
      if (Pos m <? Len m) && isDigit (charAt (S m) (Pos m))
      then digits_loop n' (sNumber ++ String (charAt (S m) (Pos m)) EmptyString)
             (set_Pos (Pos m + 1) m)
      else (sNumber, m)
  end.

Definition digits (sNumber : string) (m : TMathexprShared) : string * TMathexprShared :=
  digits_loop (Z.to_nat (Len m - Pos m)) sNumber m.

(** [getNumber]: the text of the number, the local [errflag], and the state. *)
Definition getNumber_scan (m : TMathexprShared) : string * bool * TMathexprShared :=
  let '(sNumber, m) := digits EmptyString m in
  let '(sNumber, errflag, m) :=
    if Pos m <? Len m then
      let '(sNumber, m) :=
        if code (charAt (S m) (Pos m)) =? code "."
        then digits (sNumber ++ ".") (set_Pos (Pos m + 1) m)
        else (sNumber, m) in
      if (Pos m <? Len m)
         && ((code (charAt (S m) (Pos m)) =? code "e")
             || (code (charAt (S m) (Pos m)) =? code "E"))
      then
        let sNumber := (sNumber ++ "E")%string in
        let m := set_Pos (Pos m + 1) m in
        if Pos m >=? Len m then (sNumber, true, m)
        else
          let '(sNumber, m) :=
            if (code (charAt (S m) (Pos m)) =? code "-")
               || (code (charAt (S m) (Pos m)) =? code "+")
            then ((sNumber ++ String (charAt (S m) (Pos m)) EmptyString)%string,
                  set_Pos (Pos m + 1) m)
            else (sNumber, m) in
          if (Pos m >=? Len m) || negb (isDigit (charAt (S m) (Pos m)))
          then (sNumber, true, m)
          else let '(sNumber, m) := digits sNumber m in (sNumber, false, m)
      else (sNumber, false, m)
    else (sNumber, false, m) in
  (sNumber, errflag, set_Pos (Pos m - 1) m).

Definition getNumber (L : Libm) (m : TMathexprShared) : float * TMathexprShared :=
  let '(sNumber, errflag, m) := getNumber_scan m in
  if errflag then (0%float, m) else (atof L sNumber, m).

Definition getOperand (L : Libm) (m : TMathexprShared) : Z * TMathexprShared :=
  let c := code (charAt (S m) (Pos m)) in
  if c =? code "(" then (1, m)
  else if c =? code ")" then (2, m)
  else if c =? code "+" then (3, m)
  else if c =? code "-" then
    if (Pos m <? Len m - 1) && isDigit (charAt (S m) (Pos m + 1))
       && ((CurLex m =? 0) || (CurLex m =? 1))
    then
      let m := set_Pos (Pos m + 1) m in
      let '(x, m) := getNumber L m in
      (7, set_Fvalue (- x)%float m)
    else (4, m)
  else if c =? code "*" then (5, m)
  else if c =? code "/" then (6, m)
  else if c =? code "^" then (31, m)
  else (0, m).

Fixpoint skipSpaces (n : nat) (m : TMathexprShared) : TMathexprShared :=
  match n with
  | O => m
  | Datatypes.S n' =>
      if (Pos m <? Len m) && (code (charAt (S m) (Pos m)) =? code " ")
      then skipSpaces n' (set_Pos (Pos m + 1) m)
      else m
  end.

Definition getLex (L : Libm) (getVariableIndex : option (string -> Z)) (m : TMathexprShared)
  : Z * TMathexprShared :=
  let m := skipSpaces (Z.to_nat (Len m - Pos m)) m in
  if Pos m >=? Len m then (0, m)
  else
    let '(n, m) := getOperand L m in
    let '(n, m) :=
      if n =? 0 then
        if isLetter (charAt (S m) (Pos m)) then
          let m := getToken m in
          let n := getMathFunc m in
          if n =? 0 then getVariable getVariableIndex m else (n, m)
        else if isDigit (charAt (S m) (Pos m)) then
          let '(x, m) := getNumber L m in
          (7, set_Fvalue x m)
        else (n, m)
      else (n, m) in
    let m := set_Pos (Pos m + 1) m in
    let m := set_PrevLex (CurLex m) m in
    let m := set_CurLex n m in
    (n, m).

(** ** The parser

    The parser's functions call each other and loop on the lexemes; they
    are given a bound [fuel] on the depth of the calls and the rounds of a
    loop, and return [None] when it does not suffice.  [malloc] is taken to
    succeed, so [newNode] never sets [Err] to 2. *)

Definition P (A : Type) : Type := TMathexprShared -> option (A * TMathexprShared).

Definition ret {A : Type} (a : A) : P A := fun m => Some (a, m).

Definition bind {A B : Type} (x : P A) (f : A -> P B) : P B :=
  fun m => match x m with
           | Some (a, m') => f a m'
           | None => None
           end.

Definition outOfFuel {A : Type} : P A := fun _ => None.

Definition step {A : Type} (f : TMathexprShared -> A * TMathexprShared) : P A :=
  fun m => Some (f m).

Definition get : P TMathexprShared := fun m => Some (m, m).

Definition modify (f : TMathexprShared -> TMathexprShared) : P unit :=
  fun m => Some (tt, f m).

Local Notation "x <- m ;; k" := (bind m (fun x => k))
  (at level 61, m at next level, right associativity).
Local Notation "m ;;; k" := (bind m (fun _ => k))
  (at level 61, right associativity).

Section Parser.

Variable L : Libm.
Variable getVariableIndex : option (string -> Z).

(** The recursive call [getTree(sp)]. *)
Variable getTree_rec : P ExprTree.

(** [getSingleOp], the loop on exponentiation ([while ( *lex == 31 )]).
    A node is written with the fields it has after the assignments that
    follow [newNode]: opcode 0, ivar -1, fvalue 0 and no children unless
    assigned. *)
Fixpoint getSingleOp_loop (fuel : nat) (left' : ExprTree) (lex : Z) : P (ExprTree * Z) :=
  if negb (lex =? 31) then ret (left', lex)
  else
    match fuel with
    | O => outOfFuel
    | Datatypes.S fuel' =>
        lex <- step (getLex L getVariableIndex) ;;
        r <- (if lex =? 1
              then lex <- step (getLex L getVariableIndex) ;; ret (true, lex)
              else ret (false, lex)) ;;
        let '(bracket, lex) := r in
        if negb (lex =? 7) then modify (set_Err 1) ;;; ret (NULL, lex)
        else
          m <- get ;;
          let right' := TreeNode lex (-1) (Fvalue m) NULL NULL in
          let node := TreeNode 31 (-1) 0%float left' right' in
          if bracket : bool then
            lex <- step (getLex L getVariableIndex) ;;
            if negb (lex =? 2) then modify (set_Err 1) ;;; ret (NULL, lex)
            else lex <- step (getLex L getVariableIndex) ;;
                 getSingleOp_loop fuel' node lex
          else lex <- step (getLex L getVariableIndex) ;;
               getSingleOp_loop fuel' node lex
    end.

(** [getSingleOp(sp, &lex)]: the tree and the final value of [lex]. *)
Definition getSingleOp (fuel : nat) (lex : Z) : P (ExprTree * Z) :=
  r <- (if lex =? 1 then
          m <- get ;;
          modify (set_Bc (Bc m + 1)) ;;;
          left' <- getTree_rec ;;
          ret (Some left', lex)
        else if (lex <? 7) || (lex =? 9) || (lex >? 30) then
          modify (set_Err 1) ;;; ret (None, lex)
        else
          let opcode := lex in
          if (lex =? 7) || (lex =? 8) then
            m <- get ;;
            ret (Some (TreeNode opcode
                         (if lex =? 8 then Ivar m else -1)
                         (if lex =? 7 then Fvalue m else 0%float)
                         NULL NULL), lex)
          else
            lex <- step (getLex L getVariableIndex) ;;
            if negb (lex =? 1) then modify (set_Err 1) ;;; ret (None, lex)
            else
              m <- get ;;
              modify (set_Bc (Bc m + 1)) ;;;
              sub <- getTree_rec ;;
              ret (Some (TreeNode opcode (-1) 0%float sub NULL), lex)) ;;
  match r with
  | (None, lex) => ret (NULL, lex)
  | (Some left', _) =>
      lex <- step (getLex L getVariableIndex) ;;
      getSingleOp_loop fuel left' lex
  end.

(** [getOp], the loop on products ([while ( *lex == 5 || *lex == 6 )]);
    [None] for the tree stands for the [return NULL] inside the loop. *)
Fixpoint getOp_loop (fuel : nat) (left' : ExprTree) (lex : Z) : P (option ExprTree * Z) :=
  if (lex =? 5) || (lex =? 6) then
    match fuel with
    | O => outOfFuel
    | Datatypes.S fuel' =>
        let opcode := lex in
        lex <- step (getLex L getVariableIndex) ;;
        r <- getSingleOp fuel' lex ;;
        let '(right', lex) := r in
        m <- get ;;
        if negb (Err m =? 0) then ret (None, lex)
        else getOp_loop fuel' (TreeNode opcode (-1) 0%float left' right') lex
    end
  else ret (Some left', lex).

(** [getOp(sp, &lex)]. *)
Definition getOp (fuel : nat) : P (ExprTree * Z) :=
  lex <- step (getLex L getVariableIndex) ;;
  m <- get ;;
  r <- (if (PrevLex m =? 0) || (PrevLex m =? 1) then
          if lex =? 4 then lex <- step (getLex L getVariableIndex) ;; ret (true, lex)
          else if lex =? 3 then lex <- step (getLex L getVariableIndex) ;; ret (false, lex)
          else ret (false, lex)
        else ret (false, lex)) ;;
  let '(neg, lex) := r in
  r <- getSingleOp fuel lex ;;
  let '(left', lex) := r in
  r <- getOp_loop fuel left' lex ;;
  match r with
  | (None, lex) => ret (NULL, lex)
  | (Some left', lex) =>
      if neg : bool then
        m <- get ;;
        if negb (Err m =? 0) then ret (NULL, lex)
        else ret (TreeNode 9 (-1) 0%float left' NULL, lex)
      else ret (left', lex)
  end.

(** [getTree], the loop on sums ([for (;;)]). *)
Fixpoint getTree_loop (fuel : nat) (left' : ExprTree) (lex : Z) : P ExprTree :=
  if (lex =? 0) || (lex =? 2) then
    (if lex =? 2 then m <- get ;; modify (set_Bc (Bc m - 1)) else ret tt) ;;;
    ret left'
  else if negb (lex =? 3) && negb (lex =? 4) then
    modify (set_Err 1) ;;; ret left'
  else
    match fuel with
    | O => outOfFuel
    | Datatypes.S fuel' =>
        let opcode := lex in
        r <- getOp fuel' ;;
        let '(right', lex) := r in
        m <- get ;;
        if negb (Err m =? 0) then ret left'
        else getTree_loop fuel' (TreeNode opcode (-1) 0%float left' right') lex
    end.

Definition getTree_body (fuel : nat) : P ExprTree :=
  r <- getOp fuel ;;
  let '(left', lex) := r in
  getTree_loop fuel left' lex.

End Parser.

(** [getTree(sp)]. *)
Fixpoint getTree (L : Libm) (getVariableIndex : option (string -> Z)) (fuel : nat)
  : P ExprTree :=
  match fuel with
  | O => outOfFuel
  | Datatypes.S fuel' =>
      getTree_body L getVariableIndex (getTree L getVariableIndex fuel') fuel'
  end.

(** [traverseTree]: the postfix list, left subtree, right subtree, node. *)
Fixpoint traverseTree (tree : ExprTree) : list MathExpr :=
  match tree with
  | NULL => []
  | TreeNode op iv fv left' right' =>
      traverseTree left' ++ traverseTree right' ++ [mkExpr op iv fv]
  end.

(** [mathexpr_create] with a bound on the parser's calls and loops: the
    program, or [[]] for the null pointer that reports a build error. *)
Definition mathexpr_create_within (fuel : nat) (L : Libm) (formula : string)
  (getVar : option (string -> Z)) : option (list MathExpr) :=
  let m := mkShared 0 0 0 0 (Z.of_nat (String.length formula)) 0 formula EmptyString 0
                    0%float in
  match getTree L getVar fuel m with
  | Some (tree, m) =>
      if (Bc m =? 0) && (Err m =? 0) then Some (traverseTree tree) else Some []
  | None => None
  end.

(** [mathexpr_create], with the bound taken from the length of the formula. *)
Definition mathexpr_create (L : Libm) (formula : string) (getVar : option (string -> Z))
  : option (list MathExpr) :=
  mathexpr_create_within (String.length formula + 2) L formula getVar.

(** ** The evaluator *)

(** The array [ExprStack] and the index [stackindex].  A read or a write
    outside the array has no defined result: [None]. *)
Definition Stack : Type := list float * Z.

Fixpoint setCell (n : nat) (x : float) (a : list float) : list float :=
  match a, n with
  | [], _ => []
  | _ :: t, O => x :: t
  | h :: t, Datatypes.S n' => h :: setCell n' x t
  end.

Definition load (a : list float) (i : Z) : option float :=
  if i <? 0 then None else nth_error a (Z.to_nat i).

Definition store (a : list float) (i : Z) (x : float) : option (list float) :=
  match load a i with
  | Some _ => Some (setCell (Z.to_nat i) x a)
  | None => None
  end.

(** The array as declared, with the contents [junk] it happens to hold. *)
Definition ExprStack_declared (junk : nat -> float) : list float :=
  map junk (seq 0 MAX_STACK_SIZE).

Definition obind {A B : Type} (x : option A) (f : A -> option B) : option B :=
  match x with
  | Some a => f a
  | None => None
  end.

(** Opcodes 3 to 6: pop [r1], combine with the new top [r2]. *)
Definition binary (f : float -> float -> float) (st : Stack) : option Stack :=
  let '(a, i) := st in
  obind (load a i) (fun r1 =>
  let i := i - 1 in
  obind (load a i) (fun r2 =>
  obind (store a i (f r2 r1)) (fun a => Some (a, i)))).

(** Opcodes 7 and 8: push. *)
Definition push (x : float) (st : Stack) : option Stack :=
  let '(a, i) := st in
  let i := i + 1 in
  obind (store a i x) (fun a => Some (a, i)).

(** Opcodes 9 to 28: replace the top. *)
Definition unary (f : float -> float) (st : Stack) : option Stack :=
  let '(a, i) := st in
  obind (load a i) (fun r1 =>
  obind (store a i (f r1)) (fun a => Some (a, i))).

(** Opcode 31. *)
Definition power (L : Libm) (st : Stack) : option Stack :=
  let '(a, i) := st in
  obind (load a i) (fun r1 =>
  obind (load a (i - 1)) (fun r2 =>
  let r2 := if (r2 <=? 0)%float then 0%float else exp L (r1 * log L r2)%float in
  obind (store a (i - 1) r2) (fun a => Some (a, i - 1)))).

(** One round of the [switch] of [mathexpr_eval]. *)
Definition evalNode (L : Libm) (getVariableValue : option (Z -> float)) (node : MathExpr)
  (st : Stack) : option Stack :=
  match opcode node with
  | 3 => binary PrimFloat.add st
  | 4 => binary PrimFloat.sub st
  | 5 => binary PrimFloat.mul st
  | 6 => binary PrimFloat.div st
  | 7 => push (fvalue node) st
  | 8 => push (match getVariableValue with
               | Some f => f (ivar node)
               | None => 0%float
               end) st
  | 9 => unary PrimFloat.opp st
  | 10 => unary (cos L) st
  | 11 => unary (sin L) st
  | 12 => unary (tan L) st
  | 13 => unary (fun r1 => if (r1 =? 0)%float then 0 else 1 / tan L r1)%float st
  | 14 => unary PrimFloat.abs st
  | 15 => unary (fun r1 => if (r1 <? 0)%float then (-1)%float
                           else if (0 <? r1)%float then 1%float else 0%float) st
  | 16 => unary (fun r1 => if (r1 <? 0)%float then 0%float else PrimFloat.sqrt r1) st
  | 17 => unary (fun r1 => if (r1 <=? 0)%float then 0%float else log L r1) st
  | 18 => unary (exp L) st
  | 19 => unary (asin L) st
  | 20 => unary (acos L) st
  | 21 => unary (atan L) st
  | 22 => unary (fun r1 => 0x1.921fb54442d18p+0 - atan L r1)%float st
  | 23 => unary (fun r1 => (exp L r1 - exp L (- r1)) / 2)%float st
  | 24 => unary (fun r1 => (exp L r1 + exp L (- r1)) / 2)%float st
  | 25 => unary (fun r1 => (exp L r1 - exp L (- r1)) / (exp L r1 + exp L (- r1)))%float st
  | 26 => unary (fun r1 => (exp L r1 + exp L (- r1)) / (exp L r1 - exp L (- r1)))%float st
  | 27 => unary (fun r1 => if (r1 =? 0)%float then 0%float else log10 L r1) st
  | 28 => unary (fun r1 => if (r1 <=? 0)%float then 0%float else 1%float) st
  | 31 => power L st
  | _ => Some st
  end.

(** The [while] loop over the nodes. *)
Fixpoint evalNodes (L : Libm) (getVariableValue : option (Z -> float))
  (expr : list MathExpr) (st : Stack) : option Stack :=
  match expr with
  | [] => Some st
  | node :: next => obind (evalNode L getVariableValue node st)
                          (evalNodes L getVariableValue next)
  end.

(** [mathexpr_eval]. *)
Definition mathexpr_eval (L : Libm) (junk : nat -> float) (expr : list MathExpr)
  (getVariableValue : option (Z -> float)) : option float :=
  let ExprStack := setCell 0 0%float (ExprStack_declared junk) in
  obind (evalNodes L getVariableValue expr (ExprStack, 0)) (fun st =>
  let '(a, stackindex) := st in
  obind (load a stackindex) (fun r1 =>
  Some (if negb (r1 =? r1)%float then 0%float else r1))).

End Mathexpr.

(** ** Vocabulary of the expression module's properties *)

Module MathexprVocab.

Import Mathexpr.
Local Open Scope Z_scope.

(** The text [s] in upper case. *)
Fixpoint upper (s : string) : string :=
  match s with
  | EmptyString => EmptyString
  | String c t => String (toupper c) (upper t)
  end.

(** Two arrays of the same size that hold the same values in the cells
    0 to [i], the part of the stack in use. *)
Definition agree (a b : list float) (i : Z) : Prop :=
  List.length a = List.length b
  /\ forall k, 0 <= k <= i -> load a k = load b k.

(** Two stacks side by side. *)
Definition sameStacks (r r' : option Stack) : Prop :=
  match r, r' with
  | Some (a, i), Some (b, i') => i = i' /\ agree a b i
  | None, None => True
  | _, _ => False
  end.

(** The opcodes that [mathexpr_eval] has a case for. *)
Definition hasCase (op : Z) : bool :=
  ((3 <=? op) && (op <=? 28)) || (op =? 31).

End MathexprVocab.

(** * Concrete projects

    A project with one conduit between two junctions, used to run the model:
    a rectangular open channel of unit width, 2 ft deep and 100 ft long.
    The helpers are those of that channel where the examples need them:
    area [y], top width 1, and a hydraulic radius held at 1 ft, for which
    [pow(r, e) = 1]; the Froude number stays in the range at or below 0.5. *)

Import Dwflow.
Local Open Scope Q_scope.

Definition X0 : Externs :=
  mkExterns
    (1 # 1000000)                         (* FUDGE *)
    (322 # 10)                            (* GRAVITY *)
    24%Z                                  (* FORCE_MAIN *)
    (fun _ _ => 100)                      (* link_getLength *)
    (fun _ _ _ _ => 0)                    (* link_getFroude *)
    (fun _ _ _ => 1 # 2)                  (* link_getYnorm *)
    (fun _ _ _ => 1 # 2)                  (* link_getYcrit *)
    (fun _ _ _ _ => 0)                    (* link_getLossRate *)
    (fun _ _ _ _ _ => false)              (* link_setFlapGate *)
    (fun _ _ _ => 0%Z)                    (* link_getFullState *)
    (fun _ _ _ _ => 0)                    (* forcemain_getFricSlope *)
    (fun _ _ _ _ => (0, false))           (* culvert_getInflow: no culvert *)
    (fun _ _ y => y)                      (* xsect_getAofY *)
    (fun _ _ _ => 1)                      (* xsect_getWofY *)
    (fun _ _ _ => 1)                      (* xsect_getRofY *)
    (fun t => (t =? 4)%Z)                 (* xsect_isOpen *)
    (fun _ _ => 1).                       (* pow *)

Definition xsect0 : TXsect.t := TXsect.mk 4 0 2 2.

(** The link: nodes 0 and 1, conduit 0, no offsets, open, old flow 1 cfs. *)
Definition link0 : TLink.t :=
  TLink.mk 0 1 0 xsect0 0 0 1 1 0 0 0 0 SUBCRITICAL 0 0 0 0 0 0 0 false false.

(** The conduit with roughness factor [rf]: one barrel, previous-iteration
    flow 1 cfs, previous area 0.7 ft2. *)
Definition conduit0 (rf : Q) : TConduit.t :=
  TConduit.mk 1 100 rf 1 false 1 1 (7 # 10) (7 # 10) 0.

Definition node (t : NodeType) (invert depth : Q) : TNode.t := TNode.mk t invert depth.

(** Water 0.5 ft deep upstream and 0.9 ft deep downstream: an adverse head. *)
Definition sp0 (rf : Q) : SWMM_Project :=
  mkProject [link0] [node JUNCTION 0 (1 # 2); node JUNCTION 0 (9 # 10)]
            [conduit0 rf] PARTIAL_DAMPING BOTH.

(** The per-barrel flow [Conduit[k].q1] and the link flow [Link[j].newFlow]
    after a call, when the call returns. *)
Definition storedFlow (r : option (unit * SWMM_Project)) (k : nat) : option Q :=
  match r with
  | Some (_, sp') => option_map TConduit.q1 (nth_error (Conduit sp') k)
  | None => None
  end.

Definition storedNewFlow (r : option (unit * SWMM_Project)) (j : nat) : option Q :=
  match r with
  | Some (_, sp') => option_map TLink.newFlow (nth_error (Link sp') j)
  | None => None
  end.

(** A link whose upstream node is an outfall holding 1 ft of water, with an
    upstream offset of 2 ft. *)
Definition link_out : TLink.t :=
  TLink.mk 0 1 0 xsect0 2 (1 # 2) 1 0 0 0 0 0 SUBCRITICAL 0 0 0 0 0 0 0 false false.

Definition sp_out : SWMM_Project :=
  mkProject [link_out] [node OUTFALL 0 1; node JUNCTION 0 (3 # 2)]
            [conduit0 0] PARTIAL_DAMPING BOTH.

(** A closed link: [link0] with its setting at 0. *)
Definition link_closed : TLink.t :=
  TLink.mk 0 1 0 xsect0 0 0 0 1 0 0 0 0 SUBCRITICAL 0 0 0 0 0 0 0 false false.

Definition sp_closed : SWMM_Project :=
  mkProject [link_closed] [node JUNCTION 0 (1 # 2); node JUNCTION 0 (9 # 10)]
            [conduit0 (1 # 400)] PARTIAL_DAMPING BOTH.

(** [link0] with a user flow limit of 0.5 cfs. *)
Definition link_limited : TLink.t :=
  TLink.mk 0 1 0 xsect0 0 0 1 1 (1 # 2) 0 0 0 SUBCRITICAL 0 0 0 0 0 0 0 false false.

Definition sp_limited : SWMM_Project :=
  mkProject [link_limited] [node JUNCTION 0 (1 # 2); node JUNCTION 0 (9 # 10)]
            [conduit0 (1 # 400)] PARTIAL_DAMPING BOTH.

(** A closed cross-section (a shape other than the open rectangle), 2 ft deep. *)
Definition xsect_closed : TXsect.t := TXsect.mk 1 0 2 2.

(** [conduit0] with a previous-iteration flow of 2^-1074 cfs, the smallest
    positive double. *)
Definition conduit_tiny : TConduit.t :=
  TConduit.mk 1 100 (1 # 400) 1 false (1 # 2 ^ 1074) 1 (7 # 10) (7 # 10) 0.

Definition sp_tiny : SWMM_Project :=
  mkProject [link0] [node JUNCTION 0 (1 # 2); node JUNCTION 0 (9 # 10)]
            [conduit_tiny] PARTIAL_DAMPING BOTH.

(** Helpers that look at the flow they are given: the Froude number is the
    magnitude of the velocity, the flap gate closes on a reverse flow, and
    the inlet control of a culvert caps the flow at the upstream head. *)
Definition X1 : Externs :=
  mkExterns
    (1 # 1000000)                         (* FUDGE *)
    (322 # 10)                            (* GRAVITY *)
    24%Z                                  (* FORCE_MAIN *)
    (fun _ _ => 100)                      (* link_getLength *)
    (fun _ _ v _ => Qabs v)               (* link_getFroude *)
    (fun _ _ _ => 1 # 2)                  (* link_getYnorm *)
    (fun _ _ _ => 1 # 2)                  (* link_getYcrit *)
    (fun _ _ _ _ => 0)                    (* link_getLossRate *)
    (fun _ _ _ _ q => q <? 0)             (* link_setFlapGate *)
    (fun _ _ _ => 0%Z)                    (* link_getFullState *)
    (fun _ _ _ _ => 0)                    (* forcemain_getFricSlope *)
    (fun _ _ q h => (if q >? MAX h 0 then MAX h 0 else q, q >? MAX h 0))
                                          (* culvert_getInflow *)
    (fun _ _ y => y)                      (* xsect_getAofY *)
    (fun _ _ _ => 1)                      (* xsect_getWofY *)
    (fun _ _ _ => 1)                      (* xsect_getRofY *)
    (fun t => (t =? 4)%Z)                 (* xsect_isOpen *)
    (fun _ _ => 1).                       (* pow *)

(** The conduit of [conduit0] with the normal-flow factor [beta]. *)
Definition conduit_beta (beta rf : Q) : TConduit.t :=
  TConduit.mk 1 100 rf beta false 1 1 (7 # 10) (7 # 10) 0.

(** Water 0.9 ft deep upstream and 0.5 ft deep downstream: a favourable
    head. *)
Definition sp_fav (beta rf : Q) : SWMM_Project :=
  mkProject [link0] [node JUNCTION 0 (9 # 10); node JUNCTION 0 (1 # 2)]
            [conduit_beta beta rf] PARTIAL_DAMPING BOTH.

(** ** The expression module *)

(** A stand-in for <math.h> where the examples need one: log10 of a
    negative number is NaN, as C has it; no other value is used. *)
Definition libm0 : Mathexpr.Libm :=
  Mathexpr.mkLibm
    (fun _ => 0%float) (fun _ => 0%float) (fun _ => 0%float) (fun _ => 0%float)
    (fun _ => 0%float) (fun _ => 0%float) (fun _ => 0%float) (fun _ => 0%float)
    (fun x => if (x <? 0)%float then nan else 0%float)
    (fun _ => 0%float).

(** The program of STEP(LOG10(-1)). *)
Definition step_log10_minus1 : list Mathexpr.MathExpr :=
  [Mathexpr.mkExpr 7 (-1) (-1)%float; Mathexpr.mkExpr 27 (-1) 0%float;
   Mathexpr.mkExpr 28 (-1) 0%float].

(** A variable callback that knows the one variable A, with index 0. *)
Definition getVarA : option (string -> Z) :=
  Some (fun name => if String.eqb name "A" then 0%Z else (-1)%Z).

(** * Properties of dwflow.c *)


(** ** Comparisons *)

Lemma Qltb_spec (x y : Q) : BoolSpec (x < y) (y <= x) (x <? y).
Proof. unfold Qltb. destruct (Qlt_le_dec x y); constructor; assumption. Qed.

Lemma Qleb_spec (x y : Q) : BoolSpec (x <= y) (y < x) (x <=? y).
Proof. unfold Qleb. destruct (Qlt_le_dec y x); constructor; assumption. Qed.

Lemma Qeqb_spec (x y : Q) : BoolSpec (x == y) (~ x == y) (x =? y).
Proof. unfold Qeqb. destruct (Qeq_dec x y); constructor; assumption. Qed.

(** Case analysis on every comparison of doubles in the goal. *)
Ltac qcases :=
  unfold Qgtb, Qgeb in *;
  repeat match goal with
         | |- context [Qltb ?a ?b] => destruct (Qltb_spec a b)
         | |- context [Qleb ?a ?b] => destruct (Qleb_spec a b)
         | |- context [Qeqb ?a ?b] => destruct (Qeqb_spec a b)
         end.

Lemma MIN_le_l (x y : Q) : MIN x y <= x.
Proof. unfold MIN. qcases; lra. Qed.

Lemma MIN_le_r (x y : Q) : MIN x y <= y.
Proof. unfold MIN. qcases; lra. Qed.

Lemma MAX_ge_l (x y : Q) : x <= MAX x y.
Proof. unfold MAX. qcases; lra. Qed.

Lemma MAX_ge_r (x y : Q) : y <= MAX x y.
Proof. unfold MAX. qcases; lra. Qed.

Lemma SGN_cases (x : Q) : (x < 0 /\ SGN x = -(1)) \/ (0 <= x /\ SGN x = 1).
Proof. unfold SGN. qcases; [left | right]; split; auto. Qed.

Lemma Qabs_cases (x : Q) : (0 <= x /\ Qabs x == x) \/ (x < 0 /\ Qabs x == - x).
Proof.
  destruct (Qlt_le_dec x 0) as [H | H].
  - right. split; [assumption |]. apply Qabs_neg. lra.
  - left. split; [assumption |]. apply Qabs_pos. assumption.
Qed.

(** ** Arrays *)

Lemma nth_error_upd_same {A : Type} (a : list A) (i : nat) (x y : A) :
  nth_error a i = Some y -> nth_error (upd i x a) i = Some x.
Proof.
  revert i. induction a as [| h t IH]; intros [| i] H; simpl in *; try discriminate.
  - reflexivity.
  - apply IH. assumption.
Qed.

Lemma upd_upd {A : Type} (a : list A) (i : nat) (x y : A) :
  upd i x (upd i y a) = upd i x a.
Proof.
  revert i. induction a as [| h t IH]; intros [| i]; simpl; try reflexivity.
  rewrite IH. reflexivity.
Qed.

Lemma upd_self {A : Type} (a : list A) (i : nat) (x : A) :
  nth_error a i = Some x -> upd i x a = a.
Proof.
  revert i. induction a as [| h t IH]; intros [| i] H; simpl in *; try discriminate.
  - congruence.
  - rewrite IH by assumption. reflexivity.
Qed.

(** ** The monad *)

Lemma bind_ret {A B : Type} (a : A) (f : A -> M B) (sp : SWMM_Project) :
  bind (ret a) f sp = f a sp.
Proof. reflexivity. Qed.

Lemma bind_gets {A B : Type} (g : SWMM_Project -> A) (f : A -> M B) (sp : SWMM_Project) :
  bind (gets g) f sp = f (g sp) sp.
Proof. reflexivity. Qed.

Lemma bind_bind {A B C : Type} (m : M A) (f : A -> M B) (g : B -> M C)
  (sp : SWMM_Project) :
  bind (bind m f) g sp = bind m (fun a => bind (f a) g) sp.
Proof. unfold bind. destruct (m sp) as [[a sp'] |]; reflexivity. Qed.

Lemma bind_if {A B : Type} (b : bool) (m1 m2 : M A) (f : A -> M B) (sp : SWMM_Project) :
  bind (if b then m1 else m2) f sp = if b then bind m1 f sp else bind m2 f sp.
Proof. destruct b; reflexivity. Qed.

Lemma bind_run {A B : Type} (m : M A) (f : A -> M B) (sp sp' : SWMM_Project) (a : A) :
  m sp = Some (a, sp') -> bind m f sp = f a sp'.
Proof. intros H. unfold bind. rewrite H. reflexivity. Qed.

Lemma readonly_ret {A : Type} (a : A) : readonly (ret a).
Proof. intros sp b sp' H. inversion H. reflexivity. Qed.

Lemma readonly_gets {A : Type} (g : SWMM_Project -> A) : readonly (gets g).
Proof. intros sp b sp' H. inversion H. reflexivity. Qed.

Lemma readonly_getLink (j : nat) : readonly (getLink j).
Proof.
  intros sp b sp' H. unfold getLink in H.
  destruct (nth_error (Link sp) j); inversion H. reflexivity.
Qed.

Lemma readonly_getNode (n : nat) : readonly (getNode n).
Proof.
  intros sp b sp' H. unfold getNode in H.
  destruct (nth_error (Node sp) n); inversion H. reflexivity.
Qed.

Lemma readonly_getConduit (k : nat) : readonly (getConduit k).
Proof.
  intros sp b sp' H. unfold getConduit in H.
  destruct (nth_error (Conduit sp) k); inversion H. reflexivity.
Qed.

Lemma readonly_bind {A B : Type} (m : M A) (f : A -> M B) :
  readonly m -> (forall a, readonly (f a)) -> readonly (bind m f).
Proof.
  intros Hm Hf sp b sp' H. unfold bind in H.
  destruct (m sp) as [[a sp1] |] eqn:E; [| discriminate].
  apply Hm in E. subst sp1. apply (Hf a) in H. assumption.
Qed.

Lemma readonly_if {A : Type} (b : bool) (m1 m2 : M A) :
  readonly m1 -> readonly m2 -> readonly (if b then m1 else m2).
Proof. destruct b; auto. Qed.

Ltac readonly_tac :=
  repeat first
    [ apply readonly_ret | apply readonly_gets | apply readonly_getLink
    | apply readonly_getNode | apply readonly_getConduit
    | apply readonly_if
    | apply readonly_bind; [| intros ? ] ].

Lemma getFlowClass_readonly (X : Externs) (j : nat) (q h1 h2 y1 y2 yC yN : Q) :
  readonly (getFlowClass X j q h1 h2 y1 y2 yC yN).
Proof. unfold getFlowClass. readonly_tac. Qed.

(** ** Running a call for link [j]

    The link [j] of the project [sp] has conduit [k] and end nodes [nd1] and
    [nd2].  Every state of a call for [j] is [plug sp j l k c] for the current
    contents [l] of [Link[j]] and [c] of [Conduit[k]]. *)

Section Run.

Variable X : Externs.
Variable sp : SWMM_Project.
Variable j : nat.
Variables (l0 : TLink.t) (c0 : TConduit.t) (nd1 nd2 : TNode.t).

Hypothesis Hlink : nth_error (Link sp) j = Some l0.
Hypothesis Hconduit : nth_error (Conduit sp) (TLink.subIndex l0) = Some c0.
Hypothesis Hnode1 : nth_error (Node sp) (TLink.node1 l0) = Some nd1.
Hypothesis Hnode2 : nth_error (Node sp) (TLink.node2 l0) = Some nd2.

Local Abbreviation k0 := (TLink.subIndex l0).

Lemma plug_start : plug sp j l0 k0 c0 = sp.
Proof.
  unfold plug, set_Conduit, set_Link. simpl.
  rewrite (upd_self _ _ _ Hlink), (upd_self _ _ _ Hconduit).
  destruct sp; reflexivity.
Qed.

Lemma run_getLink {B : Type} (f : TLink.t -> M B) (l : TLink.t) (c : TConduit.t) :
  bind (getLink j) f (plug sp j l k0 c) = f l (plug sp j l k0 c).
Proof.
  unfold bind, getLink, plug. simpl.
  rewrite (nth_error_upd_same _ _ l _ Hlink). reflexivity.
Qed.

Lemma run_getConduit {B : Type} (f : TConduit.t -> M B) (l : TLink.t) (c : TConduit.t) :
  bind (getConduit k0) f (plug sp j l k0 c) = f c (plug sp j l k0 c).
Proof.
  unfold bind, getConduit, plug. simpl.
  rewrite (nth_error_upd_same _ _ c _ Hconduit). reflexivity.
Qed.

Lemma run_getNode1 {B : Type} (f : TNode.t -> M B) (l : TLink.t) (c : TConduit.t) :
  bind (getNode (TLink.node1 l0)) f (plug sp j l k0 c) = f nd1 (plug sp j l k0 c).
Proof. unfold bind, getNode, plug. simpl. rewrite Hnode1. reflexivity. Qed.

Lemma run_getNode2 {B : Type} (f : TNode.t -> M B) (l : TLink.t) (c : TConduit.t) :
  bind (getNode (TLink.node2 l0)) f (plug sp j l k0 c) = f nd2 (plug sp j l k0 c).
Proof. unfold bind, getNode, plug. simpl. rewrite Hnode2. reflexivity. Qed.

Lemma run_modLink {B : Type} (g : TLink.t -> TLink.t) (f : unit -> M B)
  (l : TLink.t) (c : TConduit.t) :
  bind (modLink j g) f (plug sp j l k0 c) = f tt (plug sp j (g l) k0 c).
Proof.
  unfold bind, modLink, plug, set_Conduit, set_Link. simpl.
  rewrite (nth_error_upd_same _ _ l _ Hlink). rewrite upd_upd. reflexivity.
Qed.

Lemma run_modConduit {B : Type} (g : TConduit.t -> TConduit.t) (f : unit -> M B)
  (l : TLink.t) (c : TConduit.t) :
  bind (modConduit k0 g) f (plug sp j l k0 c) = f tt (plug sp j l k0 (g c)).
Proof.
  unfold bind, modConduit, plug, set_Conduit, set_Link. simpl.
  rewrite (nth_error_upd_same _ _ c _ Hconduit). rewrite upd_upd. reflexivity.
Qed.

(** The same steps at the end of a computation. *)
Lemma end_modLink (g : TLink.t -> TLink.t) (l : TLink.t) (c : TConduit.t) :
  modLink j g (plug sp j l k0 c) = Some (tt, plug sp j (g l) k0 c).
Proof.
  unfold modLink, plug, set_Conduit, set_Link. simpl.
  rewrite (nth_error_upd_same _ _ l _ Hlink). rewrite upd_upd. reflexivity.
Qed.

Lemma end_modLink_ret {A : Type} (g : TLink.t -> TLink.t) (a : A)
  (l : TLink.t) (c : TConduit.t) :
  bind (modLink j g) (fun _ => ret a) (plug sp j l k0 c)
  = Some (a, plug sp j (g l) k0 c).
Proof. rewrite run_modLink. reflexivity. Qed.

Lemma plug_Link (l : TLink.t) (c : TConduit.t) :
  nth_error (Link (plug sp j l k0 c)) j = Some l.
Proof. unfold plug. simpl. apply (nth_error_upd_same _ _ l _ Hlink). Qed.

Lemma plug_Conduit (l : TLink.t) (c : TConduit.t) :
  nth_error (Conduit (plug sp j l k0 c)) k0 = Some c.
Proof. unfold plug. simpl. apply (nth_error_upd_same _ _ c _ Hconduit). Qed.

Lemma plug_Node (l : TLink.t) (c : TConduit.t) : Node (plug sp j l k0 c) = Node sp.
Proof. reflexivity. Qed.

(** One step of symbolic execution in a state [plug sp j l k0 c]. *)
Ltac run_step :=
  first
    [ match goal with
      | |- context C [(let x := ?e in @?b x) ?s] =>
          let y := fresh "lv" in
          set (y := e);
          let t := eval cbv beta in (b y) in
          let g := context C [t s] in
          change g
      | |- context C [bind (let x := ?e in @?b x) ?f ?s] =>
          let y := fresh "lv" in
          set (y := e);
          let t := eval cbv beta in (b y) in
          let g := context C [bind t f s] in
          change g
      end
    | rewrite run_getLink | rewrite run_getConduit | rewrite run_getNode1
    | rewrite run_getNode2 | rewrite run_modLink | rewrite run_modConduit
    | rewrite bind_ret | rewrite bind_gets | rewrite bind_bind ];
  cbv beta iota.

Ltac run := repeat run_step.

(** Symbolic execution with a case split at every test that is reached. *)
Ltac run_cases :=
  repeat first
    [ run_step
    | match goal with
      | |- context [if ?b then _ else _] => destruct b
      end ].

(** *** [getFlowClass] *)

(** [getFlowClass] returns for every valid link, and leaves the project as
    it was. *)
Lemma getFlowClass_returns (q h1 h2 y1 y2 yC yN : Q) (l : TLink.t) (c : TConduit.t) :
  TLink.node1 l = TLink.node1 l0 -> TLink.node2 l = TLink.node2 l0 ->
  exists r, getFlowClass X j q h1 h2 y1 y2 yC yN (plug sp j l k0 c)
            = Some (r, plug sp j l k0 c).
Proof.
  intros E1 E2. unfold getFlowClass. rewrite run_getLink. cbv zeta. rewrite E1, E2.
  rewrite run_getNode1, run_getNode2.
  run_cases; unfold ret; eexists; reflexivity.
Qed.

(** The reads of a computation that starts in [sp] itself. *)
Lemma read_getLink {B : Type} (f : TLink.t -> M B) : bind (getLink j) f sp = f l0 sp.
Proof. unfold bind, getLink. rewrite Hlink. reflexivity. Qed.

Lemma read_getNode1 {B : Type} (f : TNode.t -> M B) :
  bind (getNode (TLink.node1 l0)) f sp = f nd1 sp.
Proof. unfold bind, getNode. rewrite Hnode1. reflexivity. Qed.

Lemma read_getNode2 {B : Type} (f : TNode.t -> M B) :
  bind (getNode (TLink.node2 l0)) f sp = f nd2 sp.
Proof. unfold bind, getNode. rewrite Hnode2. reflexivity. Qed.

(** C6.  [getFlowClass] is pure: whenever it returns, the project (every
    link, conduit and node field) is the one it was called with, and its
    only outputs are the returned class and the values of yC, yN and fasnh;
    and for a link whose end nodes exist it does return. *)
Theorem getFlowClass_pure (q h1 h2 y1 y2 yC yN : Q) :
  (forall r sp', getFlowClass X j q h1 h2 y1 y2 yC yN sp = Some (r, sp') -> sp' = sp)
  /\ exists r, getFlowClass X j q h1 h2 y1 y2 yC yN sp = Some (r, sp).
Proof.
  split.
  - intros r sp' H. apply (getFlowClass_readonly X j q h1 h2 y1 y2 yC yN sp r sp' H).
  - unfold getFlowClass. rewrite read_getLink. cbv zeta.
    rewrite read_getNode1, read_getNode2.
    repeat first
      [ rewrite bind_gets; cbv beta
      | match goal with
        | |- context [if ?b then _ else _] => destruct b
        end ];
      unfold ret; eexists; reflexivity.
Qed.

(** C3, as the code has it.  With the upstream end dry and the downstream
    end wet, the class is UP_DRY exactly when the downstream head is below
    the invert of the upstream end of the conduit, [invertElev + offset1]
    with the conduit's own offset (the outfall adjustment of z1 is not used
    in this test). *)
Theorem getFlowClass_UP_DRY_iff (q h1 h2 y1 y2 yC yN : Q) :
  y1 <= FUDGE X -> FUDGE X < y2 ->
  exists fc yC' yN' fasnh,
    getFlowClass X j q h1 h2 y1 y2 yC yN sp = Some (fc, yC', yN', fasnh, sp)
    /\ (fc = UP_DRY <-> h2 < TNode.invertElev nd1 + TLink.offset1 l0).
Proof.
  intros Hy1 Hy2. unfold getFlowClass. rewrite read_getLink. cbv zeta.
  rewrite read_getNode1, read_getNode2.
  destruct (Qltb_spec (FUDGE X) y1) as [Hc | Hc]; [lra |].
  unfold Qgtb at 1. destruct (Qltb_spec (FUDGE X) y1); [lra |]. cbn [andb].
  destruct (Qleb_spec y1 (FUDGE X)); [| lra].
  destruct (Qleb_spec y2 (FUDGE X)); [lra |]. cbn [andb].
  unfold Qgtb at 1. destruct (Qltb_spec (FUDGE X) y2); [| lra].
  destruct (Qltb_spec h2 (TNode.invertElev nd1 + TLink.offset1 l0)).
  - unfold ret. do 4 eexists. split; [reflexivity |]. split; auto.
  - destruct (outfallOffset nd1 (TLink.offset1 l0) >? 0).
    + rewrite !bind_gets. unfold ret. do 4 eexists. split; [reflexivity |].
      split; [discriminate | lra].
    + unfold ret. do 4 eexists. split; [reflexivity |].
      split; [discriminate | lra].
Qed.

(** The blending fraction lies in [0, 1]. *)
Lemma getFlowClass_fasnh (q h1 h2 y1 y2 yC yN : Q) (s s' : SWMM_Project)
  (fc : FlowClass) (yC' yN' fasnh : Q) :
  getFlowClass X j q h1 h2 y1 y2 yC yN s = Some (fc, yC', yN', fasnh, s') ->
  0 <= fasnh <= 1.
Proof.
  unfold getFlowClass, bind, getLink, getNode, gets, ret.
  destruct (nth_error (Link s) j) as [l |]; [| discriminate].
  destruct (nth_error (Node s) (TLink.node1 l)) as [m1 |]; [| discriminate].
  destruct (nth_error (Node s) (TLink.node2 l)) as [m2 |]; [| discriminate].
  cbv zeta.
  destruct (y1 >? FUDGE X); destruct (y2 >? FUDGE X); cbn [andb];
    repeat match goal with
           | |- context [if (?a && ?b)%bool then _ else _] => destruct (a && b)%bool
           | |- context [if ?a >? ?b then _ else _] => destruct (a >? b)
           | |- context [if q <? 0 then _ else _] => destruct (q <? 0)
           | |- context [if h1 <? ?b then _ else _] => destruct (h1 <? b)
           | |- context [if h2 <? ?b then _ else _] => destruct (h2 <? b)
           | |- context [if y1 <? ?b then _ else _] => destruct (y1 <? b)
           end;
    try (intros H; cbv beta in H; inversion H; subst; lra).
  all: set (yn := link_getYnorm X s j (fabs q)).
  all: set (yc := link_getYcrit X s j (fabs q)).
  all: destruct (Qltb_spec y2 (MIN yn yc)) as [Ha | Ha];
    [intros H; cbv beta in H; inversion H; subst; lra |].
  all: destruct (Qltb_spec y2 (MAX yn yc)) as [Hb | Hb];
    [| intros H; cbv beta in H; inversion H; subst; lra].
  all: destruct (Qltb_spec (MAX yn yc - MIN yn yc) (FUDGE X)) as [Hd | Hd];
    intros H; cbv beta in H; inversion H; subst; [lra |].
  all: split; [apply Qle_shift_div_l; lra | apply Qle_shift_div_r; lra].
Qed.

(** *** [findSurfArea] *)

Lemma Qdiv_nonneg (a b : Q) : 0 <= a -> 0 <= b -> 0 <= a / b.
Proof.
  intros Ha Hb. unfold Qdiv.
  apply Qmult_le_0_compat; [assumption | apply Qinv_le_0_compat; assumption].
Qed.

Lemma surf_quarter (w1 w2 len : Q) : 0 <= w1 -> 0 <= w2 -> 0 <= len -> 0 <= (w1 + w2) * len / 4.
Proof. intros. apply Qdiv_nonneg; [nra | lra]. Qed.

Lemma surf_half (w1 w2 len : Q) : 0 <= w1 -> 0 <= w2 -> 0 <= len -> 0 <= (w1 + w2) * len * (1 # 2).
Proof. intros. nra. Qed.

(** A call of [findSurfArea] in a state of the call for link [j]: it returns,
    writes the flow class and the two surface areas, and nothing else. *)
Lemma findSurfArea_run (q len h1 h2 y1 y2 : Q) (l : TLink.t) (c : TConduit.t) :
  TLink.node1 l = TLink.node1 l0 -> TLink.node2 l = TLink.node2 l0 ->
  exists fc sa1 sa2 r,
    findSurfArea X j q len h1 h2 y1 y2 (plug sp j l k0 c)
    = Some (r, plug sp j (TLink.set_surfArea2 sa2
                            (TLink.set_surfArea1 sa1 (TLink.set_flowClass fc l))) k0 c)
    /\ ((forall s xs y, 0 <= xsect_getWofY X s xs y) -> 0 <= len -> 0 <= FUDGE X ->
        0 <= sa1 /\ 0 <= sa2).
Proof.
  intros E1 E2. unfold findSurfArea. rewrite run_getLink. cbv zeta.
  destruct (getFlowClass_returns q h1 h2 y1 y2 ((y1 + y2) / 2) ((y1 + y2) / 2) l c E1 E2)
    as [[[[fc yC'] yN'] fasnh] Hfc].
  rewrite (bind_run _ _ _ _ _ Hfc). apply getFlowClass_fasnh in Hfc.
  cbv beta iota. rewrite run_modLink, run_getLink. rewrite E1, E2.
  cbn [TLink.flowClass TLink.set_flowClass TLink.offset1 TLink.offset2].
  destruct fc; unfold getWidth; cbv zeta; run;
    unfold ret;
    do 4 eexists; (split; [reflexivity |]); intros HW Hlen HF;
    repeat match goal with
           | |- context [if ?b then _ else _] => destruct b
           end;
    split; try lra;
    repeat first [ apply surf_quarter | apply surf_half | apply Qdiv_nonneg
                 | apply Qmult_le_0_compat | apply HW | lra ].
Qed.

(** C10.  With a non-negative top-width function, a non-negative length and
    a positive FUDGE, [findSurfArea] returns and the surface areas it writes
    to the link are non-negative in every flow class; and every blending
    fraction that [getFlowClass] computes lies in [0, 1]. *)
Theorem findSurfArea_nonneg (q len h1 h2 y1 y2 : Q) :
  (forall s xs y, 0 <= xsect_getWofY X s xs y) -> 0 <= len -> 0 < FUDGE X ->
  (exists r sp' l',
      findSurfArea X j q len h1 h2 y1 y2 sp = Some (r, sp')
      /\ nth_error (Link sp') j = Some l'
      /\ 0 <= TLink.surfArea1 l' /\ 0 <= TLink.surfArea2 l')
  /\ (forall q h1 h2 y1 y2 yC yN s s' fc yC' yN' fasnh,
         getFlowClass X j q h1 h2 y1 y2 yC yN s = Some (fc, yC', yN', fasnh, s') ->
         0 <= fasnh <= 1).
Proof.
  intros HW Hlen HF. split.
  - destruct (findSurfArea_run q len h1 h2 y1 y2 l0 c0 eq_refl eq_refl)
      as (fc & sa1 & sa2 & r & Hrun & Hpos).
    rewrite plug_start in Hrun.
    destruct Hpos as [H1 H2]; [assumption | assumption | lra |].
    exists r. eexists. eexists. split; [exact Hrun |].
    split; [apply plug_Link |]. split; assumption.
  - intros. eapply getFlowClass_fasnh. eassumption.
Qed.

(** *** [checkNormalFlow] *)

(** A call of [checkNormalFlow] in a state of the call for link [j], in
    closed form. *)
Lemma checkNormalFlow_run (q y1 y2 a1 r1 : Q) (l : TLink.t) (c : TConduit.t) :
  TLink.node1 l = TLink.node1 l0 -> TLink.node2 l = TLink.node2 l0 ->
  TLink.subIndex l = TLink.subIndex l0 ->
  let s := plug sp j l k0 c in
  let hasOutfall := isOutfall (TNode.type nd1) || isOutfall (TNode.type nd2) in
  let trig := slopeTrigger (NormalFlowLtd sp) hasOutfall y1 y2
              || froudeTrigger X (NormalFlowLtd sp) hasOutfall y1 y2
                   (link_getFroude X s j (q / a1) y1) in
  let qNorm := TConduit.beta c * a1 * pow X r1 (2 # 3) in
  checkNormalFlow X j q y1 y2 a1 r1 s
  = if trig && (qNorm <? q)
    then Some (qNorm, plug sp j (TLink.set_normalFlow true l) k0 c)
    else Some (q, s).
Proof.
  intros E1 E2 E3. cbv zeta. unfold checkNormalFlow, slopeTrigger, froudeTrigger.
  rewrite run_getLink. cbv zeta. rewrite E1, E2, E3.
  rewrite run_getNode1, run_getNode2, bind_gets. cbv beta.
  change (NormalFlowLtd (plug sp j l k0 c)) with (NormalFlowLtd sp).
  destruct (NormalFlowLtd sp); destruct (isOutfall (TNode.type nd1));
    destruct (isOutfall (TNode.type nd2)); destruct (y1 <? y2);
    cbn [orb andb negb]; run;
    try (destruct (y1 >? FUDGE X); destruct (y2 >? FUDGE X); cbn [orb andb negb]; run);
    try (destruct (link_getFroude X (plug sp j l k0 c) j (q / a1) y1 >=? 1);
         cbn [orb andb negb]; run);
    try (destruct (TConduit.beta c * a1 * pow X r1 (2 # 3) <? q); run);
    reflexivity.
Qed.

(** C7.  [checkNormalFlow] returns the normal flow qNorm and raises
    [normalFlow] exactly when a trigger holds (slope or upstream Froude, as
    the flags and the outfall rule select them) and qNorm < q; otherwise it
    returns q and leaves the project as it was; the result never exceeds q. *)
Theorem checkNormalFlow_spec (q y1 y2 a1 r1 : Q) :
  let hasOutfall := isOutfall (TNode.type nd1) || isOutfall (TNode.type nd2) in
  let trig := slopeTrigger (NormalFlowLtd sp) hasOutfall y1 y2
              || froudeTrigger X (NormalFlowLtd sp) hasOutfall y1 y2
                   (link_getFroude X sp j (q / a1) y1) in
  let qNorm := TConduit.beta c0 * a1 * pow X r1 (2 # 3) in
  exists q' sp',
    checkNormalFlow X j q y1 y2 a1 r1 sp = Some (q', sp')
    /\ (trig = true /\ qNorm < q ->
        q' = qNorm
        /\ exists l', nth_error (Link sp') j = Some l' /\ TLink.normalFlow l' = true)
    /\ (~ (trig = true /\ qNorm < q) -> q' = q /\ sp' = sp)
    /\ q' <= q.
Proof.
  cbv zeta.
  pose proof (checkNormalFlow_run q y1 y2 a1 r1 l0 c0 eq_refl eq_refl eq_refl) as H.
  cbv zeta in H. rewrite plug_start in H. rewrite H. clear H.
  set (trig := (slopeTrigger _ _ _ _ || froudeTrigger _ _ _ _ _ _)%bool).
  destruct trig; cbn [andb].
  - destruct (Qltb_spec (TConduit.beta c0 * a1 * pow X r1 (2 # 3)) q) as [Hlt | Hge].
    + do 2 eexists. split; [reflexivity |]. split; [| split].
      * intros _. split; [reflexivity |]. eexists. split; [apply plug_Link | reflexivity].
      * intros Hn. exfalso. apply Hn. split; [reflexivity | assumption].
      * lra.
    + do 2 eexists. split; [reflexivity |]. split; [| split].
      * intros [_ Hlt]. lra.
      * intros _. split; reflexivity.
      * lra.
  - do 2 eexists. split; [reflexivity |]. split; [| split].
    + intros [Hf _]. discriminate.
    + intros _. split; reflexivity.
    + lra.
Qed.

(** *** [dwflow_findConduitFlow] *)

(** The set-up part returns, and writes only what [findSurfArea] writes. *)
Lemma conduitSetup_run (c : TConduit.t) :
  exists fc sa1 sa2 h1' h2' y1' y2' a1' a2' r1' aMid' rMid',
    conduitSetup X j (plug sp j l0 k0 c)
    = Some (mkLocals (TLink.setting l0 =? 0) k0 (TConduit.barrels c)
              (TLink.oldFlow l0 / TConduit.barrels c) (TConduit.q1 c)
              (TLink.node1 l0) (TLink.node2 l0) h1' h2' y1' y2'
              (MAX (TConduit.a2 c) (FUDGE X)) (TConduit.modLength c)
              a1' a2' r1' ((1 # 2) * (y1' + y2')) aMid' rMid'
              ((y1' >=? TXsect.yFull (TLink.xsect l0))
               && (y2' >=? TXsect.yFull (TLink.xsect l0))),
            plug sp j (TLink.set_surfArea2 sa2
                         (TLink.set_surfArea1 sa1 (TLink.set_flowClass fc l0))) k0 c).
Proof.
  unfold conduitSetup. rewrite run_getLink. cbv zeta.
  rewrite run_getConduit, run_getNode1, run_getNode2.
  match goal with
  | |- context [findSurfArea X j ?q ?len ?a ?b ?u ?w] =>
      destruct (findSurfArea_run q len a b u w l0 c eq_refl eq_refl)
        as (fc & sa1 & sa2 & [[[h1' h2'] y1'] y2'] & Hrun & _)
  end.
  rewrite (bind_run _ _ _ _ _ Hrun). cbv beta iota.
  unfold getArea, getHydRad. cbv zeta. run. unfold ret.
  exists fc, sa1, sa2, h1', h2', y1', y2'. do 5 eexists. reflexivity.
Qed.

(** The zero-flow exit, in closed form. *)
Lemma zeroFlow_run (dt : Q) (v : Locals) (l : TLink.t) (c : TConduit.t) :
  k v = k0 ->
  exists vol,
    zeroFlow X j dt v (plug sp j l k0 c)
    = Some (tt,
            plug sp j
              (TLink.set_newFlow 0
                 (TLink.set_newVolume vol
                    (TLink.set_newDepth (MIN (yMid v) (TXsect.yFull (TLink.xsect l)))
                       (TLink.set_froude 0
                          (TLink.set_dqdh
                             (GRAVITY X * dt * aMid v / length v * barrels v) l)))))
              k0
              (TConduit.set_q2 0
                 (TConduit.set_q1 0
                    (TConduit.set_a1 ((1 # 2) * (a1 v + a2 v)) c)))).
Proof.
  intros Ek. unfold zeroFlow. rewrite Ek. run.
  rewrite end_modLink. eexists. reflexivity.
Qed.

(** C1.  For a valid link the set-up part returns; and if the flow class
    that [findSurfArea] stored is DRY, UP_DRY or DN_DRY, or the link's
    setting is 0, or the midpoint area is at most FUDGE, then the call
    returns with newFlow = 0, q1 = q2 = 0, froude = 0 and
    dqdh = GRAVITY * dt * aMid / length * barrels. *)
Theorem zero_flow_exit (steps : Z) (omega dt : Q) :
  exists v sp1 l1,
    conduitSetup X j sp = Some (v, sp1)
    /\ nth_error (Link sp1) j = Some l1
    /\ (isDryClass (TLink.flowClass l1) = true \/ TLink.setting l0 == 0
        \/ aMid v <= FUDGE X ->
        exists sp' l' c',
          dwflow_findConduitFlow X j steps omega dt sp = Some (tt, sp')
          /\ nth_error (Link sp') j = Some l'
          /\ nth_error (Conduit sp') (k v) = Some c'
          /\ TLink.newFlow l' = 0
          /\ TConduit.q1 c' = 0 /\ TConduit.q2 c' = 0
          /\ TLink.froude l' = 0
          /\ TLink.dqdh l' = GRAVITY X * dt * aMid v / length v * barrels v).
Proof.
  destruct (conduitSetup_run c0)
    as (fc & sa1 & sa2 & h1' & h2' & y1' & y2' & a1' & a2' & r1' & aMid' & rMid' & Hset).
  rewrite plug_start in Hset.
  do 3 eexists. split; [exact Hset |]. split; [apply plug_Link |].
  intros Hcond. unfold dwflow_findConduitFlow.
  rewrite (bind_run _ _ _ _ _ Hset). rewrite run_getLink.
  match goal with
  | |- context [if ?b then _ else _] => assert (Hb : b = true)
  end.
  { cbn [TLink.flowClass TLink.set_surfArea2 TLink.set_surfArea1 TLink.set_flowClass
         isClosed aMid] in *.
    destruct Hcond as [Hd | [Hs | Ha]].
    - rewrite Hd. reflexivity.
    - destruct (Qeqb_spec (TLink.setting l0) 0); [| contradiction].
      apply orb_true_iff. left. apply orb_true_iff. right. reflexivity.
    - destruct (Qleb_spec aMid' (FUDGE X)); [| lra].
      apply orb_true_r. }
  rewrite Hb.
  match goal with
  | |- context [zeroFlow X j dt ?v ?s] =>
      destruct (zeroFlow_run dt v
                  (TLink.set_surfArea2 sa2
                     (TLink.set_surfArea1 sa1 (TLink.set_flowClass fc l0))) c0 eq_refl)
        as [vol Hz]
  end.
  do 3 eexists. split; [exact Hz |].
  split; [apply plug_Link |]. split; [apply plug_Conduit |].
  repeat split; reflexivity.
Qed.

(** *** The momentum step: the stored flow *)

Lemma run_checkNormalFlow {B : Type} (f : Q -> M B) (q y1 y2 a1 r1 : Q)
  (l : TLink.t) (c : TConduit.t) :
  TLink.node1 l = TLink.node1 l0 -> TLink.node2 l = TLink.node2 l0 ->
  TLink.subIndex l = TLink.subIndex l0 ->
  bind (checkNormalFlow X j q y1 y2 a1 r1) f (plug sp j l k0 c)
  = if (slopeTrigger (NormalFlowLtd sp)
          (isOutfall (TNode.type nd1) || isOutfall (TNode.type nd2)) y1 y2
        || froudeTrigger X (NormalFlowLtd sp)
             (isOutfall (TNode.type nd1) || isOutfall (TNode.type nd2)) y1 y2
             (link_getFroude X (plug sp j l k0 c) j (q / a1) y1))
       && (TConduit.beta c * a1 * pow X r1 (2 # 3) <? q)
    then f (TConduit.beta c * a1 * pow X r1 (2 # 3))
           (plug sp j (TLink.set_normalFlow true l) k0 c)
    else f q (plug sp j l k0 c).
Proof.
  intros E1 E2 E3. unfold bind at 1.
  pose proof (checkNormalFlow_run q y1 y2 a1 r1 l c E1 E2 E3) as H.
  cbv zeta in H. rewrite H.
  match goal with
  | |- context [if ?b then _ else _] => destruct b
  end; reflexivity.
Qed.

(** Symbolic execution of the momentum step: a case split only at a test
    that selects the next statement. *)
Ltac run_flow :=
  repeat first
    [ run_step
    | rewrite run_checkNormalFlow by (simpl; assumption);
      match goal with
      | |- context [if (slopeTrigger ?a ?b ?c ?d || ?e) && ?f then _ else _] =>
          destruct ((slopeTrigger a b c d || e) && f)
      end
    | match goal with
      | |- context [bind (if ?b then _ else _) _ _] => destruct b
      | |- context [(if ?b then _ else _) (plug _ _ _ _ _)] => destruct b
      end ].

(** The momentum step returns, and the flow it stores is a candidate flow
    [qc] passed through under-relaxation, the user's flow limit, the flap
    gate and the dry-node choke. *)
Lemma momentumFlow_flow (steps : Z) (omega dt : Q) (v : Locals)
  (l : TLink.t) (c : TConduit.t) :
  k v = k0 -> n1 v = TLink.node1 l0 -> n2 v = TLink.node2 l0 ->
  TLink.node1 l = TLink.node1 l0 -> TLink.node2 l = TLink.node2 l0 ->
  TLink.subIndex l = TLink.subIndex l0 ->
  exists qc closed l' c',
    momentumFlow X j steps omega dt v (plug sp j l k0 c)
    = Some (tt, plug sp j l' k0 c')
    /\ TConduit.q1 c'
       = dryNodeChoke X (TNode.newDepth nd1) (TNode.newDepth nd2)
           (if closed : bool then 0
            else userFlowLimit (TLink.qLimit l) (underRelax steps omega (qLast v) qc))
    /\ TConduit.q2 c' = TConduit.q1 c'
    /\ TLink.newFlow l' = TConduit.q1 c' * barrels v.
Proof.
  intros Ek En1 En2 E1 E2 E3.
  cbv delta [momentumFlow momentumEquation flowLimitation relaxAndSave
             call_culvert_getInflow findLocalLosses]. cbv beta.
  rewrite Ek, En1, En2.
  run_flow; rewrite end_modLink;
    do 4 eexists; (split; [reflexivity |]);
    cbn [TConduit.q1 TConduit.q2 TConduit.set_fullState TConduit.set_q2
         TConduit.set_q1 TConduit.set_a1 TLink.newFlow TLink.set_newFlow];
    repeat split; reflexivity.
Qed.

(** The momentum equation returns, and writes outputs of the link only. *)
Lemma momentumEquation_run (dt : Q) (v : Locals) (l : TLink.t) (c : TConduit.t) :
  k v = k0 ->
  exists q l',
    momentumEquation X j dt v (plug sp j l k0 c) = Some (q, plug sp j l' k0 c)
    /\ blankOutputs l' = blankOutputs l.
Proof.
  intros Ek.
  cbv delta [momentumEquation findLocalLosses]. cbv beta.
  rewrite Ek.
  run_flow; unfold ret; do 2 eexists; (split; [reflexivity |]);
    destruct l; reflexivity.
Qed.

(** The flow limitations, in closed form. *)
Lemma flowLimitation_run (v : Locals) (q : Q) (l : TLink.t) (c : TConduit.t) :
  TLink.node1 l = TLink.node1 l0 -> TLink.node2 l = TLink.node2 l0 ->
  TLink.subIndex l = TLink.subIndex l0 ->
  let l1 := TLink.set_normalFlow false (TLink.set_inletControl false l) in
  let s1 := plug sp j l1 k0 c in
  let hasOutfall := isOutfall (TNode.type nd1) || isOutfall (TNode.type nd2) in
  let trig := slopeTrigger (NormalFlowLtd sp) hasOutfall (y1 v) (y2 v)
              || froudeTrigger X (NormalFlowLtd sp) hasOutfall (y1 v) (y2 v)
                   (link_getFroude X s1 j (q / a1 v) (y1 v)) in
  let qNorm := TConduit.beta c * a1 v * pow X (r1 v) (2 # 3) in
  flowLimitation X j v q (plug sp j l k0 c)
  = if q >? 0 then
      if (TXsect.culvertCode (TLink.xsect l) >? 0)%Z && negb (isFull v)
      then Some (fst (culvert_getInflow X s1 j q (h1 v)),
                 plug sp j (if snd (culvert_getInflow X s1 j q (h1 v))
                            then TLink.set_inletControl true l1 else l1) k0 c)
      else if (y1 v <? TXsect.yFull (TLink.xsect l))
              && (FlowClass_eqb (TLink.flowClass l) SUBCRITICAL
                  || FlowClass_eqb (TLink.flowClass l) SUPCRITICAL)
           then if trig && (qNorm <? q)
                then Some (qNorm, plug sp j (TLink.set_normalFlow true l1) k0 c)
                else Some (q, s1)
           else Some (q, s1)
    else Some (q, s1).
Proof.
  intros E1 E2 E3. cbv zeta. unfold flowLimitation.
  rewrite !run_modLink.
  destruct (q >? 0); [| reflexivity].
  rewrite run_getLink.
  cbn [TLink.xsect TLink.flowClass TLink.set_normalFlow TLink.set_inletControl].
  destruct ((TXsect.culvertCode (TLink.xsect l) >? 0)%Z && negb (isFull v)).
  - unfold call_culvert_getInflow. rewrite bind_gets. cbv beta.
    destruct (snd (culvert_getInflow X
                     (plug sp j (TLink.set_normalFlow false (TLink.set_inletControl false l))
                           k0 c) j q (h1 v))).
    + rewrite run_modLink. reflexivity.
    + rewrite bind_ret. reflexivity.
  - destruct ((y1 v <? TXsect.yFull (TLink.xsect l))
              && (FlowClass_eqb (TLink.flowClass l) SUBCRITICAL
                  || FlowClass_eqb (TLink.flowClass l) SUPCRITICAL)); [| reflexivity].
    pose proof (checkNormalFlow_run q (y1 v) (y2 v) (a1 v) (r1 v)
                  (TLink.set_normalFlow false (TLink.set_inletControl false l)) c) as H.
    cbv zeta in H. apply H; destruct l; assumption.
Qed.

(** *** Under-relaxation and the limits after it *)

Lemma shrinks_refl (a : Q) : shrinks a a.
Proof. unfold shrinks. destruct (Qlt_le_dec a 0); [right | left]; lra. Qed.

Lemma shrinks_zero (a : Q) : shrinks 0 a.
Proof. unfold shrinks. destruct (Qlt_le_dec a 0); [right | left]; lra. Qed.

Lemma shrinks_trans (a b c : Q) : shrinks a b -> shrinks b c -> shrinks a c.
Proof. unfold shrinks. intros [H1 | H1] [H2 | H2]; (left; lra) || (right; lra). Qed.

Lemma shrinks_Qabs (b a : Q) : shrinks b a -> Qabs b <= Qabs a.
Proof.
  unfold shrinks. intros H.
  destruct (Qabs_cases a) as [[Ha Ea] | [Ha Ea]];
    destruct (Qabs_cases b) as [[Hb Eb] | [Hb Eb]];
    rewrite Ea, Eb; lra.
Qed.

Lemma userFlowLimit_shrinks (qLimit q : Q) : shrinks (userFlowLimit qLimit q) q.
Proof.
  unfold userFlowLimit, fabs, Qgtb.
  destruct (Qltb_spec 0 qLimit) as [HL | HL]; [| apply shrinks_refl].
  destruct (Qltb_spec qLimit (Qabs q)) as [Hq | Hq]; [| apply shrinks_refl].
  unfold shrinks.
  destruct (SGN_cases q) as [[Hs Es] | [Hs Es]]; rewrite Es;
    destruct (Qabs_cases q) as [[Ha Ea] | [Ha Ea]]; rewrite Ea in Hq;
    (left; lra) || (right; lra).
Qed.

Lemma choke_up_shrinks (F d q : Q) :
  0 <= F -> shrinks (if (q >? F) && (d <=? F) then F else q) q.
Proof.
  intros HF. unfold Qgtb.
  destruct (Qltb_spec F q); destruct (Qleb_spec d F); cbn [andb];
    try apply shrinks_refl.
  left. lra.
Qed.

Lemma choke_down_shrinks (F d q : Q) :
  0 <= F -> shrinks (if (q <? - F) && (d <=? F) then - F else q) q.
Proof.
  intros HF.
  destruct (Qltb_spec q (- F)); destruct (Qleb_spec d F); cbn [andb];
    try apply shrinks_refl.
  right. lra.
Qed.

Lemma dryNodeChoke_shrinks (X' : Externs) (d1 d2 q : Q) :
  0 <= FUDGE X' -> shrinks (dryNodeChoke X' d1 d2 q) q.
Proof.
  intros HF. unfold dryNodeChoke. cbv zeta.
  eapply shrinks_trans; [apply choke_down_shrinks | apply choke_up_shrinks]; assumption.
Qed.

Lemma HALF_MIN_SUBNORMAL_pos : 0 < HALF_MIN_SUBNORMAL.
Proof. reflexivity. Qed.

(** After under-relaxation at [steps > 0] the flow has magnitude 0.001, or
    its product with the previous iterate is not below -2^-1075: it does not
    oppose the previous iterate, or the rounded product is a zero. *)
Lemma underRelax_cases (steps : Z) (omega qLast' qc : Q) :
  (0 < steps)%Z ->
  - HALF_MIN_SUBNORMAL <= underRelax steps omega qLast' qc * qLast'
  \/ Qabs (underRelax steps omega qLast' qc) == 1 # 1000.
Proof.
  intros Hs. unfold underRelax, productIsNegative.
  destruct (Z.gtb_spec steps 0) as [_ | Hn]; [| lia].
  cbv zeta.
  destruct (Qltb_spec (((1 - omega) * qLast' + omega * qc) * qLast')
                      (- HALF_MIN_SUBNORMAL)) as [Hr | Hr].
  - right. destruct (SGN_cases ((1 - omega) * qLast' + omega * qc)) as [[_ Es] | [_ Es]];
      rewrite Es; reflexivity.
  - left. assumption.
Qed.

(** A flow limited without a change of sign has the smaller product with
    [qLast] in magnitude. *)
Lemma shrinks_product (q u qLast' h : Q) :
  shrinks q u -> 0 <= h -> - h <= u * qLast' -> - h <= q * qLast'.
Proof.
  unfold shrinks. intros [[H1 H2] | [H1 H2]] Hh H;
    destruct (Qlt_le_dec qLast' 0) as [Hl | Hl].
  - assert (0 <= (u - q) * (- qLast')) by (apply Qmult_le_0_compat; lra). lra.
  - assert (0 <= q * qLast') by (apply Qmult_le_0_compat; lra). lra.
  - assert (0 <= (- q) * (- qLast')) by (apply Qmult_le_0_compat; lra). lra.
  - assert (0 <= (q - u) * qLast') by (apply Qmult_le_0_compat; lra). lra.
Qed.

Lemma stored_flow_snapped (steps : Z) (omega qLast' qc qLimit d1 d2 : Q) (closed : bool) :
  (0 < steps)%Z -> 0 <= FUDGE X ->
  let q := dryNodeChoke X d1 d2
             (if closed then 0
              else userFlowLimit qLimit (underRelax steps omega qLast' qc)) in
  Qabs q <= 1 # 1000 \/ - HALF_MIN_SUBNORMAL <= q * qLast'.
Proof.
  intros Hs HF q.
  assert (Hsh : shrinks q (underRelax steps omega qLast' qc)).
  { unfold q. eapply shrinks_trans; [apply dryNodeChoke_shrinks; assumption |].
    destruct closed; [apply shrinks_zero | apply userFlowLimit_shrinks]. }
  destruct (underRelax_cases steps omega qLast' qc Hs) as [Hk | Hk].
  - right. pose proof HALF_MIN_SUBNORMAL_pos.
    eapply shrinks_product; [eassumption | lra | assumption].
  - left. rewrite <- Hk. apply shrinks_Qabs. assumption.
Qed.

(** **** Monotone steps of the flow update *)

Lemma userFlowLimit_mono (qLimit b a : Q) :
  shrinks b a -> shrinks (userFlowLimit qLimit b) (userFlowLimit qLimit a).
Proof.
  unfold userFlowLimit, fabs, Qgtb. intros H.
  destruct (Qltb_spec 0 qLimit) as [HL | HL]; [| assumption].
  destruct (Qltb_spec qLimit (Qabs b)) as [Hb | Hb];
    destruct (Qltb_spec qLimit (Qabs a)) as [Ha | Ha];
    destruct (SGN_cases a) as [[Hsa Esa] | [Hsa Esa]];
    destruct (SGN_cases b) as [[Hsb Esb] | [Hsb Esb]];
    try rewrite Esa; try rewrite Esb;
    destruct (Qabs_cases a) as [[Ha0 Ea] | [Ha0 Ea]]; rewrite Ea in Ha;
    destruct (Qabs_cases b) as [[Hb0 Eb] | [Hb0 Eb]]; rewrite Eb in Hb;
    unfold shrinks in *; lra.
Qed.

Lemma choke_up_mono (F d b a : Q) :
  0 <= F -> shrinks b a ->
  shrinks (if (b >? F) && (d <=? F) then F else b) (if (a >? F) && (d <=? F) then F else a).
Proof.
  intros HF H. unfold Qgtb.
  destruct (Qltb_spec F b); destruct (Qltb_spec F a); destruct (Qleb_spec d F);
    cbn [andb]; unfold shrinks in *; lra.
Qed.

Lemma choke_down_mono (F d b a : Q) :
  0 <= F -> shrinks b a ->
  shrinks (if (b <? - F) && (d <=? F) then - F else b)
          (if (a <? - F) && (d <=? F) then - F else a).
Proof.
  intros HF H.
  destruct (Qltb_spec b (- F)); destruct (Qltb_spec a (- F)); destruct (Qleb_spec d F);
    cbn [andb]; unfold shrinks in *; lra.
Qed.

Lemma dryNodeChoke_mono (d1 d2 b a : Q) :
  0 <= FUDGE X -> shrinks b a ->
  shrinks (dryNodeChoke X d1 d2 b) (dryNodeChoke X d1 d2 a).
Proof.
  intros HF H. unfold dryNodeChoke. cbv zeta.
  apply choke_down_mono; [assumption |]. apply choke_up_mono; assumption.
Qed.

Lemma shrinks_mult_abs (b a c : Q) : shrinks b a -> Qabs (b * c) <= Qabs (a * c).
Proof.
  intros H. rewrite !Qabs_Qmult. apply Qmult_le_compat_r.
  - apply shrinks_Qabs. assumption.
  - apply Qabs_nonneg.
Qed.

(** A larger positive denominator gives a quotient between 0 and the
    first one, on the same side of 0. *)
Lemma div_shrinks (n da db : Q) :
  0 < da -> da <= db ->
  shrinks (n / db) (n / da) /\ (0 < n / da -> 0 < n / db).
Proof.
  intros Hda Hdb.
  assert (Hdb0 : 0 < db) by lra.
  assert (Ea : n / da * da == n) by (field; lra).
  assert (Eb : n / db * db == n) by (field; lra).
  destruct (Qlt_le_dec n 0) as [Hn | Hn].
  - assert (Ha : n / da <= 0) by (apply Qle_shift_div_r; lra).
    assert (Hb : n / db <= 0) by (apply Qle_shift_div_r; lra).
    split; [| lra]. right. split; [| assumption].
    apply Qle_shift_div_l; [assumption |].
    assert (0 <= (- (n / da)) * (db - da)) by (apply Qmult_le_0_compat; lra).
    lra.
  - assert (Ha : 0 <= n / da) by (apply Qle_shift_div_l; lra).
    assert (Hb : 0 <= n / db) by (apply Qle_shift_div_l; lra).
    split.
    + left. split; [assumption |].
      apply Qle_shift_div_r; [assumption |].
      assert (0 <= (n / da) * (db - da)) by (apply Qmult_le_0_compat; lra).
      lra.
    + intros Hpos. apply Qlt_shift_div_l; [assumption |].
      assert (0 < n).
      { rewrite <- Ea. apply Qmult_lt_0_compat; assumption. }
      lra.
Qed.

(** The friction term [dq1] is non-negative and grows with the roughness
    factor. *)
Lemma friction_mono (dt rf rf' P A : Q) :
  0 <= dt -> 0 <= rf -> rf <= rf' -> 0 <= P -> 0 <= A ->
  0 <= dt * rf / P * A /\ dt * rf / P * A <= dt * rf' / P * A.
Proof.
  intros Hdt H0 Hle HP HA.
  assert (HPi : 0 <= / P) by (apply Qinv_le_0_compat; assumption).
  unfold Qdiv. split.
  - repeat apply Qmult_le_0_compat; assumption.
  - apply Qmult_le_compat_r; [| assumption].
    apply Qmult_le_compat_r; [| assumption].
    assert (0 <= dt * (rf' - rf)) by (apply Qmult_le_0_compat; lra).
    lra.
Qed.

(** The local-loss sum is non-negative. *)
Lemma losses_nonneg (F c1 c2 c3 q a1 a2 aMid : Q) :
  0 <= F -> 0 <= c1 -> 0 <= c2 -> 0 <= c3 ->
  0 <= (if aMid >? F
        then (if a2 >? F
              then (if a1 >? F then 0 + c1 * (fabs q / a1) else 0) + c2 * (fabs q / a2)
              else (if a1 >? F then 0 + c1 * (fabs q / a1) else 0))
             + c3 * (fabs q / aMid)
        else (if a2 >? F
              then (if a1 >? F then 0 + c1 * (fabs q / a1) else 0) + c2 * (fabs q / a2)
              else (if a1 >? F then 0 + c1 * (fabs q / a1) else 0))).
Proof.
  intros HF H1 H2 H3. unfold Qgtb.
  assert (HQ : 0 <= fabs q) by apply Qabs_nonneg.
  assert (T : forall c a, 0 <= c -> F < a -> 0 <= c * (fabs q / a)).
  { intros c a Hc Ha. apply Qmult_le_0_compat; [assumption |].
    apply Qdiv_nonneg; lra. }
  destruct (Qltb_spec F aMid); destruct (Qltb_spec F a2); destruct (Qltb_spec F a1);
    repeat match goal with
           | H : F < ?a |- context [?c * (fabs q / ?a)] =>
               let N := fresh "N" in
               assert (N : 0 <= c * (fabs q / a)) by (apply T; assumption);
               generalize dependent (c * (fabs q / a)); intros
           end; lra.
Qed.


(** Under-relaxation keeps the order of two flows on the same side of 0
    when it is not applied, or when the larger flow does not oppose
    [qLast] (with a weight between 0 and 1): then no flow is snapped. *)
Lemma underRelax_mono (steps : Z) (omega qLast' qb qa : Q) :
  (steps <= 0)%Z \/ (0 <= omega <= 1 /\ 0 <= qa * qLast') ->
  shrinks qb qa ->
  shrinks (underRelax steps omega qLast' qb) (underRelax steps omega qLast' qa).
Proof.
  intros Ha Hs. unfold underRelax.
  destruct (Z.gtb_spec steps 0) as [Hp | Hp]; [| assumption].
  destruct Ha as [Ha | [[Ho0 Ho1] Hqa]]; [lia |].
  cbv zeta. unfold productIsNegative.
  pose proof HALF_MIN_SUBNORMAL_pos as Hh.
  assert (Hsq : 0 <= qLast' * qLast') by nra.
  assert (H1 : 0 <= (1 - omega) * (qLast' * qLast')) by (apply Qmult_le_0_compat; lra).
  assert (Hqb : 0 <= qb * qLast' /\ shrinks (omega * qb) (omega * qa)).
  { unfold shrinks in *. destruct Hs as [[Hb0 Hba] | [Hab Hb0]].
    - destruct (Qlt_le_dec qLast' 0) as [Hl | Hl].
      + assert (0 <= qa * (- qLast')) by (apply Qmult_le_0_compat; lra).
        assert (0 <= (qa - qb) * (- qLast')) by (apply Qmult_le_0_compat; lra).
        assert (0 <= qb * (- qLast')) by (apply Qmult_le_0_compat; lra).
        assert (0 <= omega * qb) by (apply Qmult_le_0_compat; lra).
        assert (0 <= omega * (qa - qb)) by (apply Qmult_le_0_compat; lra).
        split; [lra | left; lra].
      + assert (0 <= qb * qLast') by (apply Qmult_le_0_compat; lra).
        assert (0 <= omega * qb) by (apply Qmult_le_0_compat; lra).
        assert (0 <= omega * (qa - qb)) by (apply Qmult_le_0_compat; lra).
        split; [lra | left; lra].
    - destruct (Qlt_le_dec 0 qLast') as [Hl | Hl].
      + assert (0 <= (- qa) * qLast') by (apply Qmult_le_0_compat; lra).
        assert (0 <= (qb - qa) * qLast') by (apply Qmult_le_0_compat; lra).
        assert (0 <= (- qb) * qLast') by (apply Qmult_le_0_compat; lra).
        assert (0 <= omega * (- qb)) by (apply Qmult_le_0_compat; lra).
        assert (0 <= omega * (qb - qa)) by (apply Qmult_le_0_compat; lra).
        split; [lra | right; lra].
      + assert (0 <= (- qb) * (- qLast')) by (apply Qmult_le_0_compat; lra).
        assert (0 <= omega * (- qb)) by (apply Qmult_le_0_compat; lra).
        assert (0 <= omega * (qb - qa)) by (apply Qmult_le_0_compat; lra).
        split; [lra | right; lra]. }
  destruct Hqb as [Hqb Hos].
  assert (H2 : 0 <= omega * (qa * qLast')) by (apply Qmult_le_0_compat; lra).
  assert (H3 : 0 <= omega * (qb * qLast')) by (apply Qmult_le_0_compat; lra).
  destruct (Qltb_spec (((1 - omega) * qLast' + omega * qb) * qLast') (- HALF_MIN_SUBNORMAL));
    [lra |].
  destruct (Qltb_spec (((1 - omega) * qLast' + omega * qa) * qLast') (- HALF_MIN_SUBNORMAL));
    [lra |].
  (* both flows are relaxed and not snapped *)
  clear Hos. unfold shrinks in *.
  destruct Hs as [[Hb0 Hba] | [Hab Hb0]].
  - assert (0 <= omega * qb) by (apply Qmult_le_0_compat; lra).
    assert (0 <= omega * (qa - qb)) by (apply Qmult_le_0_compat; lra).
    destruct (Qlt_le_dec qLast' 0) as [Hl | Hl].
    + assert (0 <= (1 - omega) * (- qLast')) by (apply Qmult_le_0_compat; lra).
      assert (Hqa0 : qa == 0).
      { destruct (Qlt_le_dec 0 qa) as [E | E]; [| lra].
        assert (0 < qa * (- qLast')) by (apply Qmult_lt_0_compat; lra). lra. }
      assert (omega * qa == 0) by (rewrite Hqa0; ring).
      right. lra.
    + assert (0 <= (1 - omega) * qLast') by (apply Qmult_le_0_compat; lra).
      left. lra.
  - assert (0 <= omega * (- qb)) by (apply Qmult_le_0_compat; lra).
    assert (0 <= omega * (qb - qa)) by (apply Qmult_le_0_compat; lra).
    destruct (Qlt_le_dec 0 qLast') as [Hl | Hl].
    + assert (0 <= (1 - omega) * qLast') by (apply Qmult_le_0_compat; lra).
      assert (Hqa0 : qa == 0).
      { destruct (Qlt_le_dec qa 0) as [E | E]; [| lra].
        assert (0 < (- qa) * qLast') by (apply Qmult_lt_0_compat; lra). lra. }
      assert (omega * qa == 0) by (rewrite Hqa0; ring).
      left. lra.
    + assert (0 <= (1 - omega) * (- qLast')) by (apply Qmult_le_0_compat; lra).
      right. lra.
Qed.

(** A flap gate that looks at the direction of the flow closes on both
    flows or on neither, unless the smaller one is zero. *)
Lemma gate_shrinks (g g' : bool) (lb la : Q) :
  shrinks lb la ->
  ((0 < la /\ 0 < lb) \/ (la < 0 /\ lb < 0) -> g = g') ->
  shrinks (if g' then 0 else lb) (if g then 0 else la).
Proof.
  unfold shrinks. intros Hs Hg.
  destruct (Qlt_le_dec 0 lb) as [Hp | Hp].
  - assert (E : g = g') by (apply Hg; left; lra). subst g'.
    destruct g; [left; lra | assumption].
  - destruct (Qlt_le_dec lb 0) as [Hn | Hn].
    + assert (E : g = g') by (apply Hg; right; lra). subst g'.
      destruct g; [left; lra | assumption].
    + destruct g, g'; try (left; lra); try (right; lra);
        destruct (Qlt_le_dec la 0); (left; lra) || (right; lra).
Qed.

(** *** Two calls that differ in the roughness factor *)

Lemma map_upd {A B : Type} (f : A -> B) (i : nat) (x : A) (a : list A) :
  map f (upd i x a) = upd i (f x) (map f a).
Proof.
  revert i. induction a as [| h t IH]; intros [| i]; simpl; try reflexivity.
  rewrite IH. reflexivity.
Qed.

Lemma maskLink_idem (l : TLink.t) : maskLink (maskLink l) = maskLink l.
Proof. reflexivity. Qed.

Lemma maskConduit_idem (c : TConduit.t) : maskConduit (maskConduit c) = maskConduit c.
Proof. reflexivity. Qed.

Lemma maskProject_idem (s : SWMM_Project) : maskProject (maskProject s) = maskProject s.
Proof.
  unfold maskProject. simpl. rewrite !map_map.
  f_equal; apply map_ext; intros; reflexivity.
Qed.

Lemma maskProject_plug (s : SWMM_Project) (i : nat) (l : TLink.t) (k' : nat) (c : TConduit.t) :
  maskProject (plug s i l k' c) = plug (maskProject s) i (maskLink l) k' (maskConduit c).
Proof. unfold maskProject, plug, set_Conduit, set_Link. simpl. rewrite !map_upd. reflexivity. Qed.

(** **** Rules for two calls side by side *)

Lemma relI_ret {A B : Type} (R : A -> B -> Prop) (a : A) (b : B) :
  R a b -> relI j l0 R (ret a) (ret b).
Proof.
  intros HR s s' a' t b' t' HI Ha Hb. inversion Ha; inversion Hb; subst. auto.
Qed.

Lemma relI_bind {A A' B B' : Type} (R1 : A -> A' -> Prop) (R2 : B -> B' -> Prop)
  (m : M A) (m' : M A') (f : A -> M B) (f' : A' -> M B') :
  relI j l0 R1 m m' ->
  (forall a a', R1 a a' -> relI j l0 R2 (f a) (f' a')) ->
  relI j l0 R2 (bind m f) (bind m' f').
Proof.
  intros Hm Hf s s' b t b' t' HI Hb Hb'. unfold bind in Hb, Hb'.
  destruct (m s) as [[a s1] |] eqn:E; [| discriminate].
  destruct (m' s') as [[a' s1'] |] eqn:E'; [| discriminate].
  destruct (Hm s s' a s1 a' s1' HI E E') as [HR HI1].
  exact (Hf a a' HR s1 s1' b t b' t' HI1 Hb Hb').
Qed.

Lemma rel_bind {A A' B B' : Type} (R1 : A -> A' -> Prop)
  (Post : B -> SWMM_Project -> B' -> SWMM_Project -> Prop)
  (m : M A) (m' : M A') (f : A -> M B) (f' : A' -> M B') :
  relI j l0 R1 m m' ->
  (forall a a', R1 a a' -> rel (rougher j l0) (f a) (f' a') Post) ->
  rel (rougher j l0) (bind m f) (bind m' f') Post.
Proof.
  intros Hm Hf s s' b t b' t' HI Hb Hb'. unfold bind in Hb, Hb'.
  destruct (m s) as [[a s1] |] eqn:E; [| discriminate].
  destruct (m' s') as [[a' s1'] |] eqn:E'; [| discriminate].
  destruct (Hm s s' a s1 a' s1' HI E E') as [HR HI1].
  exact (Hf a a' HR s1 s1' b t b' t' HI1 Hb Hb').
Qed.

(** After a step whose effect is not tracked, any starting states. *)
Lemma rel_bind_any {A A' B B' : Type} (Pre : SWMM_Project -> SWMM_Project -> Prop)
  (Post : B -> SWMM_Project -> B' -> SWMM_Project -> Prop)
  (m : M A) (m' : M A') (f : A -> M B) (f' : A' -> M B') :
  (forall a a', rel (fun _ _ => True) (f a) (f' a') Post) ->
  rel Pre (bind m f) (bind m' f') Post.
Proof.
  intros Hf s s' b t b' t' HI Hb Hb'. unfold bind in Hb, Hb'.
  destruct (m s) as [[a s1] |] eqn:E; [| discriminate].
  destruct (m' s') as [[a' s1'] |] eqn:E'; [| discriminate].
  exact (Hf a a' s1 s1' b t b' t' I Hb Hb').
Qed.

Lemma rel_weaken {A B : Type} (Pre : SWMM_Project -> SWMM_Project -> Prop)
  (Post : A -> SWMM_Project -> B -> SWMM_Project -> Prop) (m : M A) (m' : M B) :
  rel (fun _ _ => True) m m' Post -> rel Pre m m' Post.
Proof. intros H s s' a t b t' _ Ha Hb. exact (H s s' a t b t' I Ha Hb). Qed.

Lemma relI_weaken {A B : Type} (R R' : A -> B -> Prop) (m : M A) (m' : M B) :
  (forall a b, R a b -> R' a b) -> relI j l0 R m m' -> relI j l0 R' m m'.
Proof.
  intros HR H s s' a t b t' HI Ha Hb.
  destruct (H s s' a t b t' HI Ha Hb). auto.
Qed.

Lemma relI_if {A B : Type} (R : A -> B -> Prop) (c : bool) (m1 m2 : M A) (m1' m2' : M B) :
  relI j l0 R m1 m1' -> relI j l0 R m2 m2' ->
  relI j l0 R (if c then m1 else m2) (if c then m1' else m2').
Proof. destruct c; auto. Qed.

Lemma rougher_Link (s s' : SWMM_Project) (l l' : TLink.t) :
  rougher j l0 s s' -> nth_error (Link s) j = Some l -> nth_error (Link s') j = Some l' ->
  maskLink l = maskLink l' /\ blankOutputs l = blankOutputs l0.
Proof.
  intros (Hm & Hl & _) E E'. split; [| auto].
  assert (H : nth_error (Link (maskProject s)) j = nth_error (Link (maskProject s')) j)
    by (rewrite Hm; reflexivity).
  unfold maskProject in H. simpl in H. rewrite !nth_error_map, E, E' in H.
  simpl in H. congruence.
Qed.

Lemma rougher_Conduit (s s' : SWMM_Project) (c c' : TConduit.t) :
  rougher j l0 s s' ->
  nth_error (Conduit s) k0 = Some c -> nth_error (Conduit s') k0 = Some c' ->
  maskConduit c = maskConduit c'
  /\ 0 <= TConduit.roughFactor c /\ TConduit.roughFactor c <= TConduit.roughFactor c'.
Proof.
  intros (Hm & _ & Hc) E E'. split; [| auto].
  assert (H : nth_error (Conduit (maskProject s)) k0 = nth_error (Conduit (maskProject s')) k0)
    by (rewrite Hm; reflexivity).
  unfold maskProject in H. simpl in H. rewrite !nth_error_map, E, E' in H.
  simpl in H. congruence.
Qed.

Lemma rougher_Node (s s' : SWMM_Project) : rougher j l0 s s' -> Node s = Node s'.
Proof.
  intros (Hm & _). change (Node (maskProject s) = Node (maskProject s')).
  rewrite Hm. reflexivity.
Qed.

Lemma relI_getLink :
  relI j l0 (fun l l' => maskLink l = maskLink l' /\ blankOutputs l = blankOutputs l0) (getLink j) (getLink j).
Proof.
  intros s s' l t l' t' HI Ha Hb. unfold getLink in Ha, Hb.
  destruct (nth_error (Link s) j) eqn:E; [| discriminate].
  destruct (nth_error (Link s') j) eqn:E'; [| discriminate].
  inversion Ha; inversion Hb; subst. split; [| assumption].
  eapply rougher_Link; eassumption.
Qed.

Lemma relI_getConduit :
  relI j l0 (fun c c' => maskConduit c = maskConduit c'
                         /\ 0 <= TConduit.roughFactor c
                         /\ TConduit.roughFactor c <= TConduit.roughFactor c')
       (getConduit k0) (getConduit k0).
Proof.
  intros s s' c t c' t' HI Ha Hb. unfold getConduit in Ha, Hb.
  destruct (nth_error (Conduit s) k0) eqn:E; [| discriminate].
  destruct (nth_error (Conduit s') k0) eqn:E'; [| discriminate].
  inversion Ha; inversion Hb; subst. split; [| assumption].
  eapply rougher_Conduit; eassumption.
Qed.

Lemma relI_getNode (n : nat) : relI j l0 eq (getNode n) (getNode n).
Proof.
  intros s s' a t b t' HI Ha Hb. unfold getNode in Ha, Hb.
  rewrite <- (rougher_Node s s' HI) in Hb.
  destruct (nth_error (Node s) n); [| discriminate].
  inversion Ha; inversion Hb; subst. auto.
Qed.

Lemma relI_gets {A B : Type} (R : A -> B -> Prop)
  (g : SWMM_Project -> A) (g' : SWMM_Project -> B) :
  (forall s s', maskProject s = maskProject s' -> R (g s) (g' s')) ->
  relI j l0 R (gets g) (gets g').
Proof.
  intros H s s' a t b t' HI Ha Hb. inversion Ha; inversion Hb; subst.
  split; [apply H; apply HI | assumption].
Qed.

Lemma nth_error_upd_inv {A : Type} (a : list A) (i : nat) (x y : A) :
  nth_error (upd i x a) i = Some y -> y = x.
Proof.
  revert i. induction a as [| h t IH]; intros [| i] H; simpl in *; try discriminate.
  - congruence.
  - apply IH with i. assumption.
Qed.

Lemma relI_modLink (g g' : TLink.t -> TLink.t) :
  (forall l l', maskLink l = maskLink l' -> maskLink (g l) = maskLink (g' l')) ->
  (forall l, blankOutputs (g l) = blankOutputs l) ->
  relI j l0 (fun _ _ => True) (modLink j g) (modLink j g').
Proof.
  intros Hg Hn s s' a t b t' HI Ha Hb. unfold modLink in Ha, Hb.
  destruct (nth_error (Link s) j) as [l |] eqn:E; [| discriminate].
  destruct (nth_error (Link s') j) as [l' |] eqn:E'; [| discriminate].
  inversion Ha; inversion Hb; subst. split; [exact I |].
  destruct (rougher_Link s s' l l' HI E E') as [Hml Hln].
  destruct HI as (Hm & Hl & Hc). split; [| split].
  - unfold maskProject, set_Link in *. simpl. rewrite !map_upd.
    injection Hm as H1 H2 H3 H4 H5. rewrite H1, H2, H3, H4, H5, (Hg l l' Hml).
    reflexivity.
  - intros x Hx. simpl in Hx. apply nth_error_upd_inv in Hx. subst x.
    rewrite Hn. apply Hl. assumption.
  - exact Hc.
Qed.

(** A write on one side only, to a blanked field. *)
Lemma relI_modLink_left (g : TLink.t -> TLink.t) :
  (forall l, maskLink (g l) = maskLink l) ->
  (forall l, blankOutputs (g l) = blankOutputs l) ->
  relI j l0 (fun _ _ => True) (modLink j g) (ret tt).
Proof.
  intros Hg Hn s s' a t b t' HI Ha Hb. unfold modLink in Ha.
  destruct (nth_error (Link s) j) as [l |] eqn:E; [| discriminate].
  inversion Ha; inversion Hb; subst. split; [exact I |].
  destruct HI as (Hm & Hl & Hc). split; [| split].
  - rewrite <- Hm. unfold maskProject, set_Link. simpl. rewrite map_upd, Hg.
    rewrite upd_self; [reflexivity |]. rewrite nth_error_map, E. reflexivity.
  - intros x Hx. simpl in Hx. apply nth_error_upd_inv in Hx. subst x.
    rewrite Hn. apply Hl. assumption.
  - exact Hc.
Qed.

Lemma relI_modLink_right (g : TLink.t -> TLink.t) :
  (forall l, maskLink (g l) = maskLink l) ->
  relI j l0 (fun _ _ => True) (ret tt) (modLink j g).
Proof.
  intros Hg s s' a t b t' HI Ha Hb. unfold modLink in Hb.
  destruct (nth_error (Link s') j) as [l |] eqn:E; [| discriminate].
  inversion Ha; inversion Hb; subst. split; [exact I |].
  destruct HI as (Hm & Hl & Hc). split; [| split].
  - rewrite Hm. unfold maskProject, set_Link. simpl. rewrite map_upd, Hg.
    rewrite upd_self; [reflexivity |]. rewrite nth_error_map, E. reflexivity.
  - exact Hl.
  - exact Hc.
Qed.

(** The last write of a call: what the link holds afterwards. *)
Lemma rel_modLink_last (Pre : SWMM_Project -> SWMM_Project -> Prop)
  (g g' : TLink.t -> TLink.t) :
  rel Pre (modLink j g) (modLink j g')
      (fun _ t _ t' => exists l l', nth_error (Link t) j = Some (g l)
                                    /\ nth_error (Link t') j = Some (g' l')).
Proof.
  intros s s' a t b t' _ Ha Hb. unfold modLink in Ha, Hb.
  destruct (nth_error (Link s) j) as [l |] eqn:E; [| discriminate].
  destruct (nth_error (Link s') j) as [l' |] eqn:E'; [| discriminate].
  inversion Ha; inversion Hb; subst. exists l, l'. simpl.
  split; eapply nth_error_upd_same; eassumption.
Qed.

Section Fixed.

Hypothesis Hread : helpersReadInputs X.
Hypothesis Hgate : flapGateByDirection X.
Hypothesis Hculv : culvertInflowMonotone X.

(** Records in normal form: projections of updated records are reduced. *)
Ltac norm_rec :=
  cbn beta iota delta [maskLink maskConduit TLink.node1 TLink.node2 TLink.subIndex TLink.xsect
       TLink.offset1 TLink.offset2 TLink.setting TLink.oldFlow TLink.qLimit
       TLink.cLossInlet TLink.cLossOutlet TLink.cLossAvg TLink.flowClass TLink.froude
       TLink.newDepth TLink.newVolume TLink.newFlow TLink.dqdh TLink.surfArea1
       TLink.surfArea2 TLink.inletControl TLink.normalFlow TLink.set_flowClass
       TLink.set_froude TLink.set_newDepth TLink.set_newVolume TLink.set_newFlow
       TLink.set_dqdh TLink.set_surfArea1 TLink.set_surfArea2 TLink.set_inletControl
       TLink.set_normalFlow TConduit.barrels TConduit.modLength TConduit.roughFactor
       TConduit.beta TConduit.hasLosses TConduit.q1 TConduit.q2 TConduit.a1 TConduit.a2
       TConduit.fullState TConduit.set_q1 TConduit.set_q2 TConduit.set_a1
       TConduit.set_fullState TConduit.set_roughFactor].

(** Two link (conduit) records with the same inputs, as one record up to
    the blanked fields. *)
Ltac use_link :=
  match goal with
  | H : maskLink ?l = maskLink ?l' /\ blankOutputs ?l = _ |- _ =>
      let E := fresh "E" in
      let N := fresh "Hloss" in
      destruct H as [E N]; destruct l, l'; unfold maskLink in E; cbn in E;
      injection E; intros; subst; clear E;
      unfold blankOutputs in N; cbn in N; injection N; intros; subst; clear N
  end.

Ltac use_conduit :=
  match goal with
  | H : maskConduit ?c = maskConduit ?c' /\ _ |- _ =>
      let E := fresh "E" in
      let N := fresh "Hrough" in
      destruct H as [E N]; destruct c, c'; unfold maskConduit in E; cbn in E;
      injection E; intros; subst; clear E; cbn in N
  end.

(** A helper or a global flag read in two projects with the same inputs. *)
Ltac rsame :=
  first
    [ apply Hread; assumption
    | match goal with
      | E : maskProject ?s = maskProject ?s' |- InertDamping ?s = InertDamping ?s' =>
          change (InertDamping (maskProject s) = InertDamping (maskProject s'));
          rewrite E; reflexivity
      | E : maskProject ?s = maskProject ?s' |- NormalFlowLtd ?s = NormalFlowLtd ?s' =>
          change (NormalFlowLtd (maskProject s) = NormalFlowLtd (maskProject s'));
          rewrite E; reflexivity
      end ].

(** A write that keeps the inputs the same on both sides. *)
Ltac rmask :=
  let l := fresh "l" in
  let l' := fresh "l" in
  let E := fresh "E" in
  intros l l' E; destruct l, l'; unfold maskLink in E |- *; cbn in E |- *;
  injection E; intros; subst; reflexivity.

Ltac rwalk1 :=
  lazymatch goal with
  | |- relI _ _ _ (bind (getLink _) _) (bind (getLink _) _) =>
      eapply relI_bind;
      [apply relI_getLink
      | let H := fresh "HR" in intros ? ? H; cbv beta in H; use_link; norm_rec]
  | |- relI _ _ _ (bind (getConduit _) _) (bind (getConduit _) _) =>
      eapply relI_bind;
      [apply relI_getConduit
      | let H := fresh "HR" in intros ? ? H; cbv beta in H; use_conduit; norm_rec]
  | |- relI _ _ _ (bind (getNode _) _) (bind (getNode _) _) =>
      eapply (relI_bind eq); [apply relI_getNode | intros ? ? ?; subst]
  | |- relI _ _ _ (bind (gets _) _) (bind (gets _) _) =>
      eapply (relI_bind eq); [apply relI_gets; intros; rsame | intros ? ? ?; subst]
  | |- relI _ _ _ (bind (modLink _ _) _) (bind (modLink _ _) _) =>
      eapply relI_bind;
      [apply relI_modLink; [rmask | intros; reflexivity] | intros _ _ _]
  | |- relI _ _ _ (bind (ret _) _) (bind (ret _) _) =>
      eapply (relI_bind eq); [apply relI_ret; reflexivity | intros ? ? ?; subst]
  | |- relI _ _ _ (if _ then _ else _) (if _ then _ else _) => apply relI_if
  | |- relI _ _ _ (ret _) (ret _) => apply relI_ret; reflexivity
  | |- relI _ _ _ (gets _) (gets _) => apply relI_gets; intros; rsame
  | |- relI _ _ _ (match ?r with (_, _) => _ end) _ => destruct r
  | |- relI _ _ _ (match ?fc with DRY => _ | _ => _ end) _ => destruct fc
  | |- relI _ _ _ (bind (match ?fc with DRY => _ | _ => _ end) _) _ => destruct fc
  | |- relI _ _ _ (bind _ _) (bind _ _) =>
      eapply (relI_bind eq); [| intros ? ? ?; subst]
  end.

Ltac rwalk := repeat rwalk1.

Lemma getWidth_rel (xs : TXsect.t) (y : Q) :
  relI j l0 eq (getWidth X xs y) (getWidth X xs y).
Proof. unfold getWidth. cbv zeta. rwalk. Qed.

Lemma getArea_rel (xs : TXsect.t) (y : Q) :
  relI j l0 eq (getArea X xs y) (getArea X xs y).
Proof. unfold getArea. cbv zeta. rwalk. Qed.

Lemma getHydRad_rel (xs : TXsect.t) (y : Q) :
  relI j l0 eq (getHydRad X xs y) (getHydRad X xs y).
Proof. unfold getHydRad. cbv zeta. rwalk. Qed.

Lemma getFlowClass_rel (q h1 h2 y1 y2 yC yN : Q) :
  relI j l0 eq (getFlowClass X j q h1 h2 y1 y2 yC yN)
       (getFlowClass X j q h1 h2 y1 y2 yC yN).
Proof. unfold getFlowClass. cbv zeta. rwalk. Qed.

Ltac rcall :=
  lazymatch goal with
  | |- relI _ _ _ (getWidth _ _ _) _ => apply getWidth_rel
  | |- relI _ _ _ (getArea _ _ _) _ => apply getArea_rel
  | |- relI _ _ _ (getHydRad _ _ _) _ => apply getHydRad_rel
  | |- relI _ _ _ (getFlowClass _ _ _ _ _ _ _ _ _) _ => apply getFlowClass_rel
  end.

Lemma findSurfArea_rel (q len h1 h2 y1 y2 : Q) :
  relI j l0 eq (findSurfArea X j q len h1 h2 y1 y2) (findSurfArea X j q len h1 h2 y1 y2).
Proof. unfold findSurfArea. cbv zeta. repeat first [rcall | rwalk1]. Qed.

(** The set-up part does not read the roughness factor: the two calls
    compute the same local values. *)
Lemma conduitSetup_rel : relI j l0 eq (conduitSetup X j) (conduitSetup X j).
Proof.
  unfold conduitSetup. cbv zeta.
  repeat first [rcall | apply findSurfArea_rel | rwalk1].
Qed.

Ltac rwalk_all := repeat first [rcall | apply findSurfArea_rel | rwalk1].

(** The rules for a goal about the final states. *)
Ltac pwalk1 :=
  lazymatch goal with
  | |- rel _ (bind (getLink _) _) (bind (getLink _) _) _ =>
      eapply rel_bind;
      [apply relI_getLink
      | let H := fresh "HR" in intros ? ? H; cbv beta in H; use_link; norm_rec]
  | |- rel _ (bind (getConduit _) _) (bind (getConduit _) _) _ =>
      eapply rel_bind;
      [apply relI_getConduit
      | let H := fresh "HR" in intros ? ? H; cbv beta in H; use_conduit; norm_rec]
  | |- rel _ (bind (getNode _) _) (bind (getNode _) _) _ =>
      eapply (rel_bind eq); [apply relI_getNode | intros ? ? ?; subst]
  | |- rel _ (bind (gets _) _) (bind (gets _) _) _ =>
      eapply (rel_bind eq); [apply relI_gets; intros; rsame | intros ? ? ?; subst]
  | |- rel _ (bind (modLink _ _) _) (bind (modLink _ _) _) _ =>
      eapply rel_bind;
      [apply relI_modLink; [rmask | intros; reflexivity] | intros _ _ _]
  end.


(** The last write of the call stores the flow. *)
Lemma rel_newFlow_last (Pre : SWMM_Project -> SWMM_Project -> Prop) (qa qb : Q) :
  Qabs qb <= Qabs qa ->
  rel Pre (modLink j (TLink.set_newFlow qa)) (modLink j (TLink.set_newFlow qb))
      (fun _ t _ t' => flowNotLarger j t t').
Proof.
  intros H s s' a t b t' HP Ha Hb la lb Ela Elb.
  destruct (rel_modLink_last Pre _ _ s s' a t b t' HP Ha Hb) as (l & l' & E & E').
  rewrite E in Ela. rewrite E' in Elb.
  injection Ela as <-. injection Elb as <-.
  destruct l, l'. exact H.
Qed.

(** The momentum equation: the rougher conduit gets the flow that is
    closer to 0, on the same side. *)
Lemma momentumEquation_rel (dt : Q) (v : Locals) :
  k v = k0 ->
  (TXsect.type (TLink.xsect l0) =? FORCE_MAIN X)%Z && isFull v = false ->
  lossesNonneg l0 -> 0 <= dt -> 0 <= FUDGE X -> (forall x y, 0 <= pow X x y) ->
  0 <= length v ->
  relI j l0 (fun qa qb => shrinks qb qa /\ (0 < qa -> 0 < qb))
       (momentumEquation X j dt v) (momentumEquation X j dt v).
Proof.
  intros Ek Hnf Hloss Hdt HF Hpow Hlen. unfold momentumEquation. rewrite Ek. cbv zeta.
  rwalk1. rwalk1. rwalk1.
  eapply (relI_bind (fun _ _ => True)).
  { apply relI_if; [apply relI_modLink; [rmask | intros; reflexivity] | apply relI_ret; exact I]. }
  intros _ _ _.
  rwalk1. rwalk1.
  rewrite Hnf.
  eapply (relI_bind (fun d d' => 0 <= d /\ d <= d')).
  { eapply relI_bind; [apply relI_getConduit |].
    intros c c' (_ & H0 & Hle). apply relI_ret.
    apply friction_mono; auto. apply Qabs_nonneg. }
  intros dq1 dq1' [Hdq1 Hdq1'].
  rwalk1.
  eapply (relI_bind (fun d d' => d = d' /\ 0 <= d)).
  { apply relI_if; [| apply relI_ret; split; [reflexivity | lra]].
    eapply (relI_bind (fun a b => a = b /\ 0 <= a)).
    - unfold findLocalLosses. cbv zeta. rwalk1.
      apply relI_ret. split; [reflexivity |].
      destruct Hloss as (L1 & L2 & L3). apply losses_nonneg; assumption.
    - intros ll ? [<- Hll]. apply relI_ret. split; [reflexivity |].
      apply Qmult_le_0_compat; [| assumption].
      apply Qdiv_nonneg; [| assumption].
      apply Qdiv_nonneg; [assumption | lra]. }
  intros dq5 ? [<- Hdq5].
  rwalk1. rwalk1. rwalk1.
  apply relI_ret.
  match goal with
  | |- shrinks (?n / ?db) (_ / ?da) /\ _ => apply (div_shrinks n da db); lra
  end.
Qed.

Lemma blankOutputs_mask (l : TLink.t) : blankOutputs (maskLink l) = blankOutputs l.
Proof. destruct l. reflexivity. Qed.

(** Two states of the two calls are related when their links and conduits
    are. *)
Lemma rougher_plug (l l' : TLink.t) (c c' : TConduit.t) :
  maskLink l = maskLink l' -> blankOutputs l = blankOutputs l0 ->
  maskConduit c = maskConduit c' ->
  0 <= TConduit.roughFactor c -> TConduit.roughFactor c <= TConduit.roughFactor c' ->
  rougher j l0 (plug sp j l k0 c) (plug sp j l' k0 c').
Proof.
  intros Hl Hb Hc H0 Hle. split; [| split].
  - rewrite !maskProject_plug, Hl, Hc. reflexivity.
  - intros x Hx. rewrite plug_Link in Hx. injection Hx as <-. assumption.
  - intros x x' Hx Hx'. rewrite plug_Conduit in Hx, Hx'.
    injection Hx as <-. injection Hx' as <-. split; assumption.
Qed.

Lemma blank_inputs (l : TLink.t) :
  blankOutputs l = blankOutputs l0 ->
  TLink.node1 l = TLink.node1 l0 /\ TLink.node2 l = TLink.node2 l0
  /\ TLink.subIndex l = TLink.subIndex l0.
Proof.
  intros H. destruct l, l0. unfold blankOutputs in H. cbn in H.
  injection H; intros; subst. repeat split.
Qed.

(** The flow limitations in the two calls: the inlet control caps the
    smaller flow at least as much; the normal-flow check, triggered alike,
    keeps the order. *)
Lemma flowLimitation_pair (v : Locals) (qa qb : Q) (la lb : TLink.t) (c c' : TConduit.t) :
  maskLink la = maskLink lb -> blankOutputs la = blankOutputs l0 ->
  maskConduit c = maskConduit c' ->
  shrinks qb qa -> (0 < qa -> 0 < qb) ->
  froudeTrigger X (NormalFlowLtd sp)
    (isOutfall (TNode.type nd1) || isOutfall (TNode.type nd2)) (y1 v) (y2 v)
    (link_getFroude X (plug sp j la k0 c) j (qa / a1 v) (y1 v))
  = froudeTrigger X (NormalFlowLtd sp)
      (isOutfall (TNode.type nd1) || isOutfall (TNode.type nd2)) (y1 v) (y2 v)
      (link_getFroude X (plug sp j lb k0 c') j (qb / a1 v) (y1 v)) ->
  exists qa' qb' la' lb',
    flowLimitation X j v qa (plug sp j la k0 c) = Some (qa', plug sp j la' k0 c)
    /\ flowLimitation X j v qb (plug sp j lb k0 c') = Some (qb', plug sp j lb' k0 c')
    /\ shrinks qb' qa'
    /\ maskLink la' = maskLink lb' /\ blankOutputs la' = blankOutputs l0.
Proof.
  intros Hm Hb Hc Hs Hpos Hfr.
  assert (Hb' : blankOutputs lb = blankOutputs l0).
  { rewrite <- (blankOutputs_mask lb), <- Hm, blankOutputs_mask. assumption. }
  destruct (blank_inputs la Hb) as (A1 & A2 & A3).
  destruct (blank_inputs lb Hb') as (B1 & B2 & B3).
  rewrite (flowLimitation_run v qa la c A1 A2 A3).
  rewrite (flowLimitation_run v qb lb c' B1 B2 B3). cbv zeta.
  assert (Ex : TLink.xsect la = TLink.xsect lb).
  { apply (f_equal TLink.xsect) in Hm. destruct la, lb. exact Hm. }
  assert (Ef : TLink.flowClass la = TLink.flowClass lb).
  { apply (f_equal TLink.flowClass) in Hm. destruct la, lb. exact Hm. }
  assert (Eb : TConduit.beta c = TConduit.beta c').
  { apply (f_equal TConduit.beta) in Hc. destruct c, c'. exact Hc. }
  set (la1 := TLink.set_normalFlow false (TLink.set_inletControl false la)).
  set (lb1 := TLink.set_normalFlow false (TLink.set_inletControl false lb)).
  assert (Hm1 : maskLink la1 = maskLink lb1).
  { unfold la1, lb1. destruct la, lb. exact Hm. }
  assert (Hb1 : blankOutputs la1 = blankOutputs l0).
  { unfold la1. destruct la. exact Hb. }
  assert (HP : forall x x' y y',
             maskLink x = maskLink x' -> maskLink y = maskLink y' ->
             maskProject (plug sp j x k0 c) = maskProject (plug sp j y k0 c') ->
             maskProject (plug sp j x' k0 c) = maskProject (plug sp j y' k0 c')).
  { intros x x' y y' E1 E2. rewrite !maskProject_plug. rewrite E1, E2. auto. }
  assert (Hmp : maskProject (plug sp j la1 k0 c) = maskProject (plug sp j lb1 k0 c')).
  { rewrite !maskProject_plug, Hm1, Hc. reflexivity. }
  rewrite <- Ex, <- Ef, <- Eb.
  unfold Qgtb.
  destruct (Qltb_spec 0 qa) as [Pa | Pa]; destruct (Qltb_spec 0 qb) as [Pb | Pb].
  - destruct ((TXsect.culvertCode (TLink.xsect la) >? 0)%Z && negb (isFull v)).
    + do 4 eexists. split; [reflexivity |]. split; [reflexivity |].
      assert (Eq : fst (culvert_getInflow X (plug sp j lb1 k0 c') j qb (h1 v))
                   = fst (culvert_getInflow X (plug sp j la1 k0 c) j qb (h1 v))).
      { symmetry. apply Hread. exact Hmp. }
      rewrite Eq.
      assert (Hle : qb <= qa) by (unfold shrinks in Hs; lra).
      destruct (Hculv (plug sp j la1 k0 c) j (h1 v) qa qb Pb Hle) as [C1 C2].
      split; [left; split; assumption |].
      split.
      * destruct (snd (culvert_getInflow X (plug sp j la1 k0 c) j qa (h1 v)));
          destruct (snd (culvert_getInflow X (plug sp j lb1 k0 c') j qb (h1 v)));
          unfold la1, lb1; destruct la, lb; exact Hm.
      * destruct (snd (culvert_getInflow X (plug sp j la1 k0 c) j qa (h1 v)));
          unfold la1; destruct la; exact Hb.
    + destruct ((y1 v <? TXsect.yFull (TLink.xsect la))
                && (FlowClass_eqb (TLink.flowClass la) SUBCRITICAL
                    || FlowClass_eqb (TLink.flowClass la) SUPCRITICAL)).
      * assert (EA : link_getFroude X (plug sp j la1 k0 c) j (qa / a1 v) (y1 v)
                     = link_getFroude X (plug sp j la k0 c) j (qa / a1 v) (y1 v)).
        { apply Hread. rewrite !maskProject_plug. unfold la1. destruct la. reflexivity. }
        assert (EB : link_getFroude X (plug sp j lb1 k0 c') j (qb / a1 v) (y1 v)
                     = link_getFroude X (plug sp j lb k0 c') j (qb / a1 v) (y1 v)).
        { apply Hread. rewrite !maskProject_plug. unfold lb1. destruct lb. reflexivity. }
        rewrite EA, EB, <- Hfr.
        set (trig := slopeTrigger (NormalFlowLtd sp)
                       (isOutfall (TNode.type nd1) || isOutfall (TNode.type nd2))
                       (y1 v) (y2 v)
                     || froudeTrigger X (NormalFlowLtd sp)
                          (isOutfall (TNode.type nd1) || isOutfall (TNode.type nd2))
                          (y1 v) (y2 v)
                          (link_getFroude X (plug sp j la k0 c) j (qa / a1 v) (y1 v))).
        set (qNorm := TConduit.beta c * a1 v * pow X (r1 v) (2 # 3)).
        destruct trig; cbn [andb].
        -- destruct (Qltb_spec qNorm qa) as [Na | Na];
             destruct (Qltb_spec qNorm qb) as [Nb | Nb];
             do 4 eexists; (split; [reflexivity |]); (split; [reflexivity |]).
           ++ split; [apply shrinks_refl |].
              split; [unfold la1, lb1; destruct la, lb; exact Hm
                     | unfold la1; destruct la; exact Hb].
           ++ split; [left; lra |].
              split; [unfold la1, lb1; destruct la, lb; exact Hm
                     | unfold la1; destruct la; exact Hb].
           ++ exfalso. unfold shrinks in Hs. lra.
           ++ split; [assumption |]. split; assumption.
        -- do 4 eexists. split; [reflexivity |]. split; [reflexivity |].
           split; [assumption |]. split; assumption.
      * do 4 eexists. split; [reflexivity |]. split; [reflexivity |].
        split; [assumption |]. split; assumption.
  - exfalso. apply Hpos in Pa. lra.
  - exfalso. unfold shrinks in Hs. lra.
  - do 4 eexists. split; [reflexivity |]. split; [reflexivity |].
    split; [assumption |]. split; assumption.
Qed.

(** From the under-relaxation to the end: the rougher conduit stores the
    flow that is not larger. *)
Lemma relaxAndSave_rel (steps : Z) (omega : Q) (v : Locals) (qa qb : Q) :
  k v = k0 -> 0 <= FUDGE X ->
  shrinks qb qa ->
  (steps <= 0)%Z \/ (0 <= omega <= 1 /\ 0 <= qa * qLast v) ->
  rel (rougher j l0) (relaxAndSave X j steps omega v qa) (relaxAndSave X j steps omega v qb)
      (fun _ t _ t' => flowNotLarger j t t').
Proof.
  intros Ek HF Hs Ha. unfold relaxAndSave. rewrite Ek. cbv zeta.
  pose proof (underRelax_mono steps omega (qLast v) qb qa Ha Hs) as Hu.
  set (ua := underRelax steps omega (qLast v) qa) in *.
  set (ub := underRelax steps omega (qLast v) qb) in *.
  clearbody ua ub.
  pwalk1.
  match goal with
  | |- context [userFlowLimit ?lim ua] =>
      pose proof (userFlowLimit_mono lim ub ua Hu) as Hl;
      set (fa := userFlowLimit lim ua) in *; set (fb := userFlowLimit lim ub) in *;
      clearbody fa fb
  end.
  eapply (rel_bind (fun g g' => shrinks (if g' : bool then 0 else fb)
                                        (if g : bool then 0 else fa))).
  { apply relI_gets. intros s s' Hmask. apply gate_shrinks; [assumption |].
    intros Hdir.
    transitivity (link_setFlapGate X s j (n1 v) (n2 v) fb).
    - apply Hgate. destruct Hdir as [[? ?] | [? ?]]; [left | right]; split; assumption.
    - apply Hread. assumption. }
  intros closed closed' Hc.
  pwalk1. pwalk1.
  do 5 (apply rel_bind_any; intros _ _).
  apply rel_bind_any; intros len len'.
  apply rel_bind_any; intros _ _.
  apply rel_newFlow_last.
  apply shrinks_mult_abs. apply dryNodeChoke_mono; assumption.
Qed.

(** **** The whole call *)

(** The zero-flow exit stores the flow 0 in both calls. *)
Lemma zeroFlow_rel (Pre : SWMM_Project -> SWMM_Project -> Prop) (dt : Q) (v v' : Locals) :
  rel Pre (zeroFlow X j dt v) (zeroFlow X j dt v') (fun _ t _ t' => flowNotLarger j t t').
Proof.
  unfold zeroFlow.
  apply rel_bind_any; intros _ _.
  repeat (apply rel_bind_any; intros ? ?).
  apply rel_newFlow_last. apply Qle_refl.
Qed.

(** A call for link [j] returns, whatever the contents of its conduit. *)
Lemma dwflow_returns (steps : Z) (omega dt : Q) (c : TConduit.t) :
  exists v l1 l' c',
    conduitSetup X j (plug sp j l0 k0 c) = Some (v, plug sp j l1 k0 c)
    /\ k v = k0 /\ length v = TConduit.modLength c
    /\ dwflow_findConduitFlow X j steps omega dt (plug sp j l0 k0 c)
       = Some (tt, plug sp j l' k0 c').
Proof.
  destruct (conduitSetup_run c)
    as (fc & sa1 & sa2 & h1' & h2' & y1' & y2' & a1' & a2' & r1' & aMid' & rMid' & Hset).
  unfold dwflow_findConduitFlow. rewrite (bind_run _ _ _ _ _ Hset). rewrite run_getLink.
  match goal with
  | |- context [if ?b then _ else _] => destruct b
  end.
  - match goal with
    | |- context [zeroFlow X j dt ?v (plug sp j ?l k0 c)] =>
        destruct (zeroFlow_run dt v l c eq_refl) as [vol Hz]
    end.
    do 4 eexists. split; [exact Hset |]. repeat split. exact Hz.
  - match goal with
    | |- context [momentumFlow X j steps omega dt ?v (plug sp j ?l k0 c)] =>
        destruct (momentumFlow_flow steps omega dt v l c
                    eq_refl eq_refl eq_refl eq_refl eq_refl eq_refl)
          as (qc & closed & l' & c' & Hm & _)
    end.
    do 4 eexists. split; [exact Hset |]. repeat split. exact Hm.
Qed.

Lemma plug_conduit_only (c : TConduit.t) :
  plug sp j l0 k0 c = set_Conduit (upd k0 c (Conduit sp)) sp.
Proof.
  unfold plug, set_Conduit, set_Link. simpl.
  rewrite (upd_self _ _ _ Hlink). reflexivity.
Qed.

(** The project with a larger roughness factor in the conduit of link [j]. *)
Lemma rougher_start (rf' : Q) :
  0 <= TConduit.roughFactor c0 -> TConduit.roughFactor c0 <= rf' ->
  rougher j l0 sp (plug sp j l0 k0 (TConduit.set_roughFactor rf' c0)).
Proof.
  intros H0 Hle. split; [| split].
  - rewrite <- plug_start at 1. rewrite !maskProject_plug.
    destruct c0. reflexivity.
  - intros l Hl. rewrite Hlink in Hl. injection Hl as <-. reflexivity.
  - intros c c' Hc Hc'. rewrite Hconduit in Hc. injection Hc as <-.
    rewrite plug_Conduit in Hc'. injection Hc' as <-.
    destruct c0. simpl in *. split; assumption.
Qed.

End Fixed.

(** *** Further properties of the solver *)

Lemma nth_error_upd_other {A : Type} (a : list A) (i i' : nat) (x : A) :
  i <> i' -> nth_error (upd i x a) i' = nth_error a i'.
Proof.
  revert i i'. induction a as [| h t IH]; intros [| i] [| i'] H; simpl;
    try reflexivity.
  - contradiction H; reflexivity.
  - apply IH. intros E. apply H. rewrite E. reflexivity.
Qed.

Lemma length_upd {A : Type} (a : list A) (i : nat) (x : A) :
  List.length (upd i x a) = List.length a.
Proof.
  revert i. induction a as [| h t IH]; intros [| i]; simpl; try reflexivity.
  rewrite IH. reflexivity.
Qed.

Lemma userFlowLimit_le (qLimit q : Q) :
  0 < qLimit -> Qabs (userFlowLimit qLimit q) <= qLimit.
Proof.
  intros HL. unfold userFlowLimit, fabs, Qgtb.
  destruct (Qltb_spec 0 qLimit) as [_ | Hn]; [| lra].
  destruct (Qltb_spec qLimit (Qabs q)) as [Hq | Hq]; [| assumption].
  rewrite Qabs_Qmult.
  destruct (SGN_cases q) as [[_ Es] | [_ Es]]; rewrite Es;
    destruct (Qabs_cases qLimit) as [[Hl El] | [Hl El]]; rewrite El;
    try lra; change (Qabs (- (1))) with 1; change (Qabs 1) with 1; lra.
Qed.

(** The outcome of a call for link [j], whichever exit it takes. *)
Lemma dwflow_outcome (steps : Z) (omega dt : Q) :
  exists l' c',
    dwflow_findConduitFlow X j steps omega dt sp = Some (tt, plug sp j l' k0 c')
    /\ TConduit.q2 c' = TConduit.q1 c'
    /\ TLink.newFlow l' == TConduit.q1 c' * TConduit.barrels c0
    /\ (0 < TLink.qLimit l0 -> 0 <= FUDGE X -> Qabs (TConduit.q1 c') <= TLink.qLimit l0).
Proof.
  destruct (conduitSetup_run c0)
    as (fc & sa1 & sa2 & h1' & h2' & y1' & y2' & a1' & a2' & r1' & aMid' & rMid' & Hset).
  rewrite plug_start in Hset.
  unfold dwflow_findConduitFlow.
  rewrite (bind_run _ _ _ _ _ Hset). rewrite run_getLink.
  match goal with
  | |- context [if ?b then _ else _] => destruct b
  end.
  - match goal with
    | |- context [zeroFlow X j dt ?v (plug sp j ?l k0 ?c)] =>
        destruct (zeroFlow_run dt v l c eq_refl) as [vol Hz]
    end.
    do 2 eexists. split; [exact Hz |].
    cbn [TConduit.q1 TConduit.q2 TConduit.set_q1 TConduit.set_q2 TConduit.set_a1
         TLink.newFlow TLink.set_newFlow].
    split; [reflexivity |]. split; [lra |]. intros HL _.
    change (Qabs 0) with 0. lra.
  - match goal with
    | |- context [momentumFlow X j steps omega dt ?v (plug sp j ?l k0 ?c)] =>
        destruct (momentumFlow_flow steps omega dt v l c
                    eq_refl eq_refl eq_refl eq_refl eq_refl eq_refl)
          as (qc & closed & l' & c' & Hm & Hq1 & Hq2 & Hnf)
    end.
    do 2 eexists. split; [exact Hm |]. split; [assumption |].
    split; [rewrite Hnf; reflexivity |].
    intros HL HF. rewrite Hq1.
    eapply Qle_trans; [apply shrinks_Qabs; apply dryNodeChoke_shrinks; assumption |].
    destruct closed.
    + change (Qabs 0) with 0. lra.
    + apply userFlowLimit_le. exact HL.
Qed.

(** After a call, whichever exit it took, the conduit holds one flow in q1
    and q2, and the link's new flow is that flow times the number of
    barrels. *)
Theorem stored_flows_agree (steps : Z) (omega dt : Q) :
  exists sp' l' c',
    dwflow_findConduitFlow X j steps omega dt sp = Some (tt, sp')
    /\ nth_error (Link sp') j = Some l'
    /\ nth_error (Conduit sp') k0 = Some c'
    /\ TConduit.q2 c' = TConduit.q1 c'
    /\ TLink.newFlow l' == TConduit.q1 c' * TConduit.barrels c0.
Proof.
  destruct (dwflow_outcome steps omega dt) as (l' & c' & Hrun & H2 & Hnf & _).
  exists (plug sp j l' k0 c'), l', c'.
  split; [exact Hrun |]. split; [apply plug_Link |]. split; [apply plug_Conduit |].
  split; assumption.
Qed.

(** The user's flow limit is respected by the flow that is stored: with
    qLimit > 0 (and FUDGE not negative) the per-barrel flow does not exceed
    qLimit in magnitude. *)
Theorem flow_limit_respected (steps : Z) (omega dt : Q) :
  0 < TLink.qLimit l0 -> 0 <= FUDGE X ->
  exists sp' c',
    dwflow_findConduitFlow X j steps omega dt sp = Some (tt, sp')
    /\ nth_error (Conduit sp') k0 = Some c'
    /\ Qabs (TConduit.q1 c') <= TLink.qLimit l0.
Proof.
  intros HL HF.
  destruct (dwflow_outcome steps omega dt) as (l' & c' & Hrun & _ & _ & Hb).
  exists (plug sp j l' k0 c'), c'.
  split; [exact Hrun |]. split; [apply plug_Conduit |]. apply Hb; assumption.
Qed.

(** A call for link [j] writes only [Link[j]] and [Conduit[k]]: the nodes,
    the options, every other link and every other conduit are as before,
    and no array changes its length. *)
Theorem dwflow_frame (steps : Z) (omega dt : Q) :
  exists sp',
    dwflow_findConduitFlow X j steps omega dt sp = Some (tt, sp')
    /\ Node sp' = Node sp
    /\ InertDamping sp' = InertDamping sp
    /\ NormalFlowLtd sp' = NormalFlowLtd sp
    /\ (forall i, i <> j -> nth_error (Link sp') i = nth_error (Link sp) i)
    /\ (forall i, i <> k0 -> nth_error (Conduit sp') i = nth_error (Conduit sp) i)
    /\ List.length (Link sp') = List.length (Link sp)
    /\ List.length (Conduit sp') = List.length (Conduit sp).
Proof.
  destruct (dwflow_outcome steps omega dt) as (l' & c' & Hrun & _).
  exists (plug sp j l' k0 c'). split; [exact Hrun |].
  unfold plug, set_Conduit, set_Link. simpl.
  repeat split; try reflexivity.
  - intros i Hi. apply nth_error_upd_other. auto.
  - intros i Hi. apply nth_error_upd_other. auto.
  - apply length_upd.
  - apply length_upd.
Qed.


(** *** The classifier *)

(** The class is DRY exactly when both ends are dry. *)
Theorem getFlowClass_DRY_iff (q h1 h2 y1 y2 yC yN : Q) :
  exists fc yC' yN' fasnh,
    getFlowClass X j q h1 h2 y1 y2 yC yN sp = Some (fc, yC', yN', fasnh, sp)
    /\ (fc = DRY <-> y1 <= FUDGE X /\ y2 <= FUDGE X).
Proof.
  unfold getFlowClass. rewrite read_getLink. cbv zeta.
  rewrite read_getNode1, read_getNode2. unfold Qgtb.
  destruct (Qltb_spec (FUDGE X) y1) as [H1 | H1];
    destruct (Qltb_spec (FUDGE X) y2) as [H2 | H2]; cbn [andb];
    destruct (Qleb_spec y1 (FUDGE X)) as [H3 | H3]; try lra;
    destruct (Qleb_spec y2 (FUDGE X)) as [H4 | H4]; try lra; cbn [andb];
    repeat first
      [ rewrite bind_gets; cbv beta
      | match goal with
        | |- context [if ?b then _ else _] => destruct b
        end ];
    unfold ret; do 4 eexists; (split; [reflexivity |]);
    split; try discriminate; try (intros [? ?]; lra); auto.
Qed.

(** With the downstream end dry and the upstream end wet the class is
    DN_DRY exactly when the upstream head is below the invert of the
    downstream end of the conduit (with the conduit's own offset). *)
Theorem getFlowClass_DN_DRY_iff (q h1 h2 y1 y2 yC yN : Q) :
  FUDGE X < y1 -> y2 <= FUDGE X ->
  exists fc yC' yN' fasnh,
    getFlowClass X j q h1 h2 y1 y2 yC yN sp = Some (fc, yC', yN', fasnh, sp)
    /\ (fc = DN_DRY <-> h1 < TNode.invertElev nd2 + TLink.offset2 l0).
Proof.
  intros Hy1 Hy2. unfold getFlowClass. rewrite read_getLink. cbv zeta.
  rewrite read_getNode1, read_getNode2. unfold Qgtb.
  destruct (Qltb_spec (FUDGE X) y1) as [H1 | H1]; [| lra].
  destruct (Qltb_spec (FUDGE X) y2) as [H2 | H2]; [lra |]. cbn [andb].
  destruct (Qleb_spec y1 (FUDGE X)) as [H3 | H3]; [lra |]. cbn [andb].
  destruct (Qltb_spec h1 (TNode.invertElev nd2 + TLink.offset2 l0)).
  - unfold ret. do 4 eexists. split; [reflexivity |]. split; auto.
  - destruct (Qltb 0 (outfallOffset nd2 (TLink.offset2 l0))).
    + rewrite !bind_gets. unfold ret. do 4 eexists. split; [reflexivity |].
      split; [discriminate | lra].
    + unfold ret. do 4 eexists. split; [reflexivity |].
      split; [discriminate | lra].
Qed.

(** The classifier never answers SUPCRITICAL: that class is only set
    later, by the Froude test of the momentum step. *)
Theorem getFlowClass_never_SUPCRITICAL (q h1 h2 y1 y2 yC yN : Q) (s s' : SWMM_Project)
  (fc : FlowClass) (yC' yN' fasnh : Q) :
  getFlowClass X j q h1 h2 y1 y2 yC yN s = Some (fc, yC', yN', fasnh, s') ->
  fc <> SUPCRITICAL.
Proof.
  unfold getFlowClass, bind, getLink, getNode, gets, ret.
  destruct (nth_error (Link s) j) as [l |]; [| discriminate].
  destruct (nth_error (Node s) (TLink.node1 l)) as [m1 |]; [| discriminate].
  destruct (nth_error (Node s) (TLink.node2 l)) as [m2 |]; [| discriminate].
  cbv zeta.
  repeat match goal with
         | |- context [if ?b then _ else _] => destruct b
         end;
    intros H; cbv beta in H; inversion H; subst; discriminate.
Qed.

(** *** The normal-flow check next to an outfall *)

(** When an end node is an outfall only the slope trigger applies: with
    y1 >= y2 the flow is returned as it came and nothing is written,
    whatever the Froude number and the option NormalFlowLtd. *)
Theorem checkNormalFlow_at_outfall (q y1 y2 a1 r1 : Q) :
  isOutfall (TNode.type nd1) || isOutfall (TNode.type nd2) = true ->
  y2 <= y1 ->
  checkNormalFlow X j q y1 y2 a1 r1 sp = Some (q, sp).
Proof.
  intros Ho Hy.
  pose proof (checkNormalFlow_run q y1 y2 a1 r1 l0 c0 eq_refl eq_refl eq_refl) as H.
  cbv zeta in H. rewrite plug_start in H. rewrite H. rewrite Ho.
  unfold slopeTrigger, froudeTrigger.
  destruct (Qltb_spec y1 y2); [lra |].
  destruct (NormalFlowLtd sp); reflexivity.
Qed.

(** *** Depth clamps and local losses *)

(** Area and hydraulic radius are those of the full depth once the depth
    reaches it. *)
Theorem getArea_getHydRad_clamped (xs : TXsect.t) (y : Q) (s : SWMM_Project) :
  TXsect.yFull xs < y ->
  getArea X xs y s = Some (xsect_getAofY X s xs (TXsect.yFull xs), s)
  /\ getHydRad X xs y s = Some (xsect_getRofY X s xs (TXsect.yFull xs), s).
Proof.
  intros Hy. unfold getArea, getHydRad, MIN, gets. cbv zeta.
  destruct (Qleb_spec y (TXsect.yFull xs)); [lra |]. split; reflexivity.
Qed.

(** In a closed cross-section the top width is taken no higher than 96 % of
    the full depth. *)
Theorem getWidth_closed_top (xs : TXsect.t) (y : Q) (s : SWMM_Project) :
  xsect_isOpen X (TXsect.type xs) = false ->
  96 # 100 < y / TXsect.yFull xs ->
  getWidth X xs y s = Some (xsect_getWofY X s xs ((96 # 100) * TXsect.yFull xs), s).
Proof.
  intros Ho Hy. unfold getWidth, gets, Qgtb. cbv zeta. rewrite Ho.
  destruct (Qltb_spec (96 # 100) (y / TXsect.yFull xs)); [reflexivity | lra].
Qed.

(** The local losses are read off the link, write nothing, and are not
    negative when the loss coefficients are not (FUDGE not negative). *)
Theorem findLocalLosses_nonneg (a1 a2 aMid q : Q) :
  lossesNonneg l0 -> 0 <= FUDGE X ->
  exists losses,
    findLocalLosses X j a1 a2 aMid q sp = Some (losses, sp) /\ 0 <= losses.
Proof.
  intros (L1 & L2 & L3) HF. unfold findLocalLosses. rewrite read_getLink. cbv zeta.
  unfold ret. eexists. split; [reflexivity |].
  apply losses_nonneg; assumption.
Qed.

(** *** The limiters of the momentum step *)

(** Under-relaxation: none at the first sub-iteration; afterwards the
    relaxed flow has magnitude 0.001, or its product with qLast is not
    below the threshold under which a double product rounds to a
    negative number. *)
Theorem underRelax_spec (steps : Z) (omega qLast' q : Q) :
  ((steps <= 0)%Z -> underRelax steps omega qLast' q = q)
  /\ ((0 < steps)%Z ->
      - HALF_MIN_SUBNORMAL <= underRelax steps omega qLast' q * qLast'
      \/ Qabs (underRelax steps omega qLast' q) == 1 # 1000).
Proof.
  split.
  - intros Hs. unfold underRelax.
    destruct (Z.gtb_spec steps 0) as [Hp | _]; [lia | reflexivity].
  - apply underRelax_cases.
Qed.

(** No flow above FUDGE leaves a dry upstream node, and none below -FUDGE
    a dry downstream node. *)
Theorem dryNodeChoke_dry_node (d1 d2 q : Q) :
  0 <= FUDGE X ->
  (d1 <= FUDGE X -> dryNodeChoke X d1 d2 q <= FUDGE X)
  /\ (d2 <= FUDGE X -> - FUDGE X <= dryNodeChoke X d1 d2 q)
  /\ shrinks (dryNodeChoke X d1 d2 q) q.
Proof.
  intros HF. split; [| split]; [| | apply dryNodeChoke_shrinks; assumption].
  - intros Hd. unfold dryNodeChoke, Qgtb. cbv zeta.
    destruct (Qltb_spec (FUDGE X) q); destruct (Qleb_spec d1 (FUDGE X)); try lra;
      cbn [andb];
      match goal with
      | |- context [if ?b then _ else _] => destruct b
      end; lra.
  - intros Hd. unfold dryNodeChoke, Qgtb. cbv zeta.
    destruct (Qltb_spec (FUDGE X) q); destruct (Qleb_spec d1 (FUDGE X)); cbn [andb];
      match goal with
      | |- context [if (?a <? ?b) && _ then _ else _] =>
          destruct (Qltb_spec a b); destruct (Qleb_spec d2 (FUDGE X)); try lra;
          cbn [andb]; lra
      end.
Qed.
End Run.

(** * The properties on the concrete projects *)

Lemma helpersReadInputs_X1 : helpersReadInputs X1.
Proof. repeat split; intros; reflexivity. Qed.

Lemma flapGateByDirection_X1 : flapGateByDirection X1.
Proof.
  intros s j n1 n2 q q' H. cbn.
  destruct (Qltb_spec q 0), (Qltb_spec q' 0); try reflexivity; exfalso; lra.
Qed.

Lemma culvertInflowMonotone_X1 : culvertInflowMonotone X1.
Proof.
  intros s j h q q' H0 Hle. cbn. unfold Qgtb.
  assert (Hm : 0 <= MAX h 0).
  { unfold MAX, Qgeb. destruct (Qleb_spec 0 h); lra. }
  destruct (Qltb_spec (MAX h 0) q'), (Qltb_spec (MAX h 0) q); split; lra.
Qed.

(** The closed link takes the zero-flow exit. *)
Lemma zero_flow_exit_witness :
  exists sp' l' c',
    dwflow_findConduitFlow X0 0 1 (1 # 2) 30 sp_closed = Some (tt, sp')
    /\ nth_error (Link sp') 0 = Some l'
    /\ nth_error (Conduit sp') 0 = Some c'
    /\ TLink.newFlow l' = 0 /\ TConduit.q1 c' = 0 /\ TConduit.q2 c' = 0
    /\ TLink.froude l' = 0.
Proof.
  destruct (zero_flow_exit X0 sp_closed 0 link_closed (conduit0 (1 # 400))
              (node JUNCTION 0 (1 # 2)) (node JUNCTION 0 (9 # 10))
              eq_refl eq_refl eq_refl eq_refl 1 (1 # 2) 30)
    as (v & sp1 & l1 & Hset & Hl1 & H).
  destruct H as (sp' & l' & c' & Hrun & Hl & Hc & H1 & H2 & H3 & H4 & _).
  { right. left. reflexivity. }
  assert (Ek : k v = 0%nat).
  { vm_compute in Hset. injection Hset as <- _. reflexivity. }
  rewrite Ek in Hc.
  exists sp', l', c'. repeat split; assumption.
Defined.


(** There the stored flow is -0.001, against a previous flow of 1 cfs. *)
Lemma sign_reversal_snapped_at_step_1 :
  storedFlow (dwflow_findConduitFlow X0 0 1 (1 # 2) 30 (sp0 (1 # 400))) 0
  = Some (- (1 # 1000)).
Proof. vm_compute. reflexivity. Qed.

(** With under-relaxation ([steps = 1], omega = 1/4) and a previous flow of
    2^-1074 cfs, the relaxed flow is about -0.43 cfs; its product with the
    previous flow is above -2^-1075, which a double rounds to -0: the flow
    is not snapped, and the call stores a reversed flow of more than 0.4
    cfs in magnitude. *)
Lemma sign_reversal_past_underflow :
  exists sp' c',
    dwflow_findConduitFlow X0 0 1 (1 # 4) 30 sp_tiny = Some (tt, sp')
    /\ nth_error (Conduit sp') 0 = Some c'
    /\ 0 < TConduit.q1 conduit_tiny
    /\ TConduit.q1 c' < - (2 # 5)
    /\ - HALF_MIN_SUBNORMAL < TConduit.q1 c' * TConduit.q1 conduit_tiny
    /\ TConduit.q2 c' = TConduit.q1 c'.
Proof.
  do 2 eexists. split; [vm_compute; reflexivity |].
  split; [reflexivity |].
  split; [reflexivity |]. split; [reflexivity |]. split; reflexivity.
Qed.

(** Without under-relaxation ([steps = 0]) the same call stores a reversed
    flow of about -1.32 cfs: neither of magnitude FUDGE nor within 0.001. *)
Lemma sign_reversal_at_step_0 :
  exists sp' c',
    dwflow_findConduitFlow X0 0 0 (1 # 2) 30 (sp0 (1 # 400)) = Some (tt, sp')
    /\ nth_error (Conduit sp') 0 = Some c'
    /\ TConduit.q1 c' * TConduit.q1 (conduit0 (1 # 400)) < 0
    /\ ~ Qabs (TConduit.q1 c') == FUDGE X0
    /\ 1 < Qabs (TConduit.q1 c').
Proof.
  do 2 eexists. split; [vm_compute; reflexivity |].
  split; [reflexivity |].
  split; [reflexivity |]. split; [| reflexivity].
  intros H. vm_compute in H. discriminate H.
Qed.

(** The classifier on the link whose upstream node is an outfall. *)
Lemma getFlowClass_UP_DRY_iff_witness :
  exists fc yC' yN' fasnh,
    getFlowClass X0 0 0 2 (3 # 2) (1 # 1000000) 1 0 0 sp_out
    = Some (fc, yC', yN', fasnh, sp_out)
    /\ (fc = UP_DRY <-> 3 # 2 < TNode.invertElev (node OUTFALL 0 1) + TLink.offset1 link_out).
Proof.
  apply (getFlowClass_UP_DRY_iff X0 sp_out 0 link_out (node OUTFALL 0 1)
           (node JUNCTION 0 (3 # 2)) eq_refl eq_refl eq_refl 0 2 (3 # 2)
           (1 # 1000000) 1 0 0).
  - vm_compute. discriminate.
  - reflexivity.
Defined.

(** There the upstream end is dry and the downstream end wet, the class is
    UP_DRY, and the downstream head 1.5 is not below the upstream invert
    plus the offset after the outfall adjustment (2 - 1 = 1). *)
Lemma UP_DRY_with_adjusted_offset :
  (1 # 1000000) <= FUDGE X0 /\ FUDGE X0 < 1
  /\ getFlowClass X0 0 0 2 (3 # 2) (1 # 1000000) 1 0 0 sp_out
     = Some (UP_DRY, 0, 0, 1, sp_out)
  /\ ~ (3 # 2 < TNode.invertElev (node OUTFALL 0 1)
               + outfallOffset (node OUTFALL 0 1) (TLink.offset1 link_out)).
Proof.
  split; [vm_compute; discriminate |]. split; [reflexivity |].
  split; [reflexivity |].
  intros H. vm_compute in H. discriminate H.
Qed.

Lemma getFlowClass_pure_witness :
  exists r, getFlowClass X0 0 1 1 (3 # 2) 1 1 0 0 (sp0 (1 # 400))
            = Some (r, sp0 (1 # 400)).
Proof.
  apply (getFlowClass_pure X0 (sp0 (1 # 400)) 0 link0
           (node JUNCTION 0 (1 # 2)) (node JUNCTION 0 (9 # 10))
           eq_refl eq_refl eq_refl 1 1 (3 # 2) 1 1 0 0).
Defined.

(** A flow of 2 cfs against a normal flow of 1/2 * 1: limited, and flagged. *)
Lemma checkNormalFlow_spec_witness :
  exists q' sp',
    checkNormalFlow X0 0 2 (1 # 2) (9 # 10) (1 # 2) 1 (sp0 (1 # 400)) = Some (q', sp')
    /\ q' = TConduit.beta (conduit0 (1 # 400)) * (1 # 2) * pow X0 1 (2 # 3)
    /\ (exists l', nth_error (Link sp') 0 = Some l' /\ TLink.normalFlow l' = true)
    /\ q' <= 2.
Proof.
  destruct (checkNormalFlow_spec X0 (sp0 (1 # 400)) 0 link0 (conduit0 (1 # 400))
              (node JUNCTION 0 (1 # 2)) (node JUNCTION 0 (9 # 10))
              eq_refl eq_refl eq_refl eq_refl 2 (1 # 2) (9 # 10) (1 # 2) 1)
    as (q' & sp' & Hrun & Hyes & _ & Hle).
  destruct Hyes as [Hq Hl]; [split; reflexivity |].
  exists q', sp'. repeat split; assumption.
Defined.

Lemma findSurfArea_nonneg_witness :
  exists r sp' l',
    findSurfArea X0 0 1 100 (1 # 2) (9 # 10) (1 # 2) (9 # 10) (sp0 (1 # 400))
    = Some (r, sp')
    /\ nth_error (Link sp') 0 = Some l'
    /\ 0 <= TLink.surfArea1 l' /\ 0 <= TLink.surfArea2 l'.
Proof.
  apply (findSurfArea_nonneg X0 (sp0 (1 # 400)) 0 link0 (conduit0 (1 # 400))
           (node JUNCTION 0 (1 # 2)) (node JUNCTION 0 (9 # 10))
           eq_refl eq_refl eq_refl eq_refl 1 100 (1 # 2) (9 # 10) (1 # 2) (9 # 10)).
  - intros. vm_compute. discriminate.
  - vm_compute. discriminate.
  - reflexivity.
Defined.


(** The two flows stored there differ: about 0.83 and 0.73 cfs. *)
Lemma friction_monotone_flows :
  exists qa qb,
    storedNewFlow (dwflow_findConduitFlow X1 0 1 (1 # 2) 1 (sp_fav 1 (1 # 2))) 0 = Some qa
    /\ storedNewFlow (dwflow_findConduitFlow X1 0 1 (1 # 2) 1 (sp_fav 1 1)) 0 = Some qb
    /\ 8 # 10 < qa /\ qb < 75 # 100 /\ 7 # 10 < qb.
Proof.
  do 2 eexists. split; [vm_compute; reflexivity |].
  split; [vm_compute; reflexivity |].
  split; [reflexivity |]. split; reflexivity.
Qed.

(** Without under-relaxation, a Froude number of 1 or more in the smoother
    conduit alone: its flow is cut down to the normal flow 0.09 cfs, while
    the rougher conduit, with a Froude number below 1, keeps its 0.65 cfs. *)
Lemma friction_froude_trigger :
  TConduit.roughFactor (conduit_beta (1 # 10) (1 # 400)) <= 1 # 2
  /\ set_Conduit (upd 0 (TConduit.set_roughFactor (1 # 2) (conduit_beta (1 # 10) (1 # 400)))
                      (Conduit (sp_fav (1 # 10) (1 # 400)))) (sp_fav (1 # 10) (1 # 400))
     = sp_fav (1 # 10) (1 # 2)
  /\ exists ta tb la lb,
       dwflow_findConduitFlow X1 0 0 (1 # 2) 1 (sp_fav (1 # 10) (1 # 400)) = Some (tt, ta)
       /\ dwflow_findConduitFlow X1 0 0 (1 # 2) 1 (sp_fav (1 # 10) (1 # 2)) = Some (tt, tb)
       /\ nth_error (Link ta) 0 = Some la
       /\ nth_error (Link tb) 0 = Some lb
       /\ Qabs (TLink.newFlow la) < Qabs (TLink.newFlow lb).
Proof.
  split; [vm_compute; discriminate |]. split; [reflexivity |].
  do 4 eexists. split; [vm_compute; reflexivity |].
  split; [vm_compute; reflexivity |].
  split; [reflexivity |]. split; [reflexivity |]. reflexivity.
Qed.


(** ** The further properties on the concrete projects *)

Lemma stored_flows_agree_witness :
  exists sp' l' c',
    dwflow_findConduitFlow X0 0 0 (1 # 2) 30 (sp0 (1 # 400)) = Some (tt, sp')
    /\ nth_error (Link sp') 0 = Some l'
    /\ nth_error (Conduit sp') 0 = Some c'
    /\ TConduit.q2 c' = TConduit.q1 c'
    /\ TLink.newFlow l' == TConduit.q1 c' * TConduit.barrels (conduit0 (1 # 400)).
Proof.
  apply (stored_flows_agree X0 (sp0 (1 # 400)) 0 link0 (conduit0 (1 # 400))
           (node JUNCTION 0 (1 # 2)) (node JUNCTION 0 (9 # 10))
           eq_refl eq_refl eq_refl eq_refl 0 (1 # 2) 30).
Defined.

(** The reversed flow of about -1.32 cfs is cut to the limit of 0.5 cfs. *)
Lemma flow_limit_respected_witness :
  exists sp' c',
    dwflow_findConduitFlow X0 0 0 (1 # 2) 30 sp_limited = Some (tt, sp')
    /\ nth_error (Conduit sp') 0 = Some c'
    /\ Qabs (TConduit.q1 c') <= 1 # 2.
Proof.
  apply (flow_limit_respected X0 sp_limited 0 link_limited (conduit0 (1 # 400))
           (node JUNCTION 0 (1 # 2)) (node JUNCTION 0 (9 # 10))
           eq_refl eq_refl eq_refl eq_refl 0 (1 # 2) 30).
  - reflexivity.
  - vm_compute. discriminate.
Defined.

Lemma dwflow_frame_witness :
  exists sp',
    dwflow_findConduitFlow X0 0 1 (1 # 2) 30 (sp0 (1 # 400)) = Some (tt, sp')
    /\ Node sp' = Node (sp0 (1 # 400))
    /\ InertDamping sp' = PARTIAL_DAMPING
    /\ NormalFlowLtd sp' = BOTH
    /\ List.length (Link sp') = 1%nat
    /\ List.length (Conduit sp') = 1%nat.
Proof.
  destruct (dwflow_frame X0 (sp0 (1 # 400)) 0 link0 (conduit0 (1 # 400))
              (node JUNCTION 0 (1 # 2)) (node JUNCTION 0 (9 # 10))
              eq_refl eq_refl eq_refl eq_refl 1 (1 # 2) 30)
    as (sp' & Hrun & Hn & Hd & Hf & _ & _ & Hl & Hc).
  exists sp'. repeat split; assumption.
Defined.


Lemma getFlowClass_DRY_iff_witness :
  exists yC' yN' fasnh,
    getFlowClass X0 0 1 1 1 0 0 0 0 (sp0 (1 # 400))
    = Some (DRY, yC', yN', fasnh, sp0 (1 # 400)).
Proof.
  destruct (getFlowClass_DRY_iff X0 (sp0 (1 # 400)) 0 link0
              (node JUNCTION 0 (1 # 2)) (node JUNCTION 0 (9 # 10))
              eq_refl eq_refl eq_refl 1 1 1 0 0 0 0)
    as (fc & yC' & yN' & fasnh & Hrun & Hiff).
  assert (E : fc = DRY).
  { apply Hiff. split; vm_compute; discriminate. }
  rewrite E in Hrun. exists yC', yN', fasnh. exact Hrun.
Defined.

Lemma getFlowClass_DN_DRY_iff_witness :
  exists fc yC' yN' fasnh,
    getFlowClass X0 0 1 (1 # 2) 1 (1 # 2) 0 0 0 (sp0 (1 # 400))
    = Some (fc, yC', yN', fasnh, sp0 (1 # 400))
    /\ fc <> DN_DRY.
Proof.
  destruct (getFlowClass_DN_DRY_iff X0 (sp0 (1 # 400)) 0 link0
              (node JUNCTION 0 (1 # 2)) (node JUNCTION 0 (9 # 10))
              eq_refl eq_refl eq_refl 1 (1 # 2) 1 (1 # 2) 0 0 0)
    as (fc & yC' & yN' & fasnh & Hrun & Hiff).
  - reflexivity.
  - vm_compute. discriminate.
  - exists fc, yC', yN', fasnh. split; [exact Hrun |].
    intros E. apply Hiff in E. vm_compute in E. discriminate E.
Defined.

Lemma getFlowClass_never_SUPCRITICAL_witness : SUBCRITICAL <> SUPCRITICAL.
Proof.
  apply (getFlowClass_never_SUPCRITICAL X0 0 1 1 1 1 1 0 0
           (sp0 (1 # 400)) (sp0 (1 # 400)) SUBCRITICAL 0 0 1).
  reflexivity.
Defined.

Lemma checkNormalFlow_at_outfall_witness :
  checkNormalFlow X0 0 2 1 (1 # 2) 1 1 sp_out = Some (2, sp_out).
Proof.
  apply (checkNormalFlow_at_outfall X0 sp_out 0 link_out (conduit0 0)
           (node OUTFALL 0 1) (node JUNCTION 0 (3 # 2))
           eq_refl eq_refl eq_refl eq_refl 2 1 (1 # 2) 1 1).
  - reflexivity.
  - vm_compute. discriminate.
Defined.

Lemma getArea_getHydRad_clamped_witness :
  getArea X0 xsect0 3 (sp0 (1 # 400)) = Some (2, sp0 (1 # 400))
  /\ getHydRad X0 xsect0 3 (sp0 (1 # 400)) = Some (1, sp0 (1 # 400)).
Proof.
  apply (getArea_getHydRad_clamped X0 xsect0 3 (sp0 (1 # 400))). reflexivity.
Defined.

Lemma getWidth_closed_top_witness :
  getWidth X0 xsect_closed 2 (sp0 (1 # 400)) = Some (1, sp0 (1 # 400)).
Proof.
  apply (getWidth_closed_top X0 xsect_closed 2 (sp0 (1 # 400))); reflexivity.
Defined.

Lemma findLocalLosses_nonneg_witness :
  exists losses,
    findLocalLosses X0 0 1 1 1 1 (sp0 (1 # 400)) = Some (losses, sp0 (1 # 400))
    /\ 0 <= losses.
Proof.
  apply (findLocalLosses_nonneg X0 (sp0 (1 # 400)) 0 link0 eq_refl 1 1 1 1).
  - repeat split; vm_compute; discriminate.
  - vm_compute. discriminate.
Defined.

(** A flow of 1 cfs out of a dry upstream node is cut to FUDGE. *)
Lemma dryNodeChoke_dry_node_witness :
  dryNodeChoke X0 0 1 1 <= FUDGE X0 /\ shrinks (dryNodeChoke X0 0 1 1) 1.
Proof.
  destruct (dryNodeChoke_dry_node X0 0 1 1) as (H1 & _ & H3).
  - vm_compute. discriminate.
  - split; [apply H1; vm_compute; discriminate | exact H3].
Defined.

(** * The expression module: properties *)

Module MathexprFacts.

Import Mathexpr MathexprVocab.
Local Open Scope Z_scope.

(** ** Comparisons with NaN *)

Lemma SFcompare_refl (x : spec_float) : x <> S754_nan -> SFcompare x x = Some Eq.
Proof.
  destruct x as [s | s | | s m e]; intros H; simpl.
  - reflexivity.
  - destruct s; reflexivity.
  - contradiction H; reflexivity.
  - rewrite Z.compare_refl, Pos.compare_cont_refl. destruct s; reflexivity.
Qed.

Lemma is_nan_Prim2SF (r : float) : is_nan r = true -> Prim2SF r = S754_nan.
Proof.
  unfold is_nan. rewrite eqb_spec. unfold SFeqb. intros H.
  destruct (Prim2SF r) as [s | s | | s m e] eqn:E; try reflexivity;
    rewrite SFcompare_refl in H by discriminate; discriminate H.
Qed.

(** Every comparison with NaN is false. *)
Lemma nan_leb (r y : float) : is_nan r = true -> (r <=? y)%float = false.
Proof. intros H. rewrite leb_spec, (is_nan_Prim2SF r H). reflexivity. Qed.

Lemma nan_ltb (r y : float) : is_nan r = true -> (r <? y)%float = false.
Proof. intros H. rewrite ltb_spec, (is_nan_Prim2SF r H). reflexivity. Qed.

Lemma nan_eqb (r y : float) : is_nan r = true -> (r =? y)%float = false.
Proof. intros H. rewrite eqb_spec, (is_nan_Prim2SF r H). reflexivity. Qed.

(** ** The stack *)

Lemma nth_error_setCell_same (a : list float) (n : nat) (x y : float) :
  nth_error a n = Some y -> nth_error (setCell n x a) n = Some x.
Proof.
  revert n. induction a as [| h t IH]; intros [| n] H; simpl in *; try discriminate.
  - reflexivity.
  - apply IH. assumption.
Qed.

Lemma nth_error_setCell_other (a : list float) (n n' : nat) (x : float) :
  n <> n' -> nth_error (setCell n x a) n' = nth_error a n'.
Proof.
  revert n n'. induction a as [| h t IH]; intros [| n] [| n'] H; simpl;
    try reflexivity.
  - contradiction H; reflexivity.
  - apply IH. intros E. apply H. rewrite E. reflexivity.
Qed.

Lemma length_setCell (a : list float) (n : nat) (x : float) :
  List.length (setCell n x a) = List.length a.
Proof.
  revert n. induction a as [| h t IH]; intros [| n]; simpl; try reflexivity.
  rewrite IH. reflexivity.
Qed.

Lemma load_store (a : list float) (i : Z) (x y : float) :
  load a i = Some y ->
  store a i x = Some (setCell (Z.to_nat i) x a)
  /\ load (setCell (Z.to_nat i) x a) i = Some x.
Proof.
  intros H. unfold store. rewrite H. split; [reflexivity |].
  unfold load in *. destruct (i <? 0); [discriminate |].
  eapply nth_error_setCell_same. eassumption.
Qed.

(** A function opcode replaces the top of the stack by its value there. *)
Lemma unary_top (f : float -> float) (a : list float) (i : Z) (x : float) :
  load a i = Some x ->
  unary f (a, i) = Some (setCell (Z.to_nat i) (f x) a, i)
  /\ load (setCell (Z.to_nat i) (f x) a) i = Some (f x).
Proof.
  intros H. unfold unary. rewrite H. simpl.
  destruct (load_store a i (f x) x H) as [Hs Hl]. rewrite Hs. simpl.
  split; [reflexivity | assumption].
Qed.

(** The array as [mathexpr_eval] starts with it. *)
Lemma load_start (junk : nat -> float) :
  load (setCell 0 0%float (ExprStack_declared junk)) 0 = Some 0%float.
Proof. reflexivity. Qed.

(** ** The guards of the function opcodes *)

(** C4, as the code has it.  With [x] on top of the stack: LOG of a
    non-positive [x] and SQRT of a negative [x] leave 0 there; LOG10 leaves 0
    only for [x == 0.0], and for every other [x], a negative one included,
    it leaves log10(x). *)
Theorem guards_of_LOG_SQRT_LOG10 (L : Libm) (getVariableValue : option (Z -> float))
  (node : MathExpr) (a : list float) (i : Z) (x : float) :
  load a i = Some x ->
  (opcode node = 17 -> (x <=? 0)%float = true ->
   exists a', evalNode L getVariableValue node (a, i) = Some (a', i)
              /\ load a' i = Some 0%float)
  /\ (opcode node = 16 -> (x <? 0)%float = true ->
      exists a', evalNode L getVariableValue node (a, i) = Some (a', i)
                 /\ load a' i = Some 0%float)
  /\ (opcode node = 27 ->
      exists a', evalNode L getVariableValue node (a, i) = Some (a', i)
                 /\ load a' i = Some (if (x =? 0)%float then 0%float else log10 L x)).
Proof.
  intros H. split; [| split].
  - intros Eo Hx. unfold evalNode. rewrite Eo.
    destruct (unary_top (fun r1 => if (r1 <=? 0)%float then 0%float else log L r1)
                        a i x H) as [Hu Hl].
    rewrite Hx in Hu, Hl. eexists. split; eassumption.
  - intros Eo Hx. unfold evalNode. rewrite Eo.
    destruct (unary_top (fun r1 => if (r1 <? 0)%float then 0%float else PrimFloat.sqrt r1)
                        a i x H) as [Hu Hl].
    rewrite Hx in Hu, Hl. eexists. split; eassumption.
  - intros Eo. unfold evalNode. rewrite Eo.
    destruct (unary_top (fun r1 => if (r1 =? 0)%float then 0%float else log10 L r1)
                        a i x H) as [Hu Hl].
    eexists. split; eassumption.
Qed.

(** LOG10 with -1 on top of the stack leaves log10(-1) there. *)
Lemma guards_of_LOG_SQRT_LOG10_witness :
  exists a',
    evalNode libm0 None (mkExpr 27 (-1) 0%float) ([0%float; (-1)%float], 1)
    = Some (a', 1)
    /\ load a' 1 = Some (log10 libm0 (-1)%float).
Proof.
  destruct (guards_of_LOG_SQRT_LOG10 libm0 None (mkExpr 27 (-1) 0%float)
              [0%float; (-1)%float] 1 (-1)%float eq_refl) as (_ & _ & H).
  exact (H eq_refl).
Defined.

(** When log10(-1) is NaN, as C has it, STEP(LOG10(-1)) evaluates to 1:
    LOG10 leaves the NaN on the stack and the test [r1 <= 0.0] of STEP fails. *)
Lemma eval_step_log10_minus1 (L : Libm) (junk : nat -> float)
  (getVariableValue : option (Z -> float)) :
  is_nan (log10 L (-1)%float) = true ->
  mathexpr_eval L junk step_log10_minus1 getVariableValue = Some 1%float.
Proof.
  intros Hnan. unfold mathexpr_eval, step_log10_minus1. cbn [evalNodes obind].
  change (evalNode L getVariableValue (mkExpr 7 (-1) (-1)%float)
            (setCell 0 0%float (ExprStack_declared junk), 0))
    with (Some (setCell 1 (-1)%float (setCell 0 0%float (ExprStack_declared junk)), 1)).
  cbn [obind].
  set (a1 := setCell 1 (-1)%float (setCell 0 0%float (ExprStack_declared junk))).
  assert (H1 : load a1 1 = Some (-1)%float) by reflexivity.
  unfold evalNode at 1. cbn [opcode].
  destruct (unary_top (fun r1 => if (r1 =? 0)%float then 0%float else log10 L r1)
                      a1 1 (-1)%float H1) as [Hu Hl].
  rewrite Hu. cbn [obind].
  change ((-1 =? 0)%float) with false in Hl |- *. cbv beta iota in Hl |- *.
  unfold evalNode at 1. cbn [opcode].
  destruct (unary_top (fun r1 => if (r1 <=? 0)%float then 0%float else 1%float)
                      _ 1 _ Hl) as [Hu2 Hl2].
  rewrite Hu2. cbn [obind]. rewrite Hl2. cbn [obind].
  rewrite (nan_leb _ _ Hnan). reflexivity.
Qed.

(** ** A literal with a malformed exponent *)

Lemma digits_loop_Err (n : nat) (s : string) (m : TMathexprShared) :
  Err (snd (digits_loop n s m)) = Err m.
Proof.
  revert s m. induction n as [| n IH]; intros s m; simpl; [reflexivity |].
  destruct ((Pos m <? Len m) && isDigit (charAt (S m) (Pos m))); [| reflexivity].
  rewrite IH. reflexivity.
Qed.

Lemma digits_Err (s : string) (m : TMathexprShared) : Err (snd (digits s m)) = Err m.
Proof. apply digits_loop_Err. Qed.

(** [getNumber] never writes [Err]: its [errflag] stays local. *)
Lemma getNumber_scan_Err (m : TMathexprShared) : Err (snd (getNumber_scan m)) = Err m.
Proof.
  unfold getNumber_scan.
  pose proof (digits_Err EmptyString m) as H0.
  destruct (digits EmptyString m) as [s0 m0]. simpl in H0.
  destruct (Pos m0 <? Len m0); [| simpl; assumption].
  assert (H1 : forall s1 m1, Err m1 = Err m ->
             Err (snd (let '(sNumber, errflag, m2) :=
                         (if (Pos m1 <? Len m1)
                             && ((code (charAt (S m1) (Pos m1)) =? code "e")
                                 || (code (charAt (S m1) (Pos m1)) =? code "E"))
                          then
                            let sNumber := (s1 ++ "E")%string in
                            let m := set_Pos (Pos m1 + 1) m1 in
                            if Pos m >=? Len m then (sNumber, true, m)
                            else
                              let '(sNumber, m) :=
                                if (code (charAt (S m) (Pos m)) =? code "-")
                                   || (code (charAt (S m) (Pos m)) =? code "+")
                                then ((sNumber ++ String (charAt (S m) (Pos m)) EmptyString)%string,
                                      set_Pos (Pos m + 1) m)
                                else (sNumber, m) in
                              if (Pos m >=? Len m) || negb (isDigit (charAt (S m) (Pos m)))
                              then (sNumber, true, m)
                              else let '(sNumber, m) := digits sNumber m in
                                   (sNumber, false, m)
                          else (s1, false, m1)) in
                       (sNumber, errflag, set_Pos (Pos m2 - 1) m2))) = Err m).
  { intros s1 m1 E1.
    destruct ((Pos m1 <? Len m1)
              && ((code (charAt (S m1) (Pos m1)) =? code "e")
                  || (code (charAt (S m1) (Pos m1)) =? code "E"))); [| simpl; assumption].
    cbv zeta.
    destruct (Pos (set_Pos (Pos m1 + 1) m1) >=? Len (set_Pos (Pos m1 + 1) m1));
      [simpl; assumption |].
    match goal with
    | |- context [if ?b then (?s, set_Pos ?p ?mm) else (?s', ?mm)] =>
        destruct b
    end.
    - match goal with
      | |- context [if ?b then (_, true, _) else _] => destruct b
      end; [simpl; assumption |].
      match goal with
      | |- context [digits ?s ?mm] =>
          pose proof (digits_Err s mm) as Hd; destruct (digits s mm) as [s2 m2]
      end.
      simpl in Hd |- *. rewrite Hd. assumption.
    - match goal with
      | |- context [if ?b then (_, true, _) else _] => destruct b
      end; [simpl; assumption |].
      match goal with
      | |- context [digits ?s ?mm] =>
          pose proof (digits_Err s mm) as Hd; destruct (digits s mm) as [s2 m2]
      end.
      simpl in Hd |- *. rewrite Hd. assumption. }
  destruct (code (charAt (S m0) (Pos m0)) =? code ".").
  - match goal with
    | |- context [digits ?s ?mm] =>
        pose proof (digits_Err s mm) as Hd; destruct (digits s mm) as [s2 m2]
    end.
    simpl in Hd. apply H1. rewrite Hd. assumption.
  - apply H1. assumption.
Qed.

(** C5, as the code has it.  [getNumber] leaves [Err] as it was and returns
    0 for a literal whose exponent is malformed; so the formulas 1E and 1E+
    build the one-node program of the literal 0 instead of a build error. *)
Theorem malformed_exponent_builds_a_program (L : Libm) (getVar : option (string -> Z)) :
  (forall m, Err (snd (getNumber L m)) = Err m
             /\ (snd (fst (getNumber_scan m)) = true -> fst (getNumber L m) = 0%float))
  /\ mathexpr_create L "1E" getVar = Some [mkExpr 7 (-1) 0%float]
  /\ mathexpr_create L "1E+" getVar = Some [mkExpr 7 (-1) 0%float].
Proof.
  split; [| split; reflexivity].
  intros m. unfold getNumber.
  pose proof (getNumber_scan_Err m) as H.
  destruct (getNumber_scan m) as [[s e] m']. simpl in H |- *.
  split.
  - destruct e; simpl; assumption.
  - intros ->. reflexivity.
Qed.

(** The program built from 1E evaluates to 0. *)
Lemma eval_malformed_exponent (L : Libm) (junk : nat -> float)
  (getVariableValue : option (Z -> float)) :
  mathexpr_eval L junk [mkExpr 7 (-1) 0%float] getVariableValue = Some 0%float.
Proof. reflexivity. Qed.

(** ** The null program *)

(** C9.  The null program evaluates to 0.0, whatever the callback and the
    contents of the array: [ExprStack[0]] is set to 0.0, no opcode runs, and
    0.0 is not NaN. *)
Theorem eval_null_program (L : Libm) (junk : nat -> float)
  (getVariableValue : option (Z -> float)) :
  mathexpr_eval L junk [] getVariableValue = Some 0%float.
Proof. reflexivity. Qed.

(** ** The evaluator: further properties *)

(** The final test [r1 != r1]: the result is never NaN. *)
Theorem eval_never_NaN (L : Libm) (junk : nat -> float) (expr : list MathExpr)
  (getVariableValue : option (Z -> float)) (r : float) :
  mathexpr_eval L junk expr getVariableValue = Some r -> is_nan r = false.
Proof.
  unfold mathexpr_eval. intros H.
  match type of H with
  | context [evalNodes ?l ?g ?e ?s] => destruct (evalNodes l g e s) as [[a i] |]
  end; [| discriminate H].
  cbn [obind] in H. destruct (load a i) as [r1 |]; [| discriminate H].
  cbn [obind] in H. injection H as <-.
  destruct (r1 =? r1)%float eqn:E; cbn [negb].
  - unfold is_nan. rewrite E. reflexivity.
  - reflexivity.
Qed.

(** The kinds of rounds of the [switch]. *)
Lemma evalNode_cases (L : Libm) (getVariableValue : option (Z -> float))
  (node : MathExpr) (st : Stack) :
  (exists f, evalNode L getVariableValue node st = binary f st)
  \/ (exists x, evalNode L getVariableValue node st = push x st)
  \/ (exists f, evalNode L getVariableValue node st = unary f st)
  \/ evalNode L getVariableValue node st = power L st
  \/ (hasCase (opcode node) = false /\ evalNode L getVariableValue node st = Some st).
Proof.
  unfold evalNode, hasCase.
  destruct (opcode node) as [| p | p];
    [right; right; right; right; split; reflexivity | |
     right; right; right; right; split; reflexivity].
  do 6 (try (destruct p as [p | p |]));
    first [ left; eexists; reflexivity
          | right; left; eexists; reflexivity
          | right; right; left; eexists; reflexivity
          | right; right; right; left; reflexivity
          | right; right; right; right; split; reflexivity ].
Qed.

(** An opcode without a case in the [switch] is skipped: the stack and the
    index stay as they are. *)
Theorem unknown_opcode_is_skipped (L : Libm) (getVariableValue : option (Z -> float))
  (node : MathExpr) (st : Stack) :
  hasCase (opcode node) = false ->
  evalNode L getVariableValue node st = Some st.
Proof.
  intros H. unfold evalNode. unfold hasCase in H.
  destruct (opcode node) as [| p | p]; try reflexivity.
  do 6 (try (destruct p as [p | p |])); try reflexivity; discriminate H.
Qed.


(** *** Underflow and overflow of the stack *)

(** A binary operator or a power as the first node reads [ExprStack[-1]]:
    the evaluation has no defined result. *)
Theorem eval_underflow (L : Libm) (junk : nat -> float) (iv : Z) (fv : float)
  (rest : list MathExpr) (getVariableValue : option (Z -> float)) :
  mathexpr_eval L junk (mkExpr 3 iv fv :: rest) getVariableValue = None
  /\ mathexpr_eval L junk (mkExpr 4 iv fv :: rest) getVariableValue = None
  /\ mathexpr_eval L junk (mkExpr 5 iv fv :: rest) getVariableValue = None
  /\ mathexpr_eval L junk (mkExpr 6 iv fv :: rest) getVariableValue = None
  /\ mathexpr_eval L junk (mkExpr 31 iv fv :: rest) getVariableValue = None.
Proof. repeat split; reflexivity. Qed.


(** *** Guards *)

(** The power opcode yields 0 for a base [r2 <= 0.0], and COT yields 0 at
    [r1 == 0.0]. *)
Theorem power_and_cot_guards (L : Libm) (getVariableValue : option (Z -> float))
  (iv : Z) (fv : float) (a : list float) (i : Z) (r1 r2 : float) :
  load a i = Some r1 -> load a (i - 1) = Some r2 ->
  ((r2 <=? 0)%float = true ->
   exists a', evalNode L getVariableValue (mkExpr 31 iv fv) (a, i) = Some (a', i - 1)
              /\ load a' (i - 1) = Some 0%float)
  /\ ((r1 =? 0)%float = true ->
      exists a', evalNode L getVariableValue (mkExpr 13 iv fv) (a, i) = Some (a', i)
                 /\ load a' i = Some 0%float).
Proof.
  intros H1 H2. split.
  - intros Hr. unfold evalNode. cbn [opcode]. unfold power. rewrite H1. cbn [obind].
    rewrite H2. cbn [obind]. rewrite Hr.
    destruct (load_store a (i - 1) 0%float r2 H2) as [Hs Hl]. rewrite Hs. cbn [obind].
    eexists. split; [reflexivity | assumption].
  - intros Hr. unfold evalNode. cbn [opcode].
    destruct (unary_top (fun r1 => if (r1 =? 0)%float then 0 else 1 / tan L r1)%float
                        a i r1 H1) as [Hu Hl].
    rewrite Hr in Hu, Hl. eexists. split; eassumption.
Qed.

(** With NaN on top of the stack STEP yields 1 and SGN yields 0: their
    tests [r1 <= 0.0], [r1 < 0.0] and [r1 > 0.0] all fail. *)
Theorem step_and_sgn_of_NaN (L : Libm) (getVariableValue : option (Z -> float))
  (iv : Z) (fv : float) (a : list float) (i : Z) (x : float) :
  load a i = Some x -> is_nan x = true ->
  (exists a', evalNode L getVariableValue (mkExpr 28 iv fv) (a, i) = Some (a', i)
              /\ load a' i = Some 1%float)
  /\ (exists a', evalNode L getVariableValue (mkExpr 15 iv fv) (a, i) = Some (a', i)
                 /\ load a' i = Some 0%float).
Proof.
  intros H Hnan. split.
  - unfold evalNode. cbn [opcode].
    destruct (unary_top (fun r1 => if (r1 <=? 0)%float then 0%float else 1%float)
                        a i x H) as [Hu Hl].
    rewrite (nan_leb x _ Hnan) in Hu, Hl. eexists. split; eassumption.
  - unfold evalNode. cbn [opcode].
    destruct (unary_top (fun r1 => if (r1 <? 0)%float then (-1)%float
                                   else if (0 <? r1)%float then 1%float else 0%float)
                        a i x H) as [Hu Hl].
    assert (Hgt : (0 <? x)%float = false).
    { rewrite ltb_spec, (is_nan_Prim2SF x Hnan). reflexivity. }
    rewrite (nan_ltb x _ Hnan), Hgt in Hu, Hl. eexists. split; eassumption.
Qed.

(** *** The contents of the array as declared do not matter *)

Lemma load_None_iff (a : list float) (k : Z) :
  load a k = None <-> k < 0 \/ Z.of_nat (List.length a) <= k.
Proof.
  unfold load. destruct (Z.ltb_spec k 0) as [Hk | Hk].
  - split; [intros _; left; assumption | reflexivity].
  - rewrite nth_error_None. split.
    + intros H. right. lia.
    + intros [H | H]; lia.
Qed.

Lemma load_setCell_other (a : list float) (n k : Z) (x : float) :
  0 <= n -> k <> n -> load (setCell (Z.to_nat n) x a) k = load a k.
Proof.
  intros Hn Hk. unfold load. destruct (Z.ltb_spec k 0); [reflexivity |].
  apply nth_error_setCell_other. lia.
Qed.

Lemma agree_load (a b : list float) (i k : Z) :
  agree a b i -> k <= i -> load a k = load b k.
Proof.
  intros [Hlen H] Hk. destruct (Z.ltb_spec k 0) as [Hn | Hn].
  - unfold load. destruct (Z.ltb_spec k 0); [reflexivity | lia].
  - apply H. lia.
Qed.

Lemma agree_defined (a b : list float) (i k : Z) :
  agree a b i -> load a k = None -> load b k = None.
Proof.
  intros [Hlen _] H. apply load_None_iff. apply load_None_iff in H.
  rewrite <- Hlen. assumption.
Qed.

Lemma store_agree (a b : list float) (i k : Z) (x : float) :
  agree a b i -> k <= i + 1 ->
  sameStacks (obind (store a k x) (fun a' => Some (a', k)))
             (obind (store b k x) (fun b' => Some (b', k))).
Proof.
  intros Hag Hk. unfold store.
  destruct (load a k) as [y |] eqn:Ea; destruct (load b k) as [y' |] eqn:Eb; simpl.
  - split; [reflexivity |]. destruct Hag as [Hlen H]. split.
    + rewrite !length_setCell. assumption.
    + intros k' Hk'. destruct (Z.eq_dec k' k) as [-> | Hne].
      * destruct (load_store a k x y Ea) as [_ ->].
        destruct (load_store b k x y' Eb) as [_ ->]. reflexivity.
      * assert (0 <= k).
        { destruct (Z.ltb_spec k 0) as [Hn | Hn]; [| assumption].
          unfold load in Ea. destruct (Z.ltb_spec k 0); [discriminate | lia]. }
        rewrite !load_setCell_other by assumption. apply H. lia.
  - apply (agree_defined b a i k) in Eb; [congruence |].
    destruct Hag as [Hlen H]. split; [auto |]. intros; symmetry; auto.
  - apply (agree_defined a b i k Hag) in Ea. congruence.
  - exact I.
Qed.

Lemma evalNode_agree (L : Libm) (getVariableValue : option (Z -> float))
  (node : MathExpr) (a b : list float) (i : Z) :
  agree a b i ->
  sameStacks (evalNode L getVariableValue node (a, i))
             (evalNode L getVariableValue node (b, i)).
Proof.
  intros Hag.
  pose proof (agree_load a b i i Hag (Z.le_refl i)) as Hi.
  pose proof (agree_load a b i (i - 1) Hag ltac:(lia)) as Hi1.
  unfold evalNode.
  assert (Hbin : forall f, sameStacks (binary f (a, i)) (binary f (b, i))).
  { intros f. unfold binary. rewrite <- Hi.
    destruct (load a i) as [r1 |]; [| exact I]. cbn [obind]. rewrite <- Hi1.
    destruct (load a (i - 1)) as [r2 |]; [| exact I]. cbn [obind].
    apply (store_agree a b i (i - 1) _ Hag). lia. }
  assert (Hpush : forall x, sameStacks (push x (a, i)) (push x (b, i))).
  { intros x. unfold push. apply (store_agree a b i (i + 1) _ Hag). lia. }
  assert (Hun : forall f, sameStacks (unary f (a, i)) (unary f (b, i))).
  { intros f. unfold unary. rewrite <- Hi.
    destruct (load a i) as [r1 |]; [| exact I]. cbn [obind].
    apply (store_agree a b i i _ Hag). lia. }
  assert (Hpow : sameStacks (power L (a, i)) (power L (b, i))).
  { unfold power. rewrite <- Hi.
    destruct (load a i) as [r1 |]; [| exact I]. cbn [obind]. rewrite <- Hi1.
    destruct (load a (i - 1)) as [r2 |]; [| exact I]. cbn [obind].
    apply (store_agree a b i (i - 1) _ Hag). lia. }
  assert (Hskip : sameStacks (Some (a, i)) (Some (b, i))).
  { split; [reflexivity | assumption]. }
  destruct (opcode node) as [| p | p]; [exact Hskip | | exact Hskip].
  do 6 (try (destruct p as [p | p |]));
    first [ apply Hbin | apply Hpush | apply Hun | exact Hpow | exact Hskip ].
Qed.

Lemma evalNodes_agree (L : Libm) (getVariableValue : option (Z -> float))
  (expr : list MathExpr) (a b : list float) (i : Z) :
  agree a b i ->
  sameStacks (evalNodes L getVariableValue expr (a, i))
             (evalNodes L getVariableValue expr (b, i)).
Proof.
  revert a b i. induction expr as [| node next IH]; intros a b i Hag.
  - split; [reflexivity | assumption].
  - cbn [evalNodes].
    pose proof (evalNode_agree L getVariableValue node a b i Hag) as H.
    destruct (evalNode L getVariableValue node (a, i)) as [[a' i'] |];
      destruct (evalNode L getVariableValue node (b, i)) as [[b' i''] |];
      cbn [obind]; try contradiction; [| exact I].
    destruct H as [<- Hag']. apply IH. assumption.
Qed.

(** The array [ExprStack] is declared and not initialised; whatever it
    holds, the evaluation gives the same result. *)
Theorem eval_ignores_junk (L : Libm) (junk junk' : nat -> float) (expr : list MathExpr)
  (getVariableValue : option (Z -> float)) :
  mathexpr_eval L junk expr getVariableValue
  = mathexpr_eval L junk' expr getVariableValue.
Proof.
  unfold mathexpr_eval.
  assert (Hag : agree (setCell 0 0%float (ExprStack_declared junk))
                      (setCell 0 0%float (ExprStack_declared junk')) 0).
  { split.
    - rewrite !length_setCell. unfold ExprStack_declared.
      rewrite !length_map. reflexivity.
    - intros k Hk. assert (k = 0) by lia. subst k. rewrite !load_start. reflexivity. }
  pose proof (evalNodes_agree L getVariableValue expr _ _ 0 Hag) as H.
  destruct (evalNodes L getVariableValue expr
              (setCell 0 0%float (ExprStack_declared junk), 0)) as [[a i] |];
    destruct (evalNodes L getVariableValue expr
                (setCell 0 0%float (ExprStack_declared junk'), 0)) as [[b i'] |];
    cbn [obind]; try contradiction; [| reflexivity].
  destruct H as [<- Hag']. rewrite (agree_load a b i i Hag' (Z.le_refl i)). reflexivity.
Qed.

(** ** The lexer and the parser *)

Lemma toupper_idem (c : ascii) : toupper (toupper c) = toupper c.
Proof.
  destruct c as [b0 b1 b2 b3 b4 b5 b6 b7].
  destruct b0, b1, b2, b3, b4, b5, b6, b7; vm_compute; reflexivity.
Qed.

Lemma upper_empty (s : string) : upper s = EmptyString <-> s = EmptyString.
Proof. destruct s; simpl; split; intros H; try reflexivity; discriminate H. Qed.

Lemma sametext_upper_l (s t : string) : sametext (upper s) t = sametext s t.
Proof.
  revert t. induction s as [| c1 t1 IH]; intros [| c2 t2]; simpl; try reflexivity.
  rewrite toupper_idem.
  destruct (code (toupper c1) =? code (toupper c2)); [| reflexivity].
  destruct t1 as [| c1' t1']; [reflexivity |].
  change (upper (String c1' t1')) with (String (toupper c1') (upper t1')).
  cbv iota. rewrite <- (IH t2). reflexivity.
Qed.

Lemma sametext_upper_r (s t : string) : sametext s (upper t) = sametext s t.
Proof.
  revert t. induction s as [| c1 t1 IH]; intros [| c2 t2]; simpl; try reflexivity.
  rewrite toupper_idem.
  destruct (code (toupper c1) =? code (toupper c2)); [| reflexivity].
  destruct t1 as [| c1' t1']; destruct t2 as [| c2' t2']; try reflexivity.
  - change (upper (String c2' t2')) with (String (toupper c2') (upper t2')).
    rewrite <- (IH (String c2' t2')). reflexivity.
Qed.

(** Names are compared without regard to case: a token and its upper-case
    form select the same entry of [MathFunc]; so log10 is LOG10, opcode 27,
    and a name that is not in the table gives 0. *)
Theorem function_names_ignore_case (m : TMathexprShared) :
  getMathFunc (set_Token (upper (Token m)) m) = getMathFunc m
  /\ getMathFunc (set_Token "log10" m) = 27
  /\ getMathFunc (set_Token "Step" m) = 28
  /\ getMathFunc (set_Token "cos" m) = 10
  /\ getMathFunc (set_Token "LOG2" m) = 0.
Proof.
  split; [| repeat split; reflexivity].
  unfold getMathFunc. cbn [Token set_Token].
  generalize 0. induction MathFunc as [| name rest IH]; intros i; simpl;
    [reflexivity |].
  rewrite sametext_upper_r. destruct (sametext name (Token m)); [reflexivity | apply IH].
Qed.

(** At the end of the formula [getLex] returns 0 and changes nothing:
    neither [Pos] nor [PrevLex] and [CurLex]. *)
Theorem getLex_at_end (L : Libm) (getVariableIndex : option (string -> Z))
  (m : TMathexprShared) :
  Len m <= Pos m -> getLex L getVariableIndex m = (0, m).
Proof.
  intros H. unfold getLex.
  replace (Z.to_nat (Len m - Pos m)) with O by lia. cbn [skipSpaces]. cbv zeta.
  destruct (Z.geb_spec (Pos m) (Len m)); [reflexivity | lia].
Qed.

(** The formula 2*(A+3)^2 - STEP(A), with A the variable 0: the postfix
    program 2 A 3 + 2 ^ * A STEP -, the literals as [atof] reads them. *)
Theorem parse_sample_formula (L : Libm) :
  mathexpr_create L "2*(A+3)^2 - STEP(A)" getVarA
  = Some [mkExpr 7 (-1) (atof L "2"); mkExpr 8 0 0%float; mkExpr 7 (-1) (atof L "3");
          mkExpr 3 (-1) 0%float; mkExpr 7 (-1) (atof L "2"); mkExpr 31 (-1) 0%float;
          mkExpr 5 (-1) 0%float; mkExpr 8 0 0%float; mkExpr 28 (-1) 0%float;
          mkExpr 4 (-1) 0%float].
Proof. reflexivity. Qed.





(** ** The properties on concrete programs *)

Lemma eval_never_NaN_witness : is_nan 0%float = false.
Proof.
  apply (eval_never_NaN libm0 (fun _ => 0%float) [mkExpr 7 (-1) nan] None 0%float).
  reflexivity.
Defined.

Lemma unknown_opcode_is_skipped_witness :
  evalNode libm0 None (mkExpr 29 (-1) 0%float) ([0%float; 1%float], 1)
  = Some ([0%float; 1%float], 1).
Proof.
  apply (unknown_opcode_is_skipped libm0 None (mkExpr 29 (-1) 0%float)). reflexivity.
Defined.

(** 0 to the power 2, and COT at 0. *)
Lemma power_and_cot_guards_witness :
  (exists a', evalNode libm0 None (mkExpr 31 (-1) 0%float) ([0%float; 0%float; 2%float], 2)
              = Some (a', 1)
              /\ load a' 1 = Some 0%float)
  /\ (exists a', evalNode libm0 None (mkExpr 13 (-1) 0%float) ([0%float; 0%float], 1)
                 = Some (a', 1)
                 /\ load a' 1 = Some 0%float).
Proof.
  split.
  - destruct (power_and_cot_guards libm0 None (-1) 0%float [0%float; 0%float; 2%float] 2
                2%float 0%float eq_refl eq_refl) as [H _].
    exact (H eq_refl).
  - destruct (power_and_cot_guards libm0 None (-1) 0%float [0%float; 0%float] 1
                0%float 0%float eq_refl eq_refl) as [_ H].
    exact (H eq_refl).
Defined.

Lemma step_and_sgn_of_NaN_witness :
  exists a', evalNode libm0 None (mkExpr 28 (-1) 0%float) ([0%float; nan], 1)
             = Some (a', 1)
             /\ load a' 1 = Some 1%float.
Proof.
  destruct (step_and_sgn_of_NaN libm0 None (-1) 0%float [0%float; nan] 1 nan
              eq_refl eq_refl) as [H _].
  exact H.
Defined.

Lemma getLex_at_end_witness :
  getLex libm0 None (mkShared 0 0 7 7 2 2 "1E" EmptyString 0 0%float)
  = (0, mkShared 0 0 7 7 2 2 "1E" EmptyString 0 0%float).
Proof.
  apply (getLex_at_end libm0 None (mkShared 0 0 7 7 2 2 "1E" EmptyString 0 0%float)).
  vm_compute. discriminate.
Defined.

End MathexprFacts.
